(** * AOT autograd: graph partitioning, gradient routing and the compile cache

    A shallow embedding of [functorch/_src/aot_autograd.py]: the two
    partitioners that split a traced joint forward/backward graph, the
    flow network of the recompute-aware partitioner, the subgraph
    extractor, the autograd function wrapping the compiled halves, and
    the process-wide compilation cache. *)

From stdpp Require Import gmap strings list fin_maps sorting.

Open Scope string_scope.
Open Scope list_scope.
Open Scope Z_scope.

(** ** Exceptions and fallible computations *)

(** The Python exceptions the module can raise or let through. *)
Inductive exn :=
  | KeyError
  | AttributeError
  | IndexError
  | TypeError
  | AssertionError
  | StopIteration
  | ValueError
  | RuntimeError (msg : string)
  | NetworkXUnbounded
  | CompilerError (msg : string).

Inductive result (A : Type) :=
  | Ok (a : A)
  | Raise (e : exn).
Arguments Ok {A} a.
Arguments Raise {A} e.

#[global] Instance result_ret : MRet result := fun A a => Ok a.
#[global] Instance result_bind : MBind result := fun A B f m =>
  match m with
  | Ok a => f a
  | Raise e => Raise e
  end.

#[global] Instance exn_eq_dec : EqDecision exn.
Proof. solve_decision. Defined.

(** A list comprehension whose body may raise: left to right, stopping
    at the first exception. *)
Definition mapR {A B} (f : A -> result B) : list A -> result (list B) :=
  fix go l :=
    match l with
    | [] => Ok []
    | x :: l' => y ← f x; ys ← go l'; Ok (y :: ys)
    end.

(** ** The fx graph model *)

Inductive opcode :=
  | placeholder | call_function | call_method | call_module | get_attr | output.

#[global] Instance opcode_eq_dec : EqDecision opcode.
Proof. solve_decision. Defined.

(** Literal (non-node) leaves of an argument tree: [None], a number, or
    a constant value embedded in the graph (fx keeps a tensor passed as
    an argument as it is).  [V] is the type of run-time values. *)
Inductive lit (V : Type) :=
  | LNone
  | LInt (z : Z)
  | LConst (v : V).
Arguments LNone {V}.
Arguments LInt {V} z.
Arguments LConst {V} v.

(** Arguments of a node: a node reference, a literal, or a nested
    list/tuple of arguments.  [A] is what a reference carries: a node
    name inside a graph, a value once resolved. *)
#[local] Unset Elimination Schemes.
Inductive Arg (V A : Type) :=
  | ARef (a : A)
  | ALit (c : lit V)
  | ASeq (l : list (Arg V A)).
#[local] Set Elimination Schemes.
Arguments ARef {V A} a.
Arguments ALit {V A} c.
Arguments ASeq {V A} l.

(** The target of a node: a string for placeholders, attributes and the
    output node, an operator (named by its qualified name under
    [torch.ops.aten]) for [call_function]. *)
Inductive Target :=
  | TName (s : string)
  | TOp (s : string).

#[global] Instance Target_eq_dec : EqDecision Target.
Proof. solve_decision. Defined.

Record Node (V : Type) := mkNode {
  name : string;
  op : opcode;
  target : Target;
  args : list (Arg V string);
  kwargs : list (string * Arg V string);
  (** [meta['tensor_meta'].shape], when the node carries tensor metadata *)
  tensor_meta : option (list Z)
}.
Arguments mkNode {V} name op target args kwargs tensor_meta.
Arguments name {V} n.
Arguments op {V} n.
Arguments target {V} n.
Arguments args {V} n.
Arguments kwargs {V} n.
Arguments tensor_meta {V} n.

(** A graph is its list of nodes, in order; a graph module carries the
    leaf counts of the two children of [_out_spec]. *)
Notation Graph V := (list (Node V)) (only parsing).

Record GraphModule (V : Type) := mkModule {
  graph : Graph V;
  num_fwd_leaves : nat;
  num_bwd_leaves : nat
}.
Arguments mkModule {V} graph num_fwd_leaves num_bwd_leaves.
Arguments graph {V} g.
Arguments num_fwd_leaves {V} g.
Arguments num_bwd_leaves {V} g.

(** [map_arg]: the node references of an argument tree, left to right. *)
Fixpoint arg_refs {V A} (a : Arg V A) : list A :=
  match a with
  | ARef x => [x]
  | ALit _ => []
  | ASeq l => flat_map arg_refs l
  end.

Definition args_refs {V A} (l : list (Arg V A)) : list A :=
  flat_map arg_refs l.

(** [pytree.tree_flatten]: the leaves of an argument tree, left to right. *)
Fixpoint arg_leaves {V A} (a : Arg V A) : list (Arg V A) :=
  match a with
  | ASeq l => flat_map arg_leaves l
  | _ => [a]
  end.

(** The references visited by [map_arg(n.args, f)] followed by
    [map_arg(n.kwargs, f)]. *)
Definition node_refs {V} (n : Node V) : list string :=
  args_refs (args n) ++ args_refs (snd <$> kwargs n).

(** [sub in s] on Python strings. *)
Fixpoint str_in (sub s : string) : bool :=
  if String.prefix sub s then true
  else match s with
       | EmptyString => false
       | String _ s' => str_in sub s'
       end.

Definition target_contains (sub : string) (t : Target) : bool :=
  match t with
  | TName s => str_in sub s
  | TOp _ => false
  end.

Definition is_op {V} (o : opcode) (n : Node V) : bool := bool_decide (op n = o).

Definition _is_primal {V} (n : Node V) : bool :=
  is_op placeholder n && negb (target_contains "tangents" (target n)).

Definition _is_tangent {V} (n : Node V) : bool :=
  is_op placeholder n && target_contains "tangents" (target n).

(** ** Python sets of nodes

    [bw_nodes] is only ever tested for membership, so a [gset] of node
    names models it.  [saved_nodes] is also iterated, twice.  A Python
    [set] iterates in hash-table order; fx nodes hash by object identity,
    so that order is fixed by where the nodes live in memory and is not
    the insertion order.  The set is kept as the duplicate-free list of
    its elements in insertion order, and the iteration order is a
    parameter [set_iter] of everything that iterates a set. *)
Definition set_add (x : string) (s : list string) : list string :=
  if bool_decide (x ∈ s) then s else s ++ [x].

(** ** The default partitioner: colouring walk (lines 42-66) *)

Record coloring (V : Type) := mkColoring {
  bw_nodes : gset string;
  saved_nodes : list string;
  output_node : option (Node V)
}.
Arguments mkColoring {V} bw_nodes saved_nodes output_node.
Arguments bw_nodes {V} c.
Arguments saved_nodes {V} c.
Arguments output_node {V} c.

Definition coloring_init {V} : coloring V :=
  {| bw_nodes := ∅; saved_nodes := []; output_node := None |}.

Definition is_colored {V} (c : coloring V) (a : string) : bool :=
  bool_decide (a ∈ bw_nodes c) || bool_decide (a ∈ saved_nodes c).

Definition add_saved (bw : gset string) (saved : list string) (a : string)
  : list string :=
  if bool_decide (a ∈ bw) then saved else set_add a saved.

Definition color_step {V} (c : coloring V) (n : Node V) : coloring V :=
  if _is_tangent n then
    {| bw_nodes := bw_nodes c ∪ {[name n]};
       saved_nodes := saved_nodes c;
       output_node := output_node c |}
  else if negb (is_op output n) then
    let has_color := existsb (is_colored c) (node_refs n) in
    if has_color then
      let bw := bw_nodes c ∪ {[name n]} in
      {| bw_nodes := bw;
         saved_nodes := fold_left (add_saved bw) (node_refs n) (saved_nodes c);
         output_node := output_node c |}
    else c
  else
    {| bw_nodes := bw_nodes c;
       saved_nodes := saved_nodes c;
       output_node := Some n |}.

Definition color_walk {V} (g : Graph V) : coloring V :=
  fold_left color_step g coloring_init.

(** ** The default partitioner: building the two graphs (lines 68-102) *)

(** [graph.placeholder(name)] and [graph.output(result)]. *)
Definition mk_placeholder {V} (nm : string) : Node V :=
  mkNode nm placeholder (TName nm) [] [] None.

Definition mk_output {V} (r : Arg V string) : Node V :=
  mkNode "output" output (TName "output") [r] [] None.

(** [map_arg(a, lambda n: value_remap[n])]: a missing key raises. *)
Fixpoint remap_arg {V} (value_remap : gmap string string) (a : Arg V string)
  : result (Arg V string) :=
  match a with
  | ARef x =>
      match value_remap !! x with
      | Some y => Ok (ARef y)
      | None => Raise KeyError
      end
  | ALit c => Ok (ALit c)
  | ASeq l => l' ← mapR (remap_arg value_remap) l; Ok (ASeq l')
  end.

Definition remap_kwarg {V} (value_remap : gmap string string)
    (kv : string * Arg V string) : result (string * Arg V string) :=
  a ← remap_arg value_remap kv.2; Ok (kv.1, a).

(** [graph.node_copy(node, lambda n: value_remap[n])].  The copy keeps
    the name of its source: the names of the joint graph are unique, and
    fx gives a copy another name only where a saved placeholder of the
    backward graph already carries it, which changes no reference, since
    [value_remap] then sends the node to its copy. *)
Definition node_copy {V} (value_remap : gmap string string) (n : Node V)
  : result (Node V) :=
  a ← mapR (remap_arg value_remap) (args n);
  k ← mapR (remap_kwarg value_remap) (kwargs n);
  Ok (mkNode (name n) (op n) (target n) a k (tensor_meta n)).

(** [value_remap[i]] for an element [i] of the output list: only a node
    can be a key that is present; a nested list is unhashable. *)
Definition remap_key {V} (value_remap : gmap string string)
    (a : Arg V string) : result (Arg V string) :=
  match a with
  | ARef x =>
      match value_remap !! x with
      | Some y => Ok (ARef y)
      | None => Raise KeyError
      end
  | ALit _ => Raise KeyError
  | ASeq _ => Raise TypeError
  end.

(** [output_node.args[0]], which is then sliced. *)
Definition out_args0 {V} (n : Node V) : result (list (Arg V string)) :=
  match args n with
  | [] => Raise IndexError
  | ASeq l :: _ => Ok l
  | _ :: _ => Raise TypeError
  end.

(** [node in bw_outputs]: list membership compares the node with the
    elements of the list. *)
Definition is_ref_of {V} (nm : string) (a : Arg V string) : bool :=
  match a with
  | ARef x => bool_decide (x = nm)
  | _ => false
  end.

Definition node_in {V} (n : Node V) (l : list (Arg V string)) : bool :=
  existsb (is_ref_of (name n)) l.

(** [if len(outs) == 1: outs = outs[0]]. *)
Definition unwrap_single {V A} (l : list (Arg V A)) : Arg V A :=
  match l with
  | [x] => x
  | _ => ASeq l
  end.

(** The state of a copying loop: [value_remap] and the graph built so far. *)
Notation copy_state V := (gmap string string * Graph V)%type (only parsing).

Definition copy_node {V} (st : copy_state V) (n : Node V)
  : result (copy_state V) :=
  n' ← node_copy st.1 n;
  Ok (<[name n := name n']> st.1, st.2 ++ [n']).

Fixpoint copy_loop {V} (keep : Node V -> bool) (g : Graph V)
    (st : copy_state V) : result (copy_state V) :=
  match g with
  | [] => Ok st
  | n :: g' =>
      if keep n then st' ← copy_node st n; copy_loop keep g' st'
      else copy_loop keep g' st
  end.

Definition add_saved_placeholder {V} (st : copy_state V) (s : string)
  : copy_state V :=
  (<[s := name (@mk_placeholder V s)]> st.1, st.2 ++ [mk_placeholder s]).

(** The result is the pair of graphs: wrapping them in
    [fx.GraphModule] and [graph.lint()] (lines 86, 99-101), which
    generate and check Python code for them, are left out. *)
Section DefaultPartition.
(** The iteration order of a Python set, given its elements in
    insertion order. *)
Context {V : Type}.
Variable set_iter : list string -> list string.

Definition default_partition (fx_module : GraphModule V)
  : result (Graph V * Graph V) :=
  let c := color_walk (graph fx_module) in
  let num_fwd_outputs := num_fwd_leaves fx_module in
  let num_bwd_outputs := num_bwd_leaves fx_module in
  out ← match output_node c with
        | Some n => Ok n
        | None => Raise AttributeError
        end;
  outs ← out_args0 out;
  let bw_outputs := drop num_fwd_outputs outs in
  (* the backward graph *)
  let st0 := fold_left add_saved_placeholder (set_iter (saved_nodes c)) (∅, []) in
  st ← copy_loop
         (fun n => bool_decide (name n ∈ bw_nodes c) || node_in n bw_outputs)
         (graph fx_module) st0;
  if negb (bool_decide ((num_fwd_outputs + num_bwd_outputs)%nat = length outs))
  then Raise AssertionError
  else
  bwd_outputs ← mapR (remap_key st.1) bw_outputs;
  let bw_graph := st.2 ++ [mk_output (unwrap_single bwd_outputs)] in
  (* the forward graph *)
  st ← copy_loop
         (fun n => negb (bool_decide (name n ∈ bw_nodes c)) && negb (is_op output n))
         (graph fx_module) (∅, []);
  fwd_outs ← mapR (remap_key st.1) (take num_fwd_outputs outs);
  fwd_saved ← mapR (remap_key st.1) (ARef <$> set_iter (saved_nodes c));
  let fwd_outputs := fwd_outs ++ fwd_saved in
  let fw_graph := st.2 ++ [mk_output (unwrap_single fwd_outputs)] in
  Ok (fw_graph, bw_graph).
End DefaultPartition.

(** ** Running a graph

    The operators and the attributes of the owning module are external:
    [interp f args kwargs] is the value of operator [f] on resolved
    arguments, [attr s] the value of attribute [s].  In a resolved
    argument a value is an [ARef], whether it came from a node or from
    a constant embedded in the graph. *)
Section Semantics.
Context {V : Type}.
Variable interp : string -> list (Arg V V) -> list (string * Arg V V) -> V.
Variable attr : string -> V.

Fixpoint resolve (env : gmap string V) (a : Arg V string)
  : option (Arg V V) :=
  match a with
  | ARef x => v ← env !! x; Some (ARef v)
  | ALit LNone => Some (ALit LNone)
  | ALit (LInt z) => Some (ALit (LInt z))
  | ALit (LConst v) => Some (ARef v)
  | ASeq l => l' ← mapM (resolve env) l; Some (ASeq l')
  end.

Definition resolve_kw (env : gmap string V) (kv : string * Arg V string)
  : option (string * Arg V V) :=
  a ← resolve env kv.2; Some (kv.1, a).

(** The value of a non-placeholder, non-output node. *)
Definition node_value (env : gmap string V) (n : Node V) : option V :=
  match op n, target n with
  | call_function, TOp f =>
      a ← mapM (resolve env) (args n);
      k ← mapM (resolve_kw env) (kwargs n);
      Some (interp f a k)
  | get_attr, TName s => Some (attr s)
  | _, _ => None
  end.

(** One step of the interpreter: a placeholder takes the next input,
    the output node fixes the result. *)
Record run_state := mkRun {
  r_env : gmap string V;
  r_inputs : list V;
  r_result : option (Arg V V)
}.

Definition run_step (st : run_state) (n : Node V) : option run_state :=
  match op n with
  | placeholder =>
      match r_inputs st with
      | v :: rest => Some (mkRun (<[name n := v]> (r_env st)) rest (r_result st))
      | [] => None
      end
  | output =>
      match args n with
      | a :: _ => r ← resolve (r_env st) a;
                  Some (mkRun (r_env st) (r_inputs st) (Some r))
      | [] => None
      end
  | _ =>
      v ← node_value (r_env st) n;
      Some (mkRun (<[name n := v]> (r_env st)) (r_inputs st) (r_result st))
  end.

Fixpoint run_nodes (g : Graph V) (st : run_state) : option run_state :=
  match g with
  | [] => Some st
  | n :: g' => st' ← run_step st n; run_nodes g' st'
  end.

(** Calling the module of graph [g] on positional inputs: every
    placeholder takes one input and no input is left over. *)
Definition run_graph (g : Graph V) (inputs : list V) : option (Arg V V) :=
  st ← run_nodes g (mkRun ∅ inputs None);
  match r_inputs st with
  | [] => r_result st
  | _ :: _ => None
  end.
End Semantics.

(** ** The subgraph extractor (lines 113-163) *)

(** What [env] holds for a node of the joint graph: a proxy of a node of
    the new graph, a value (the operator ran on arguments none of which
    was a proxy, so it ran for real), or [InvalidNode]. *)
Inductive env_val (V : Type) :=
  | EProxy (nm : string)
  | EConst (v : V)
  | EInvalid.
Arguments EProxy {V} nm.
Arguments EConst {V} v.
Arguments EInvalid {V}.

Definition is_invalid {V} (e : env_val V) : bool :=
  match e with EInvalid => true | _ => false end.

Definition is_proxy {V} (e : env_val V) : bool :=
  match e with EProxy _ => true | _ => false end.

Definition env_lookup {V} (env : gmap string (env_val V)) (x : string)
  : result (env_val V) :=
  match env !! x with
  | Some e => Ok e
  | None => Raise KeyError
  end.

(** [pytree.tree_map(map_arg_to_proxy, a)].  An invalid argument is not
    met here: the caller has just ruled it out. *)
Fixpoint map_arg_to_proxy {V} (env : gmap string (env_val V))
    (a : Arg V string) : result (Arg V string) :=
  match a with
  | ARef x =>
      e ← env_lookup env x;
      match e with
      | EProxy y => Ok (ARef y)
      | EConst v => Ok (ALit (LConst v))
      | EInvalid => Raise TypeError
      end
  | ALit c => Ok (ALit c)
  | ASeq l => l' ← mapR (map_arg_to_proxy env) l; Ok (ASeq l')
  end.

Definition map_kwarg_to_proxy {V} (env : gmap string (env_val V))
    (kv : string * Arg V string) : result (string * Arg V string) :=
  a ← map_arg_to_proxy env kv.2; Ok (kv.1, a).

(** [env[x].node] for an element [x] of [outputs]. *)
Definition env_node {V} (env : gmap string (env_val V)) (x : Arg V string)
  : result (Arg V string) :=
  match x with
  | ARef nm =>
      e ← env_lookup env nm;
      match e with
      | EProxy y => Ok (ARef y)
      | _ => Raise AttributeError
      end
  | ALit _ => Raise KeyError
  | ASeq _ => Raise TypeError
  end.

(** [node.users]: the nodes of the graph that reference [n]. *)
Definition users {V} (g : Graph V) (n : Node V) : list (Node V) :=
  filter (fun m => name n ∈ node_refs m) g.

(** [Graph.eliminate_dead_code]: going backwards, erase every node that
    has no user left and is not impure (placeholders and the output node
    are impure). *)
Definition is_impure {V} (n : Node V) : bool :=
  is_op placeholder n || is_op output n.

Definition dce_step {V} (n : Node V) (acc : gset string * Graph V)
  : gset string * Graph V :=
  if is_impure n || bool_decide (name n ∈ acc.1)
  then (acc.1 ∪ list_to_set (node_refs n), n :: acc.2)
  else acc.

Definition eliminate_dead_code {V} (g : Graph V) : Graph V :=
  (foldr dce_step (∅, []) g).2.

Notation extract_state V :=
  (gmap string (env_val V) * Graph V)%type (only parsing).

Section Extract.
Context {V : Type}.
Variable interp : string -> list (Arg V V) -> list (string * Arg V V) -> V.

(** One iteration of the loop over [joint_graph.nodes].  Calling the
    target on proxies appends a [call_function] node with that target
    and the mapped arguments to the new graph (kept here under the name
    of its source node, where fx names it afresh from the target: the
    graphs differ in node names only); without any proxy among the
    arguments the call runs the operator itself. *)
Definition extract_step (inputs : list string) (st : extract_state V)
    (n : Node V) : result (extract_state V) :=
  if bool_decide (name n ∈ inputs) then
    Ok (<[name n := EProxy (name n)]> st.1, st.2)
  else match op n with
  | placeholder => Ok (<[name n := EInvalid]> st.1, st.2)
  | call_function =>
      vals ← mapR (env_lookup st.1) (node_refs n);
      if existsb is_invalid vals then Ok (<[name n := EInvalid]> st.1, st.2)
      else
        a ← mapR (map_arg_to_proxy st.1) (args n);
        k ← mapR (map_kwarg_to_proxy st.1) (kwargs n);
        f ← match target n with
            | TOp f => Ok f
            | TName _ => Raise TypeError
            end;
        if existsb is_proxy vals then
          Ok (<[name n := EProxy (name n)]> st.1,
              st.2 ++ [mkNode (name n) call_function (target n) a k None])
        else
          match mapM (resolve ∅) a, mapM (resolve_kw ∅) k with
          | Some a', Some k' =>
              Ok (<[name n := EConst (interp f a' k')]> st.1, st.2)
          | _, _ => Raise TypeError
          end
  | get_attr =>
      a ← mapR (map_arg_to_proxy st.1) (args n);
      k ← mapR (map_kwarg_to_proxy st.1) (kwargs n);
      Ok (<[name n := EProxy (name n)]> st.1,
          st.2 ++ [mkNode (name n) get_attr (target n) a k (tensor_meta n)])
  | _ => Ok st
  end.

Fixpoint extract_loop (inputs : list string) (g : Graph V)
    (st : extract_state V) : result (extract_state V) :=
  match g with
  | [] => Ok st
  | n :: g' => st' ← extract_step inputs st n; extract_loop inputs g' st'
  end.

Definition _extract_graph_with_inputs_outputs (joint_graph : Graph V)
    (inputs : list (Node V)) (outputs : list (Arg V string))
  : result (Graph V) :=
  let in_names := name <$> inputs in
  st ← extract_loop in_names joint_graph (∅, mk_placeholder <$> in_names);
  outs ← mapR (env_node st.1) outputs;
  Ok (eliminate_dead_code (st.2 ++ [mk_output (ASeq outs)])).

(** Lines 171-176. *)
Definition _extract_fwd_bwd_outputs (joint_module : GraphModule V)
  : list (Arg V string) * list (Arg V string) :=
  let num_fwd_outputs := num_fwd_leaves joint_module in
  let outputs :=
    flat_map (fun n => flat_map arg_leaves (args n))
             (filter (fun n => op n = output) (graph joint_module)) in
  (take num_fwd_outputs outputs, drop num_fwd_outputs outputs).

(** [saved_values.remove(saved_value)] for the first saved value of
    that name. *)
Fixpoint remove_saved (nm : string) (saved_values : list (Node V))
  : list (Node V) :=
  match saved_values with
  | [] => []
  | x :: l => if bool_decide (name x = nm) then l else x :: remove_saved nm l
  end.

Definition has_users (g : Graph V) (n : Node V) : bool :=
  match users g n with
  | [] => false
  | _ :: _ => true
  end.

(** Lines 187-192. *)
Definition filter_unused (bwd_graph : Graph V) (saved_values : list (Node V))
  : list (Node V) :=
  fold_left
    (fun saved node =>
       if is_op placeholder node && negb (has_users bwd_graph node)
       then remove_saved (name node) saved
       else saved)
    bwd_graph saved_values.

Definition as_refs (l : list (Node V)) : list (Arg V string) :=
  (fun n => ARef (name n)) <$> l.

(** Lines 178-201. *)
Definition _extract_fwd_bwd_modules (joint_module : GraphModule V)
    (saved_values : list (Node V)) : result (Graph V * Graph V) :=
  let '(fwd_outputs, bwd_outputs) := _extract_fwd_bwd_outputs joint_module in
  let primal_inputs := filter (fun n => _is_primal n = true) (graph joint_module) in
  let tangent_inputs := filter (fun n => _is_tangent n = true) (graph joint_module) in
  fwd_graph ← _extract_graph_with_inputs_outputs (graph joint_module)
                primal_inputs (fwd_outputs ++ as_refs saved_values);
  bwd_graph ← _extract_graph_with_inputs_outputs (graph joint_module)
                (saved_values ++ tangent_inputs) bwd_outputs;
  let saved_values := filter_unused bwd_graph saved_values in
  fwd_graph ← _extract_graph_with_inputs_outputs (graph joint_module)
                primal_inputs (fwd_outputs ++ as_refs saved_values);
  bwd_graph ← _extract_graph_with_inputs_outputs (graph joint_module)
                (saved_values ++ tangent_inputs) bwd_outputs;
  Ok (fwd_graph, bwd_graph).
End Extract.

(** ** The flow network of the recompute-aware partitioner (lines 236-286) *)

(** An edge capacity: a number or [math.inf]. *)
Inductive capacity :=
  | Fin (z : Z)
  | Inf.

#[global] Instance capacity_eq_dec : EqDecision capacity.
Proof. solve_decision. Defined.

(** An [nx.DiGraph] with a [capacity] on every edge; adding an edge that
    exists replaces its capacity. *)
Notation DiGraph := (gmap (string * string) capacity).

Definition add_edge (u v : string) (c : capacity) (G : DiGraph) : DiGraph :=
  <[(u, v) := c]> G.

Definition pointwise_ops : list string :=
  ["add"; "sub"; "div"; "atan2"; "mul"; "max"; "min"; "pow"; "remainder";
   "fmod"; "__and__"; "__or__"; "__xor__"; "__lshift__"; "__rshift__";
   "eq"; "ne"; "ge"; "gt"; "le"; "lt"; "abs"; "bitwise_not"; "ceil";
   "floor"; "frac"; "neg"; "relu"; "round"; "silu"; "trunc"; "log";
   "log10"; "log1p"; "log2"; "lgamma"; "exp"; "expm1"; "erf"; "erfc";
   "cos"; "acos"; "cosh"; "sin"; "asin"; "sinh"; "tan"; "atan"; "tanh";
   "atanh"; "sqrt"; "rsqrt"; "reciprocal"; "sigmoid"; "softplus";
   "threshold"; "threshold_backward"; "clamp"; "where"; "lerp"; "addcmul";
   "gelu"; "gelu_backward"].

Definition reduction_ops : list string :=
  ["softmax"; "_softmax"; "_softmax_backward_data"; "sum"; "mean";
   "_grad_sum_to_size"; "sum_to_size"; "amax"].

Definition norm_ops : list string :=
  ["instance_norm"; "_batch_norm_impl_index"; "native_batch_norm";
   "batch_norm"; "_batch_norm_impl_index_backward"; "native_layer_norm";
   "layer_norm"; "native_layer_norm_backward"].

Definition misc_ops : list string := ["to"; "type_as"].

Definition view_ops : list string :=
  ["expand"; "clone"; "transpose"; "t"; "view"; "_unsafe_view"; "permute";
   "transpose"; "t"; "_reshape_alias"; "squeeze"; "unsqueeze"; "reshape"].

Definition recomputable_ops : list string :=
  pointwise_ops ++ reduction_ops ++ norm_ops ++ misc_ops.

(** [node.target in recomputable_ops]: a string target is no operator. *)
Definition recomputable (t : Target) : bool :=
  match t with
  | TOp f => bool_decide (f ∈ recomputable_ops)
  | TName _ => false
  end.

Definition prod (x : list Z) : Z := fold_left Z.mul x 1.

(** [s[:-k]] on Python strings. *)
Definition str_drop_last (k : nat) (s : string) : string :=
  String.substring 0 (String.length s - k) s.

Definition node_in_name {V} (n : Node V) : string := name n +:+ "_in".
Definition node_out_name {V} (n : Node V) : string := name n +:+ "_out".

(** Lines 239-245: the nodes downstream of a tangent placeholder. *)
Definition closure_step {V} (g : Graph V) (tc : gset string) (n : Node V)
  : gset string :=
  let tc := if is_op placeholder n && target_contains "tangents" (target n)
            then tc ∪ {[name n]} else tc in
  if bool_decide (name n ∈ tc)
  then tc ∪ list_to_set (name <$> users g n)
  else tc.

Definition tangent_closure {V} (g : Graph V) : gset string :=
  fold_left (closure_step g) g ∅.

Definition name_to_node {V} (g : Graph V) : gmap string (Node V) :=
  fold_left (fun m n => <[name n := n]> m) g ∅.

(** The weight of the in->out edge of a node (lines 274-281). *)
Definition node_weight {V} (is_input : bool) (n : Node V) : capacity :=
  match tensor_meta n with
  | None => Inf
  | Some shape =>
      let mem_sz := prod shape in
      if is_input then Fin mem_sz else Fin (mem_sz * 2)
  end.

(** One iteration of the loop of lines 262-286. *)
Definition network_step {V} (g : Graph V) (tc : gset string) (G : DiGraph)
    (n : Node V) : DiGraph :=
  if bool_decide (name n ∈ tc) then
    add_edge (node_in_name n) "sink" Inf G
  else
    let is_input :=
      is_op placeholder n && target_contains "primals" (target n) in
    let G := if is_input then add_edge "source" (node_in_name n) Inf G else G in
    let G := if negb (recomputable (target n))
             then add_edge "source" (node_in_name n) Inf G else G in
    let weight := node_weight is_input n in
    let G := add_edge (node_in_name n) (node_out_name n) weight G in
    fold_left
      (fun G user => add_edge (node_out_name n) (node_in_name user) Inf G)
      (users g n) G.

Definition flow_network {V} (g : Graph V) : DiGraph :=
  fold_left (network_step g (tangent_closure g)) g ∅.

(** ** Cuts of the network (lines 288-298) *)

Definition cap_add (a b : capacity) : capacity :=
  match a, b with
  | Fin x, Fin y => Fin (x + y)
  | _, _ => Inf
  end.

(** The edges from [reachable] to [non_reachable], with capacities. *)
Definition cut_edges (G : DiGraph) (reachable non_reachable : gset string)
  : list (string * string * capacity) :=
  filter (fun e => e.1.1 ∈ reachable /\ e.1.2 ∈ non_reachable) (map_to_list G).

Definition cutset (G : DiGraph) (reachable non_reachable : gset string)
  : list (string * string) :=
  fst <$> cut_edges G reachable non_reachable.

(** The capacity of a cut: the sum of the capacities of its edges. *)
Definition cut_capacity (G : DiGraph) (reachable non_reachable : gset string)
  : capacity :=
  foldr cap_add (Fin 0) (snd <$> cut_edges G reachable non_reachable).

(** Lines 294-298: each cut edge names one node. *)
Definition cut_node (e : string * string) : result string :=
  if bool_decide (str_drop_last 3 e.1 = str_drop_last 4 e.2)
  then Ok (str_drop_last 3 e.1)
  else Raise AssertionError.

Fixpoint cut_nodes_loop (cs : list (string * string)) (cut_nodes : list string)
  : result (list string) :=
  match cs with
  | [] => Ok cut_nodes
  | e :: cs' => nm ← cut_node e; cut_nodes_loop cs' (set_add nm cut_nodes)
  end.

Definition lookup_node {V} (m : gmap string (Node V)) (nm : string)
  : result (Node V) :=
  match m !! nm with
  | Some n => Ok n
  | None => Raise KeyError
  end.

(** ** The recompute-aware partitioner (lines 218-305) *)
Section RecomputePartition.
Context {V : Type}.
Variable interp : string -> list (Arg V V) -> list (string * Arg V V) -> V.
Variable set_iter : list string -> list string.
(** Whether [import networkx] succeeds. *)
Variable has_networkx : bool.
(** [nx.minimum_cut]: the cut value and the two sides of a minimum
    cut, or [NetworkXUnbounded]. *)
Variable nx_minimum_cut :
  DiGraph -> string -> string -> result (Z * (gset string * gset string)).

(** The saved values chosen from the minimum cut (lines 288-302). *)
Definition min_cut_saved_values (joint_module : GraphModule V)
  : result (list (Node V)) :=
  let nx_graph := flow_network (graph joint_module) in
  cut ← nx_minimum_cut nx_graph "source" "sink";
  let '(reachable, non_reachable) := cut.2 in
  cut_nodes ← cut_nodes_loop (cutset nx_graph reachable non_reachable) [];
  mapR (lookup_node (name_to_node (graph joint_module))) (set_iter cut_nodes).

Definition partition_with_recompute_fwd_in_bwd (joint_module : GraphModule V)
  : result (Graph V * Graph V) :=
  if negb has_networkx then
    Raise (RuntimeError
      "Need networkx installed to perform smart recomputation heuristics")
  else
    saved_values ← min_cut_saved_values joint_module;
    _extract_fwd_bwd_modules interp joint_module saved_values.
End RecomputePartition.

(** ** Well-formed graphs

    The invariant of an fx graph: node names are unique, every node
    referenced by an argument appears earlier in the node list, and a
    placeholder references no node. *)
Fixpoint wf_from {V} (seen : list string) (g : Graph V) : bool :=
  match g with
  | [] => true
  | n :: g' =>
      negb (bool_decide (name n ∈ seen))
      && forallb (fun a => bool_decide (a ∈ seen)) (node_refs n)
      && (negb (is_op placeholder n) || bool_decide (node_refs n = []))
      && wf_from (seen ++ [name n]) g'
  end.

Definition wf_graph {V} (g : Graph V) : bool := wf_from [] g.

(** The decision the colouring walk takes at node [n] in state [c]. *)
Definition should_color {V} (c : coloring V) (n : Node V) : bool :=
  _is_tangent n
  || (negb (is_op output n) && existsb (is_colored c) (node_refs n)).

(** A joint graph of [f(a, b) = a * b]: one output, two gradients. *)
Definition mul_joint : Graph Z :=
  [ mkNode "primals_1" placeholder (TName "primals_1") [] [] (Some [2;3]);
    mkNode "primals_2" placeholder (TName "primals_2") [] [] (Some [2;3]);
    mkNode "tangents_1" placeholder (TName "tangents_1") [] [] (Some [2;3]);
    mkNode "mul" call_function (TOp "mul")
      [ARef "primals_1"; ARef "primals_2"] [] (Some [2;3]);
    mkNode "mul_1" call_function (TOp "mul")
      [ARef "tangents_1"; ARef "primals_2"] [] (Some [2;3]);
    mkNode "mul_2" call_function (TOp "mul")
      [ARef "tangents_1"; ARef "primals_1"] [] (Some [2;3]);
    mkNode "output" output (TName "output")
      [ASeq [ARef "mul"; ARef "mul_1"; ARef "mul_2"]] [] None ].

Definition mul_joint_module : GraphModule Z := mkModule mul_joint 1 2.

(** A joint graph of [f(a, b) = a @ b]: matrix products and transposes. *)
Definition mm_node : Node Z :=
  mkNode "mm" call_function (TOp "mm")
    [ARef "primals_1"; ARef "primals_2"] [] (Some [2;4]).

Definition mm_joint : Graph Z :=
  [ mkNode "primals_1" placeholder (TName "primals_1") [] [] (Some [2;3]);
    mkNode "primals_2" placeholder (TName "primals_2") [] [] (Some [3;4]);
    mkNode "tangents_1" placeholder (TName "tangents_1") [] [] (Some [2;4]);
    mm_node;
    mkNode "t" call_function (TOp "t") [ARef "primals_2"] [] (Some [4;3]);
    mkNode "mm_1" call_function (TOp "mm")
      [ARef "tangents_1"; ARef "t"] [] (Some [2;3]);
    mkNode "t_1" call_function (TOp "t") [ARef "primals_1"] [] (Some [3;2]);
    mkNode "mm_2" call_function (TOp "mm")
      [ARef "t_1"; ARef "tangents_1"] [] (Some [3;4]);
    mkNode "output" output (TName "output")
      [ASeq [ARef "mm"; ARef "mm_1"; ARef "mm_2"]] [] None ].

Definition mm_joint_module : GraphModule Z := mkModule mm_joint 1 2.

(** A stand-in for [nx.minimum_cut] that proposes one fixed cut and
    raises when that cut crosses an infinite edge. *)
Definition propose_cut (reachable non_reachable : gset string)
    (G : DiGraph) (s t : string)
  : result (Z * (gset string * gset string)) :=
  match cut_capacity G reachable non_reachable with
  | Fin v => Ok (v, (reachable, non_reachable))
  | Inf => Raise NetworkXUnbounded
  end.

Definition mul_reachable : gset string :=
  {[ "source"; "primals_1_in"; "primals_2_in" ]}.

Definition mul_non_reachable : gset string :=
  {[ "primals_1_out"; "primals_2_out"; "mul_in"; "mul_out"; "mul_1_in";
     "mul_2_in"; "tangents_1_in"; "output_in"; "sink" ]}.

(** ** The autograd function wrapping the compiled halves (lines 307-401) *)

(** A Python value handed around by the wrapper: a leaf value, [None] or
    a number, or a tuple/list of values.  Node values are leaves. *)
Notation PyVal V := (Arg V V).

(** Lines 323-328. *)
Definition normalize_as_list {V} (x : PyVal V) : list (PyVal V) :=
  match x with
  | ASeq l => l
  | _ => [x]
  end.


(** A compiled graph: a callable on positional arguments. *)
Definition Exec (V : Type) : Type := list (PyVal V) -> result (PyVal V).



(** [create_joint_forward_backward] (lines 307-315).  [requires_grad]
    and [torch.autograd.grad] are external. *)
Section Joint.
Context {V Out : Type}.
Variable requires_grad : V -> bool.
Variable autograd_grad : Out -> list V -> list V -> list (PyVal V).

Definition joint_forward_backward (fn : list V -> Out)
    (primals tangents : list V) : Out * list (PyVal V) :=
  let out := fn primals in
  let primals := filter (fun p => requires_grad p = true) primals in
  let backward_out :=
    match primals with
    | [] => []
    | _ :: _ => autograd_grad out primals tangents
    end in
  (out, backward_out).
End Joint.


(** Integer arithmetic as operator semantics, for the examples. *)
Definition z_interp (f : string) (a : list (PyVal Z))
    (k : list (string * PyVal Z)) : Z :=
  match f, a with
  | "mul", [ARef x; ARef y] => x * y
  | "add", [ARef x; ARef y] => x + y
  | "neg", [ARef x] => - x
  | _, _ => 0
  end.

Definition mul_node (nm : string) : Node Z :=
  match filter (fun n => name n = nm) mul_joint with
  | n :: _ => n
  | [] => mk_placeholder nm
  end.

(** ** Computations on the process state

    The wrapper reads and writes closure variables and the global
    cache, and may raise in the middle: what was written before an
    exception stays written. *)
Definition St (W A : Type) : Type := W -> result A * W.

#[global] Instance St_ret {W} : MRet (St W) := fun A a w => (Ok a, w).
#[global] Instance St_bind {W} : MBind (St W) := fun A B f m w =>
  match m w with
  | (Ok a, w') => f a w'
  | (Raise e, w') => (Raise e, w')
  end.

Definition st_raise {W A} (e : exn) : St W A := fun w => (Raise e, w).
Definition st_lift {W A} (r : result A) : St W A := fun w => (r, w).
Definition st_get {W} : St W W := fun w => (Ok w, w).
Definition st_modify {W} (f : W -> W) : St W unit := fun w => (Ok tt, f w).

(** ** [PytreeThunk] (lines 418-437)

    The tree specs are those of [torch.utils._pytree]: [is_leaf_spec]
    is [isinstance(spec, LeafSpec)].  The spec handed to [set] is a
    [TreeSpec] object, so [type(self.spec) in [tuple, list]] is false
    and the conjunction after it is not evaluated. *)
Record PytreeThunk (Spec : Type) := mkThunk {
  spec : option Spec;
  is_simple : option bool;
  is_really_simple : option bool
}.
Arguments mkThunk {Spec} spec is_simple is_really_simple.
Arguments spec {Spec} p.
Arguments is_simple {Spec} p.
Arguments is_really_simple {Spec} p.

Definition thunk_new {Spec} : PytreeThunk Spec := mkThunk None None None.

Definition truthy (b : option bool) : bool :=
  match b with
  | Some true => true
  | _ => false
  end.

Section Thunk.
Context {V Spec : Type} `{EqDecision Spec}.
Variable is_leaf_spec : Spec -> bool.
Variable tree_unflatten : list (PyVal V) -> Spec -> PyVal V.

Definition thunk_set (t : PytreeThunk Spec) (sp : Spec)
  : result (PytreeThunk Spec) :=
  if bool_decide (spec t = None \/ spec t = Some sp) then
    let type_is_tuple_or_list := false in
    let simple := if type_is_tuple_or_list then Some true else is_simple t in
    let really := if is_leaf_spec sp then Some true else is_really_simple t in
    Ok (mkThunk (Some sp) simple really)
  else Raise AssertionError.

Definition thunk_unflatten (t : PytreeThunk Spec) (x : list (PyVal V))
  : result (PyVal V) :=
  if truthy (is_really_simple t) then
    match x with
    | x0 :: _ => Ok x0
    | [] => Raise IndexError
    end
  else if truthy (is_simple t) then Ok (ASeq x)
  else match spec t with
       | Some sp => Ok (tree_unflatten x sp)
       | None => Raise ValueError
       end.
End Thunk.

(** ** The compilation cache and the dispatch wrapper (lines 331-503) *)

(** A cache key: the identity of the function, the number of flattened
    arguments, the hasher type and the signature the hasher derives from
    the arguments. *)
Definition cache_key : Type := Z * nat * string * Z.

(** Modelled from the spec: [functorch._C.CompileCache], a C++ class
    outside the sources, with the contract [at] (lookup: the artifact
    or absent), [insert], [size] and [clear] over the key (callable
    identity, argument count, hasher type, derived signature).  The
    cached artifact is the pair (compiled function, output thunk); it is
    stored as the index of the compiled unit that owns both. *)
Notation CompileCache := (gmap cache_key nat).

Section Cache.
Context {V : Type}.
(** The signature a hasher type derives from the argument values. *)
Variable hasher : string -> list (PyVal V) -> Z.

Definition cache_at (c : CompileCache) (fn_id : Z) (num_args : nat)
    (hasher_type : string) (args : list (PyVal V)) : option nat :=
  c !! (fn_id, num_args, hasher_type, hasher hasher_type args).

Definition cache_insert (c : CompileCache) (fn_id : Z) (num_args : nat)
    (hasher_type : string) (v : nat) (args : list (PyVal V)) : CompileCache :=
  <[(fn_id, num_args, hasher_type, hasher hasher_type args) := v]> c.

Definition cache_size (c : CompileCache) : nat := size c.

Definition cache_clear (c : CompileCache) : CompileCache := ∅.
End Cache.

(** The closure variables of one [create_compiled_function] call,
    together with the [out_spec] thunk made beside it. *)
Record compiled_unit (V Spec : Type) := mkUnit {
  compiled_fw : option (Exec V);
  compiled_bw : option (Exec V);
  num_outs : option nat;
  out_spec : PytreeThunk Spec
}.
Arguments mkUnit {V Spec} compiled_fw compiled_bw num_outs out_spec.
Arguments compiled_fw {V Spec} c.
Arguments compiled_bw {V Spec} c.
Arguments num_outs {V Spec} c.
Arguments out_spec {V Spec} c.

(** What a call does besides computing, in order. *)
Inductive event :=
  | EvFn | EvTrace | EvPartition | EvCompileFw | EvRunFw | EvCompileBw.

#[global] Instance event_eq_dec : EqDecision event.
Proof. solve_decision. Defined.

Record world (V Spec : Type) := mkWorld {
  compile_cache : option CompileCache;
  units : list (compiled_unit V Spec);
  log : list event
}.
Arguments mkWorld {V Spec} compile_cache units log.
Arguments compile_cache {V Spec} w.
Arguments units {V Spec} w.
Arguments log {V Spec} w.

(** The arguments of [compiled_function].  [flat_fn] is [fn] between
    the flattening of its arguments and of its result: the flat result
    and its spec. *)
Record wrapper (V Spec : Type) := mkWrapper {
  fn_id : Z;
  flat_fn : list (PyVal V) -> list (PyVal V) * Spec;
  fw_compiler : Graph V -> list (PyVal V) -> result (Exec V);
  bw_compiler : Graph V -> list (PyVal V) -> result (Exec V);
  partition_fn : GraphModule V -> result (Graph V * Graph V);
  decompose : bool;
  hasher_type : string
}.
Arguments mkWrapper {V Spec} fn_id flat_fn fw_compiler bw_compiler
  partition_fn decompose hasher_type.
Arguments fn_id {V Spec} w.
Arguments flat_fn {V Spec} w.
Arguments fw_compiler {V Spec} w.
Arguments bw_compiler {V Spec} w.
Arguments partition_fn {V Spec} w.
Arguments decompose {V Spec} w.
Arguments hasher_type {V Spec} w.

(** [l[k:]] and [l[0:k]], where a bound that is [None] does not cut. *)
Definition slice_from {A} (k : option nat) (l : list A) : list A :=
  match k with
  | Some n => drop n l
  | None => l
  end.

Definition slice_to {A} (k : option nat) (l : list A) : list A :=
  match k with
  | Some n => take n l
  | None => l
  end.

Section Dispatch.
Context {V Spec : Type} `{EqDecision Spec}.
Variable hasher : string -> list (PyVal V) -> Z.
Variable is_leaf_spec : Spec -> bool.
Variable tree_unflatten : list (PyVal V) -> Spec -> PyVal V.
(** [make_fx(joint_forward_backward)(flat_args, out)], under
    [pythonkey_decompose] when the flag is set: the tracer is external. *)
Variable make_fx :
  bool -> (list (PyVal V) -> list (PyVal V) * Spec) ->
  list (PyVal V) -> list (PyVal V) -> GraphModule V.

Definition emit (e : event) : St (world V Spec) unit :=
  st_modify (fun w => mkWorld (compile_cache w) (units w) (log w ++ [e])).

Definition unit_new : compiled_unit V Spec := mkUnit None None None thunk_new.

Definition get_unit (uid : nat) : St (world V Spec) (compiled_unit V Spec) :=
  fun w => (Ok (default unit_new (units w !! uid)), w).

Definition set_unit (uid : nat)
    (f : compiled_unit V Spec -> compiled_unit V Spec)
  : St (world V Spec) unit :=
  st_modify (fun w => mkWorld (compile_cache w) (alter f uid (units w)) (log w)).

(** The first call of a compiled unit (lines 358-385): run [flat_fn]
    (which sets [out_spec]), trace, partition, compile the forward, run
    it once, compile the backward. *)
Definition compile_unit (cf : wrapper V Spec) (uid : nat)
    (flat_args : list (PyVal V)) : St (world V Spec) (list (PyVal V)) :=
  _ ← emit EvFn;
  let '(out, sp) := flat_fn cf flat_args in
  u ← get_unit uid;
  t ← st_lift (thunk_set is_leaf_spec (out_spec u) sp);
  _ ← set_unit uid (fun u =>
        mkUnit (compiled_fw u) (compiled_bw u) (Some (length out)) t);
  _ ← emit EvTrace;
  let fx_g := make_fx (decompose cf) (flat_fn cf) flat_args out in
  _ ← emit EvPartition;
  modules ← st_lift (partition_fn cf fx_g);
  _ ← emit EvCompileFw;
  cfw ← st_lift (fw_compiler cf modules.1 flat_args);
  _ ← set_unit uid (fun u =>
        mkUnit (Some cfw) (compiled_bw u) (num_outs u) (out_spec u));
  _ ← emit EvRunFw;
  r ← st_lift (cfw flat_args);
  let fw_outs := normalize_as_list r in
  let bw_args := drop (length out) fw_outs ++ take (length out) fw_outs in
  _ ← emit EvCompileBw;
  cbw ← st_lift (bw_compiler cf modules.2 bw_args);
  _ ← set_unit uid (fun u =>
        mkUnit (compiled_fw u) (Some cbw) (num_outs u) (out_spec u));
  mret fw_outs.

(** [CompiledFunction.forward] (lines 354-389): the outputs returned to
    the caller and the tensors saved for backward. *)
Definition forward (cf : wrapper V Spec) (uid : nat)
    (flat_args : list (PyVal V))
  : St (world V Spec) (list (PyVal V) * list (PyVal V)) :=
  u ← get_unit uid;
  fw_outs ← match compiled_fw u with
            | None => compile_unit cf uid flat_args
            | Some cfw =>
                _ ← emit EvRunFw;
                r ← st_lift (cfw flat_args);
                mret (normalize_as_list r)
            end;
  u ← get_unit uid;
  mret (slice_to (num_outs u) fw_outs, slice_from (num_outs u) fw_outs).

(** [compiled_function] (lines 440-448, 489): make the global cache if
    it is absent; the callable returned is [returned_function] below
    with the same arguments. *)
Definition compiled_function (w : world V Spec) : world V Spec :=
  match compile_cache w with
  | None => mkWorld (Some ∅) (units w) (log w)
  | Some _ => w
  end.

(** [returned_function] (lines 450-487), on the flattened arguments. *)
Definition returned_function (cf : wrapper V Spec)
    (flattened_args : list (PyVal V)) : St (world V Spec) (PyVal V) :=
  let num_args := length flattened_args in
  w ← st_get;
  cache ← match compile_cache w with
          | Some c => mret c
          | None => st_raise AttributeError
          end;
  uid ← match cache_at hasher cache (fn_id cf) num_args (hasher_type cf)
                flattened_args with
        | Some uid => mret uid
        | None =>
            let uid := length (units w) in
            _ ← st_modify (fun w =>
                  mkWorld
                    (Some (cache_insert hasher cache (fn_id cf) num_args
                             (hasher_type cf) uid flattened_args))
                    (units w ++ [unit_new]) (log w));
            mret uid
        end;
  res ← forward cf uid flattened_args;
  u ← get_unit uid;
  st_lift (thunk_unflatten tree_unflatten (out_spec u) res.1).

(** Lines 492-496. *)
Definition num_of_recompilations (w : world V Spec) : nat :=
  match compile_cache w with
  | None => 0
  | Some c => cache_size c
  end.

(** Lines 499-503. *)
Definition clear_compile_cache (w : world V Spec) : world V Spec :=
  match compile_cache w with
  | Some c => mkWorld None (units w) (log w)
  | None => w
  end.
End Dispatch.

(** A wrapper for the examples: the function traced is [a * b], the
    tracer returns [mul_joint], and the forward compiler fails. *)
Definition ex_hasher (ht : string) (args : list (PyVal Z)) : Z := 0.

Definition ex_make_fx (decomp : bool)
    (f : list (PyVal Z) -> list (PyVal Z) * bool)
    (flat_args out : list (PyVal Z)) : GraphModule Z := mul_joint_module.

Definition ex_flat_fn (xs : list (PyVal Z)) : list (PyVal Z) * bool :=
  match xs with
  | [ARef a; ARef b] => ([ARef (a * b)], false)
  | _ => ([], false)
  end.

Definition ex_unflatten (xs : list (PyVal Z)) (sp : bool) : PyVal Z := ASeq xs.

Definition failing_fw_wrapper : wrapper Z bool :=
  mkWrapper 1 ex_flat_fn
    (fun _ _ => Raise (CompilerError "forward"))
    (fun _ _ => Ok (fun _ => Ok (ASeq [])))
    (default_partition id) false "StaticShapeHasher".

Definition empty_world : world Z bool := mkWorld None [] [].


Definition no_networkx_wrapper : wrapper Z bool :=
  mkWrapper 1 ex_flat_fn
    (fun _ _ => Ok (fun _ => Ok (ASeq [])))
    (fun _ _ => Ok (fun _ => Ok (ASeq [])))
    (partition_with_recompute_fwd_in_bwd z_interp id false
       (propose_cut mul_reachable mul_non_reachable))
    false "StaticShapeHasher".

Definition ex_call (cf : wrapper Z bool) (w : world Z bool)
  : result (PyVal Z) * world Z bool :=
  returned_function ex_hasher (fun b : bool => b) ex_unflatten ex_make_fx cf
    [ARef 2; ARef 3] w.

(** ** Running the two halves as the wrapper does (lines 375-396) *)

(** A value saved for backward is a node value. *)
Definition as_value {V} (x : PyVal V) : option V :=
  match x with
  | ARef v => Some v
  | _ => None
  end.

Section Threaded.
Context {V : Type}.
Variable interp : string -> list (Arg V V) -> list (string * Arg V V) -> V.
Variable attr : string -> V.

(** The forward graph runs on the primals; its outputs after the first
    [num_outs] are saved and handed, followed by the tangents, to the
    backward graph.  The result is what the forward call returns and
    the gradients the backward graph computes. *)
Definition threaded_run (fw_graph bw_graph : Graph V) (num_outs : nat)
    (primals tangents : list V) : option (list (PyVal V) * list (PyVal V)) :=
  r ← run_graph interp attr fw_graph primals;
  let fw_outs := normalize_as_list r in
  saved ← mapM as_value (drop num_outs fw_outs);
  rb ← run_graph interp attr bw_graph (saved ++ tangents);
  Some (take num_outs fw_outs, normalize_as_list rb).
End Threaded.

(** The inputs that a run of [g] on [ins] hands to the placeholders
    satisfying [p], in order. *)
Fixpoint select_inputs {V} (p : Node V -> bool) (g : Graph V) (ins : list V)
  : list V :=
  match g with
  | [] => []
  | n :: g' =>
      if is_op placeholder n then
        match ins with
        | v :: ins' => (if p n then [v] else []) ++ select_inputs p g' ins'
        | [] => []
        end
      else select_inputs p g' ins
  end.

(** The joint graphs that tracing produces end in their only output
    node, whose argument is a flat list of nodes and literals. *)
Definition is_seq {V A} (a : Arg V A) : bool :=
  match a with
  | ASeq _ => true
  | _ => false
  end.

Definition flat_output {V} (n : Node V) : bool :=
  match args n, kwargs n with
  | [ASeq outs], [] => forallb (fun a => negb (is_seq a)) outs
  | _, _ => false
  end.

Fixpoint single_flat_output {V} (g : Graph V) : bool :=
  match g with
  | [] => false
  | [n] => is_op output n && flat_output n
  | n :: g' => negb (is_op output n) && single_flat_output g'
  end.

(** Structural induction on argument trees. *)
Section ArgInd.
Context {V A : Type} (P : Arg V A -> Prop).
Hypothesis Href : forall a, P (ARef a).
Hypothesis Hlit : forall c, P (ALit c).
Hypothesis Hseq : forall l, Forall P l -> P (ASeq l).

Fixpoint Arg_ind' (a : Arg V A) : P a :=
  match a with
  | ARef x => Href x
  | ALit c => Hlit c
  | ASeq l =>
      Hseq l
        ((fix go (l : list (Arg V A)) : Forall P l :=
            match l with
            | [] => @ListDef.Forall_nil _ P
            | x :: l' => @ListDef.Forall_cons _ P x l' (Arg_ind' x) (go l')
            end) l)
  end.
End ArgInd.

(** The output list of a joint graph: the argument of its last node. *)
Definition joint_outputs {V} (g : Graph V) : list (Arg V string) :=
  match last g with
  | Some n =>
      match args n with
      | [ASeq outs] => outs
      | _ => []
      end
  | None => []
  end.

(** A joint module as tracing produces it: a well-formed graph ending in
    its only output node, and leaf counts that add up to the length of
    the output list. *)
Definition wf_joint {V} (M : GraphModule V) : bool :=
  wf_graph (graph M)
  && single_flat_output (graph M)
  && bool_decide ((num_fwd_leaves M + num_bwd_leaves M)%nat
                  = length (joint_outputs (graph M))).

(** No primal placeholder is itself one of the backward outputs. *)
Definition grads_not_primals {V} (M : GraphModule V) : bool :=
  forallb
    (fun n => negb (_is_primal n
                    && node_in n (drop (num_fwd_leaves M)
                                    (joint_outputs (graph M)))))
    (graph M).

(** A joint graph whose gradient is the primal input itself, as the
    backward of a custom autograd function may return it. *)
Definition primal_grad_joint : Graph Z :=
  [ mkNode "primals_1" placeholder (TName "primals_1") [] [] (Some [2;3]);
    mkNode "tangents_1" placeholder (TName "tangents_1") [] [] (Some [2;3]);
    mkNode "output" output (TName "output")
      [ASeq [ARef "primals_1"; ARef "primals_1"]] [] None ].

(** A graph cut short before its output node. *)
Definition no_output_graph : Graph Z :=
  [ mkNode "primals_1" placeholder (TName "primals_1") [] [] (Some [2;3]);
    mkNode "tangents_1" placeholder (TName "tangents_1") [] [] (Some [2;3]) ].

(* ================================================================== *)
(** * Properties *)
(* ================================================================== *)

(** Case analysis on the first computation of a sequence that returned. *)
Ltac bind_case x H :=
  match goal with
  | |- (?m ≫= _) = _ -> _ => destruct m as [x|] eqn:H; simpl; [|done]
  end.

(** ** The colouring walk *)

Section Coloring.
Context {V : Type}.
Implicit Types (g pre post : Graph V) (n m : Node V) (c : coloring V).


Lemma wf_from_snoc seen g m :
  wf_from seen (g ++ [m]) = true ->
  wf_from seen g = true
  /\ name m ∉ seen ++ (name <$> g)
  /\ (forall a, a ∈ node_refs m -> a ∈ seen ++ (name <$> g))
  /\ (op m = placeholder -> node_refs m = []).
Proof.
  revert seen. induction g as [|n g IH]; intros seen; simpl.
  - rewrite !andb_true_iff, negb_true_iff, bool_decide_eq_false.
    rewrite app_nil_r. intros [[[Hn Hr] Hp] _]. repeat split; auto.
    + intros a Ha. rewrite forallb_forall in Hr.
      apply list_elem_of_In in Ha. apply Hr in Ha.
      by apply bool_decide_eq_true in Ha.
    + intros Hop. apply orb_true_iff in Hp as [Hp|Hp].
      * unfold is_op in Hp. rewrite negb_true_iff, bool_decide_eq_false in Hp.
        done.
      * by apply bool_decide_eq_true in Hp.
  - rewrite !andb_true_iff. intros [[[Hn Hr] Hp] Hg].
    apply IH in Hg as (Hg & Hm & Hrefs & Hph).
    rewrite <- !app_assoc in *. simpl in *. auto.
Qed.

Lemma wf_from_refs seen pre n post a :
  wf_from seen (pre ++ n :: post) = true ->
  a ∈ node_refs n -> a ∈ seen ++ (name <$> pre).
Proof.
  revert seen. induction pre as [|m pre IH]; intros seen; simpl.
  - rewrite !andb_true_iff. intros [[[_ Hr] _] _] Ha. rewrite app_nil_r.
    rewrite forallb_forall in Hr. apply list_elem_of_In in Ha.
    apply Hr in Ha. by apply bool_decide_eq_true in Ha.
  - rewrite !andb_true_iff. intros [_ Hg] Ha.
    specialize (IH _ Hg Ha). by rewrite <- app_assoc in IH.
Qed.

Lemma wf_from_NoDup seen g :
  wf_from seen g = true -> forall n, n ∈ g -> name n ∉ seen.
Proof.
  revert seen. induction g as [|m g IH]; intros seen; simpl.
  - intros _ n Hn. by apply elem_of_nil in Hn.
  - rewrite !andb_true_iff, negb_true_iff, bool_decide_eq_false.
    intros [[[Hm _] _] Hg] n Hn. apply elem_of_cons in Hn as [->|Hn]; [done|].
    specialize (IH _ Hg n Hn). set_solver.
Qed.

Lemma wf_graph_NoDup g : wf_graph g = true -> NoDup (name <$> g).
Proof.
  unfold wf_graph. generalize (@nil string).
  induction g as [|m g IH]; intros seen; simpl; [constructor|].
  rewrite !andb_true_iff. intros [_ Hg]. constructor; [|by eapply IH].
  intros Hin. apply list_elem_of_fmap in Hin as (n & Hn & Hin).
  eapply wf_from_NoDup in Hg; [|done]. set_solver.
Qed.

Lemma color_step_bw c n x :
  x ∈ bw_nodes (color_step c n) <->
  x ∈ bw_nodes c \/ (x = name n /\ should_color c n = true).
Proof.
  unfold color_step, should_color.
  destruct (_is_tangent n); simpl; [set_solver|].
  destruct (negb (is_op output n)); simpl; [|set_solver].
  destruct (existsb _ _); simpl; set_solver.
Qed.

Lemma color_walk_snoc g n :
  color_walk (g ++ [n]) = color_step (color_walk g) n.
Proof. unfold color_walk. by rewrite fold_left_app. Qed.

Lemma color_walk_bw_names g x :
  x ∈ bw_nodes (color_walk g) -> x ∈ name <$> g.
Proof.
  induction g as [|n g IH] using rev_ind; [set_solver|].
  rewrite color_walk_snoc, color_step_bw, fmap_app. set_solver.
Qed.

Lemma fold_color_bw_other post c x :
  x ∉ name <$> post ->
  x ∈ bw_nodes (fold_left color_step post c) <-> x ∈ bw_nodes c.
Proof.
  revert c. induction post as [|n post IH]; intros c Hx; simpl; [done|].
  rewrite IH, color_step_bw by set_solver. set_solver.
Qed.

Lemma fold_add_saved bw l s x :
  x ∈ fold_left (add_saved bw) l s <-> x ∈ s \/ (x ∈ l /\ x ∉ bw).
Proof.
  revert s. induction l as [|a l IH]; intros s; simpl; [set_solver|].
  rewrite IH. unfold add_saved, set_add.
  repeat case_bool_decide; set_solver.
Qed.

Lemma color_step_saved c n x :
  x ∈ saved_nodes (color_step c n) <->
  x ∈ saved_nodes c
  \/ (_is_tangent n = false /\ should_color c n = true
      /\ x ∈ node_refs n /\ x ∉ bw_nodes c /\ x ≠ name n).
Proof.
  unfold color_step, should_color.
  destruct (_is_tangent n); simpl; [naive_solver|].
  destruct (negb (is_op output n)); simpl; [|naive_solver].
  destruct (existsb _ _); simpl; [|naive_solver].
  rewrite fold_add_saved. set_solver.
Qed.

Lemma should_color_spec c n :
  should_color c n = true <->
  _is_tangent n = true
  \/ (op n ≠ output
      /\ exists a, a ∈ node_refs n /\ (a ∈ bw_nodes c \/ a ∈ saved_nodes c)).
Proof.
  unfold should_color, is_colored, is_op.
  rewrite orb_true_iff, andb_true_iff, negb_true_iff, bool_decide_eq_false.
  rewrite existsb_exists. split; (intros [?|[? (a & Ha & Hc)]]; [by left|right]).
  - split; [done|]. exists a. rewrite list_elem_of_In. split; [done|].
    apply orb_true_iff in Hc as [?%bool_decide_eq_true|?%bool_decide_eq_true]; auto.
  - split; [done|]. exists a. rewrite <- list_elem_of_In. split; [done|].
    apply orb_true_iff. rewrite !bool_decide_eq_true. done.
Qed.

Lemma color_walk_bw_at pre n post :
  wf_graph (pre ++ n :: post) = true ->
  name n ∈ bw_nodes (color_walk (pre ++ n :: post)) <->
  should_color (color_walk pre) n = true.
Proof.
  intros Hwf. apply wf_graph_NoDup in Hwf.
  rewrite fmap_app, fmap_cons in Hwf.
  apply NoDup_app in Hwf as (_ & Hpre & Hpost).
  apply NoDup_cons in Hpost as [Hpost _].
  unfold color_walk. rewrite fold_left_app. simpl.
  rewrite fold_color_bw_other by done.
  rewrite color_step_bw. split; [|auto].
  intros [Hin|[_ ?]]; [|done].
  apply color_walk_bw_names in Hin. set_solver.
Qed.

Lemma color_walk_saved g :
  wf_graph g = true ->
  forall a,
    a ∈ saved_nodes (color_walk g) <->
    a ∉ bw_nodes (color_walk g)
    /\ exists m, m ∈ g /\ name m ∈ bw_nodes (color_walk g) /\ a ∈ node_refs m.
Proof.
  unfold wf_graph.
  induction g as [|m g IH] using rev_ind; intros Hwf a.
  - unfold color_walk; simpl. set_solver.
  - apply wf_from_snoc in Hwf as (Hg & Hfresh & Hrefs & Hph).
    simpl in Hfresh, Hrefs. specialize (IH Hg).
    assert (Hm : name m ∉ bw_nodes (color_walk g)).
    { intros ?%color_walk_bw_names. done. }
    rewrite color_walk_snoc, color_step_saved. split.
    + intros [Hs|(Ht & Hc & Ha & Hbw & Hne)].
      * apply IH in Hs as (Hbw & m' & Hm' & Hbm' & Ha). split.
        -- rewrite color_step_bw. intros [?|[-> _]]; [done|].
           apply Hfresh.
           apply list_elem_of_split in Hm' as (pre & post & ->).
           pose proof (wf_from_refs [] pre m' post _ Hg Ha) as Hin.
           simpl in Hin. rewrite fmap_app. set_solver.
        -- exists m'. rewrite color_step_bw. set_solver.
      * split; [rewrite color_step_bw; naive_solver|].
        exists m. rewrite color_step_bw. set_solver.
    + intros (Hbw & m' & Hm' & Hbm' & Ha).
      rewrite color_step_bw in Hbw, Hbm'.
      apply elem_of_app in Hm' as [Hm'|Hm'%list_elem_of_singleton].
      * left. apply IH. split; [tauto|]. exists m'. repeat split; try done.
        destruct Hbm' as [?|[Heq _]]; [done|].
        exfalso. apply Hfresh. rewrite <- Heq. set_solver.
      * subst m'. right. destruct Hbm' as [?|[_ Hc]]; [done|].
        destruct (_is_tangent m) eqn:Ht.
        { unfold _is_tangent, is_op in Ht. apply andb_true_iff in Ht as [Hop _].
          apply bool_decide_eq_true in Hop. rewrite (Hph Hop) in Ha.
          by apply elem_of_nil in Ha. }
        repeat split; try done; [tauto|].
        intros ->. apply Hfresh. by apply Hrefs.
Qed.

(** C3, as amended.  In the colouring walk of [default_partition] over a
    well-formed joint graph, a node that is not the output node is
    placed in the backward set exactly when it is a tangent placeholder
    or one of its arguments (positional or keyword) is, at that point of
    the walk, in the backward set or the saved set; the output node is
    never placed in the backward set.  At the end of the walk a node is
    in the saved set exactly when it is not in the backward set and some
    backward-set node references it as an argument. *)
Theorem default_partition_coloring (pre : Graph V) (n : Node V) (post : Graph V) :
  wf_graph (pre ++ n :: post) = true ->
  let c0 := color_walk pre in
  let c := color_walk (pre ++ n :: post) in
  (op n ≠ output ->
     name n ∈ bw_nodes c <->
     _is_tangent n = true
     \/ exists a, a ∈ node_refs n /\ (a ∈ bw_nodes c0 \/ a ∈ saved_nodes c0))
  /\ (op n = output -> name n ∉ bw_nodes c)
  /\ (forall a,
        a ∈ saved_nodes c <->
        a ∉ bw_nodes c
        /\ exists m, m ∈ pre ++ n :: post
                     /\ name m ∈ bw_nodes c /\ a ∈ node_refs m).
Proof.
  intros Hwf c0 c. split; [|split].
  - intros Hop. unfold c. rewrite color_walk_bw_at, should_color_spec by done.
    naive_solver.
  - intros Hop. unfold c. rewrite color_walk_bw_at, should_color_spec by done.
    unfold _is_tangent, is_op. rewrite andb_true_iff, bool_decide_eq_true.
    intros [[Hp _]|[? _]]; congruence.
  - by apply color_walk_saved.
Qed.

End Coloring.

Lemma default_partition_coloring_witness :
  let c0 := color_walk (take 4 mul_joint) in
  let c := color_walk mul_joint in
  (name (@mkNode Z "mul_1" call_function (TOp "mul")
           [ARef "tangents_1"; ARef "primals_2"] [] (Some [2;3])) ∈ bw_nodes c)
  /\ "primals_2" ∈ saved_nodes c.
Proof.
  pose proof (default_partition_coloring (take 4 mul_joint)
    (@mkNode Z "mul_1" call_function (TOp "mul")
       [ARef "tangents_1"; ARef "primals_2"] [] (Some [2;3]))
    (drop 5 mul_joint) eq_refl) as (H1 & _ & H3).
  split.
  - apply H1; [discriminate|]. right. exists "tangents_1". split.
    + clear. apply (bool_decide_unpack _). vm_compute. exact I.
    + left. vm_compute. reflexivity.
  - apply H3. split.
    + vm_compute. intros H. discriminate H.
    + eexists. split; [|split].
      * apply list_elem_of_lookup. exists 4%nat. reflexivity.
      * vm_compute. reflexivity.
      * clear. apply (bool_decide_unpack _). vm_compute. exact I.
Defined.

(** The claim C3 as stated fails at the output node: its argument
    [mul_1] is in the backward set when the walk reaches it, yet the
    output node is not placed in the backward set. *)
Lemma default_partition_coloring_output_node :
  let n := @mkNode Z "output" output (TName "output")
             [ASeq [ARef "mul"; ARef "mul_1"; ARef "mul_2"]] [] None in
  mul_joint = take 6 mul_joint ++ [n]
  /\ wf_graph mul_joint = true
  /\ ~ (name n ∈ bw_nodes (color_walk mul_joint) <->
        _is_tangent n = true
        \/ exists a, a ∈ node_refs n
             /\ (a ∈ bw_nodes (color_walk (take 6 mul_joint))
                 \/ a ∈ saved_nodes (color_walk (take 6 mul_joint)))).
Proof.
  split; [reflexivity|]. split; [reflexivity|].
  intros [_ H].
  assert (Hin : name (@mkNode Z "output" output (TName "output")
             [ASeq [ARef "mul"; ARef "mul_1"; ARef "mul_2"]] [] None)
           ∈ bw_nodes (color_walk mul_joint)).
  { apply H. right. exists "mul_1".
    split; [clear; apply (bool_decide_unpack _); vm_compute; exact I|].
    left. vm_compute. reflexivity. }
  vm_compute in Hin. discriminate Hin.
Qed.

(** ** The graphs built by the default partitioner *)

Section DefaultGraphs.
Context {V : Type}.
Implicit Types (g : Graph V) (n : Node V) (st : copy_state V).


(** [value_remap] sends a node of the joint graph to its copy, which
    carries the same name. *)
Definition remap_id (vr : gmap string string) : Prop :=
  forall k v, vr !! k = Some v -> v = k.

Lemma remap_id_insert vr k : remap_id vr -> remap_id (<[k := k]> vr).
Proof.
  intros H k' v. rewrite lookup_insert. case_decide; [|by apply H].
  by intros [= <-].
Qed.

Lemma node_copy_name vr n n' : node_copy vr n = Ok n' -> name n' = name n.
Proof.
  unfold node_copy. destruct (mapR _ (args n)); simpl; [|done].
  destruct (mapR _ (kwargs n)); simpl; [|done]. by intros [= <-].
Qed.

Lemma copy_node_inv st n st' :
  copy_node st n = Ok st' ->
  st'.1 = <[name n := name n]> st.1 /\ exists n', st'.2 = st.2 ++ [n'].
Proof.
  unfold copy_node. destruct (node_copy st.1 n) as [n'|] eqn:Hc; simpl; [|done].
  intros [= <-]. simpl. rewrite (node_copy_name _ _ _ Hc). eauto.
Qed.

Lemma copy_loop_inv keep g st st' :
  copy_loop keep g st = Ok st' ->
  (remap_id st.1 -> remap_id st'.1) /\ exists body, st'.2 = st.2 ++ body.
Proof.
  revert st. induction g as [|n g IH]; intros st; simpl.
  - intros [= <-]. split; [done|]. exists []. by rewrite app_nil_r.
  - destruct (keep n); [|apply IH].
    destruct (copy_node st n) as [st1|] eqn:Hc; simpl; [|done].
    intros H. apply IH in H as [Hid [body Hb]].
    apply copy_node_inv in Hc as [H1 [n' H2]]. split.
    + intros Hst. apply Hid. rewrite H1. by apply remap_id_insert.
    + exists (n' :: body). rewrite Hb, H2, <- app_assoc. done.
Qed.

Lemma fold_add_saved_placeholder l st :
  (remap_id st.1 -> remap_id (fold_left add_saved_placeholder l st).1)
  /\ (fold_left add_saved_placeholder l st).2 = st.2 ++ (mk_placeholder <$> l).
Proof.
  revert st. induction l as [|s l IH]; intros st; simpl.
  - by rewrite app_nil_r.
  - destruct (IH (add_saved_placeholder st s)) as [H1 H2]. split.
    + intros Hst. apply H1. simpl. by apply remap_id_insert.
    + rewrite H2. simpl. by rewrite <- app_assoc.
Qed.

Lemma mapR_remap_key_id vr (l l' : list (Arg V string)) :
  remap_id vr -> mapR (remap_key vr) l = Ok l' -> l' = l.
Proof.
  intros Hid. revert l'. induction l as [|a l IH]; intros l'; simpl.
  - by intros [= <-].
  - destruct a as [x|c|xs]; simpl; try done.
    destruct (vr !! x) as [y|] eqn:Hx; simpl; [|done].
    apply Hid in Hx as ->.
    destruct (mapR (remap_key vr) l) as [ys|]; simpl; [|done].
    intros [= <-]. by rewrite (IH ys).
Qed.

Lemma set_add_NoDup x s : NoDup s -> NoDup (set_add x s).
Proof.
  unfold set_add. case_bool_decide; [done|]. intros Hs.
  apply NoDup_app. repeat split; [done| |apply NoDup_singleton].
  intros y Hy ->%list_elem_of_singleton. done.
Qed.

Lemma color_walk_saved_NoDup g : NoDup (saved_nodes (color_walk g)).
Proof.
  induction g as [|n g IH] using rev_ind; [constructor|].
  rewrite color_walk_snoc. unfold color_step.
  destruct (_is_tangent n); simpl; [done|].
  destruct (negb (is_op output n)); simpl; [|done].
  destruct (existsb _ _); simpl; [|done].
  generalize (bw_nodes (color_walk g) ∪ {[name n]}).
  revert IH. generalize (saved_nodes (color_walk g)).
  induction (node_refs n) as [|a l IHl]; intros s Hs bw; simpl; [done|].
  apply IHl. unfold add_saved. case_bool_decide; [done|].
  by apply set_add_NoDup.
Qed.

(** C4, as amended.  Whenever [default_partition] returns, the output
    list of the forward graph is the first [num_fwd_outputs] joint
    outputs followed by the saved values, each saved value exactly once,
    listed in the order in which the saved set iterates (the same order
    in which the backward graph declares its leading placeholders); the
    saved values are those discovered by the colouring walk. *)
Theorem default_partition_forward_outputs
    (set_iter : list string -> list string) (M : GraphModule V)
    (fw_graph bw_graph : Graph V) :
  (forall l, set_iter l ≡ₚ l) ->
  default_partition set_iter M = Ok (fw_graph, bw_graph) ->
  let c := color_walk (graph M) in
  let saved := set_iter (saved_nodes c) in
  exists out outs fw_body bw_body,
    output_node c = Some out
    /\ out_args0 out = Ok outs
    /\ fw_graph =
         fw_body ++
         [mk_output (unwrap_single
            (take (num_fwd_leaves M) outs ++ (ARef <$> saved)))]
    /\ bw_graph = (mk_placeholder <$> saved) ++ bw_body
    /\ NoDup saved
    /\ saved ≡ₚ saved_nodes c.
Proof.
  intros Hperm. unfold default_partition.
  destruct (output_node (color_walk (graph M))) as [out|]; simpl; [|done].
  destruct (out_args0 out) as [outs|] eqn:Houts; simpl; [|done].
  bind_case stb Hb.
  case_bool_decide; simpl; [|done].
  bind_case bouts Hbo.
  bind_case stf Hf.
  bind_case fo Hfo.
  bind_case fs Hfs.
  intros [= <- <-].
  apply copy_loop_inv in Hf as [Hidf [fbody Hfb]]. simpl in Hfb.
  assert (Hid : remap_id stf.1) by (apply Hidf; intros k v; simpl; by rewrite lookup_empty).
  apply mapR_remap_key_id in Hfo, Hfs; try done. subst fo fs.
  apply copy_loop_inv in Hb as [_ [bbody Hbb]].
  destruct (fold_add_saved_placeholder
              (set_iter (saved_nodes (color_walk (graph M)))) (∅, [])) as [_ H2].
  rewrite H2 in Hbb. simpl in Hbb.
  exists out, outs, fbody, (bbody ++ [mk_output (unwrap_single bouts)]).
  split; [done|]. split; [done|]. split; [f_equal; exact Hfb|].
  split; [rewrite app_assoc; f_equal; exact Hbb|]. split; [|done].
  rewrite Hperm. apply color_walk_saved_NoDup.
Qed.

End DefaultGraphs.

Lemma default_partition_forward_outputs_witness :
  exists fw_graph bw_graph out outs fw_body bw_body,
    default_partition id mul_joint_module = Ok (fw_graph, bw_graph)
    /\ output_node (color_walk mul_joint) = Some out
    /\ out_args0 out = Ok outs
    /\ fw_graph =
         fw_body ++
         [mk_output (unwrap_single
            (take 1 outs ++ (ARef <$> saved_nodes (color_walk mul_joint))))]
    /\ bw_graph =
         (mk_placeholder <$> saved_nodes (color_walk mul_joint)) ++ bw_body.
Proof.
  destruct (default_partition id mul_joint_module) as [[fw bw]|] eqn:Hp;
    [|vm_compute in Hp; discriminate Hp].
  destruct (default_partition_forward_outputs id mul_joint_module fw bw
              (fun l => reflexivity l) Hp)
    as (out & outs & fb & bb & H1 & H2 & H3 & H4 & _).
  exists fw, bw, out, outs, fb, bb. auto.
Defined.

(** The claim C4 as stated fails for the order of the saved values: the
    walk over [mul_joint] discovers [primals_2] before [primals_1]; when
    the set iterates in another order (here the reverse one), the forward
    outputs list the saved values in that order. *)
Lemma default_partition_saved_order :
  (forall l : list string, rev l ≡ₚ l)
  /\ saved_nodes (color_walk mul_joint) = ["primals_2"; "primals_1"]
  /\ exists fw_graph bw_graph,
       default_partition (@rev string) mul_joint_module = Ok (fw_graph, bw_graph)
       /\ last fw_graph =
            Some (mk_output
                    (ASeq [ARef "mul"; ARef "primals_1"; ARef "primals_2"]))
       /\ last fw_graph ≠
            Some (mk_output
                    (unwrap_single
                       ([ARef "mul"] ++
                        (ARef <$> saved_nodes (color_walk mul_joint))))).
Proof.
  split; [intros l; symmetry; apply Permutation_rev|].
  split; [vm_compute; reflexivity|].
  destruct (default_partition (@rev string) mul_joint_module)
    as [[fw bw]|] eqn:Hp; [|vm_compute in Hp; discriminate Hp].
  exists fw, bw. split; [reflexivity|].
  vm_compute in Hp. injection Hp as <- <-.
  split; [reflexivity|]. vm_compute. intros H. discriminate H.
Qed.

(** ** Names of the vertices of the flow network *)

Lemma list_ascii_app (a b : string) :
  String.list_ascii_of_string (a +:+ b) =
  String.list_ascii_of_string a ++ String.list_ascii_of_string b.
Proof. induction a as [|c a IH]; simpl; [done|]. by rewrite IH. Qed.

Lemma str_app_inj_l (s a b : string) : a +:+ s = b +:+ s -> a = b.
Proof.
  intros H. apply (f_equal String.list_ascii_of_string) in H.
  rewrite !list_ascii_app in H. apply app_inv_tail in H.
  apply (f_equal String.string_of_list_ascii) in H.
  by rewrite !String.string_of_list_ascii_of_string in H.
Qed.

(** Two strings whose last characters differ are different. *)
Lemma str_last_ne (a b : string) :
  hd_error (rev (String.list_ascii_of_string a)) ≠ hd_error (rev (String.list_ascii_of_string b)) ->
  a ≠ b.
Proof. intros H ->. done. Qed.

Lemma rev_ascii_app (a s : string) :
  rev (String.list_ascii_of_string (a +:+ s)) =
  rev (String.list_ascii_of_string s) ++ rev (String.list_ascii_of_string a).
Proof. by rewrite list_ascii_app, rev_app_distr. Qed.

Ltac str_ne :=
  apply str_last_ne; rewrite ?rev_ascii_app; simpl; discriminate.

Lemma in_ne_out (a b : string) : a +:+ "_in" ≠ b +:+ "_out".
Proof. str_ne. Qed.

Lemma in_ne_source (a : string) : a +:+ "_in" ≠ "source".
Proof. str_ne. Qed.

Lemma in_ne_sink (a : string) : a +:+ "_in" ≠ "sink".
Proof. str_ne. Qed.

Lemma out_ne_source (a : string) : a +:+ "_out" ≠ "source".
Proof. str_ne. Qed.

Lemma out_ne_sink (a : string) : a +:+ "_out" ≠ "sink".
Proof. str_ne. Qed.

Lemma str_length_app (a b : string) :
  String.length (a +:+ b) = (String.length a + String.length b)%nat.
Proof. induction a as [|c a IH]; simpl; [done|]. by rewrite IH. Qed.

Lemma substring_prefix (a b : string) :
  String.substring 0 (String.length a) (a +:+ b) = a.
Proof.
  induction a as [|c a IH]; simpl; [by destruct b|]. by rewrite IH.
Qed.

Lemma str_drop_last_app (a s : string) :
  str_drop_last (String.length s) (a +:+ s) = a.
Proof.
  unfold str_drop_last. rewrite str_length_app.
  replace (String.length a + String.length s - String.length s)%nat
    with (String.length a) by lia.
  apply substring_prefix.
Qed.

Lemma str_drop_last_in (x : string) : str_drop_last 3 (x +:+ "_in") = x.
Proof. exact (str_drop_last_app x "_in"). Qed.

Lemma str_drop_last_out (x : string) : str_drop_last 4 (x +:+ "_out") = x.
Proof. exact (str_drop_last_app x "_out"). Qed.

Lemma cut_node_in_out (x : string) :
  cut_node (x +:+ "_in", x +:+ "_out") = Ok x.
Proof.
  unfold cut_node. cbn [fst snd].
  rewrite str_drop_last_in, str_drop_last_out.
  by rewrite bool_decide_eq_true_2.
Qed.

(** ** The flow network *)

Section FlowNetwork.
Context {V : Type}.
Implicit Types (g : Graph V) (n m : Node V) (G : DiGraph) (tc : gset string).

Lemma lookup_add_edge (u v : string) (c : capacity) G (k : string * string) :
  add_edge u v c G !! k = if decide ((u, v) = k) then Some c else G !! k.
Proof. unfold add_edge. apply lookup_insert. Qed.

Lemma lookup_add_edge_ne (u v : string) (c : capacity) G (k : string * string) :
  (u, v) ≠ k -> add_edge u v c G !! k = G !! k.
Proof. unfold add_edge. apply lookup_insert_ne. Qed.

Lemma lookup_add_edge_eq (u v : string) (c : capacity) G :
  add_edge u v c G !! (u, v) = Some c.
Proof. unfold add_edge. apply lookup_insert_eq. Qed.

Lemma fold_users_other (out : string) (us : list (Node V)) G (key : string * string) :
  key.1 ≠ out ->
  fold_left (fun G user => add_edge out (node_in_name user) Inf G) us G !! key
  = G !! key.
Proof.
  intros Hne. revert G. induction us as [|u us IH]; intros G; simpl; [done|].
  rewrite IH. apply lookup_add_edge_ne.
  intros <-. done.
Qed.

Lemma fold_users_inf (out : string) (us : list (Node V)) G (key : string * string) :
  G !! key = Some Inf ->
  fold_left (fun G user => add_edge out (node_in_name user) Inf G) us G !! key
  = Some Inf.
Proof.
  revert G. induction us as [|u us IH]; intros G HG; simpl; [done|].
  apply IH. rewrite lookup_add_edge. by case_decide.
Qed.

Lemma network_step_other g tc G m n :
  name m ≠ name n ->
  network_step g tc G m !! (node_in_name n, node_out_name n)
  = G !! (node_in_name n, node_out_name n).
Proof.
  intros Hne. unfold network_step.
  case_bool_decide.
  { apply lookup_add_edge_ne. unfold node_out_name. intros [= _ H'].
    symmetry in H'. by apply out_ne_sink in H'. }
  rewrite fold_users_other
    by (unfold node_in_name, node_out_name; simpl; apply in_ne_out).
  rewrite lookup_add_edge_ne
    by (unfold node_in_name; intros [= H' _]; by apply str_app_inj_l in H').
  destruct (negb (recomputable (target m)));
    [rewrite lookup_add_edge_ne
       by (unfold node_in_name; intros [= H' _]; symmetry in H';
           by apply in_ne_source in H')|];
  (destruct (is_op placeholder m && target_contains "primals" (target m));
    [rewrite lookup_add_edge_ne
       by (unfold node_in_name; intros [= H' _]; symmetry in H';
           by apply in_ne_source in H')|]);
  done.
Qed.

Lemma network_step_self g tc G n :
  network_step g tc G n !! (node_in_name n, node_out_name n)
  = if bool_decide (name n ∈ tc)
    then G !! (node_in_name n, node_out_name n)
    else Some (node_weight
                 (is_op placeholder n && target_contains "primals" (target n)) n).
Proof.
  unfold network_step.
  case_bool_decide.
  { apply lookup_add_edge_ne. unfold node_out_name. intros [= H'].
    symmetry in H'. by apply out_ne_sink in H'. }
  rewrite fold_users_other
    by (unfold node_in_name, node_out_name; simpl; apply in_ne_out).
  by rewrite lookup_add_edge_eq.
Qed.

(** An infinite edge stays infinite: a later step either leaves it alone
    or adds it again with infinite capacity. *)
Lemma network_step_inf g tc G m (u v : string) :
  (forall x : string, (u, v) ≠ (x +:+ "_in", x +:+ "_out")) ->
  G !! (u, v) = Some Inf ->
  network_step g tc G m !! (u, v) = Some Inf.
Proof.
  intros Hk HG. unfold network_step.
  case_bool_decide.
  { rewrite lookup_add_edge. by case_decide. }
  apply fold_users_inf.
  rewrite lookup_add_edge_ne by apply not_eq_sym, Hk.
  destruct (negb (recomputable (target m)));
  destruct (is_op placeholder m && target_contains "primals" (target m));
    rewrite ?lookup_add_edge; repeat case_decide; done.
Qed.

Lemma fold_network_other g tc (l : Graph V) G n :
  name n ∉ name <$> l ->
  fold_left (network_step g tc) l G !! (node_in_name n, node_out_name n)
  = G !! (node_in_name n, node_out_name n).
Proof.
  revert G. induction l as [|m l IH]; intros G Hn; simpl; [done|].
  rewrite IH by set_solver. apply network_step_other. set_solver.
Qed.

Lemma fold_network_inf g tc (l : Graph V) G (u v : string) :
  (forall x : string, (u, v) ≠ (x +:+ "_in", x +:+ "_out")) ->
  G !! (u, v) = Some Inf ->
  fold_left (network_step g tc) l G !! (u, v) = Some Inf.
Proof.
  intros Hk. revert G. induction l as [|m l IH]; intros G HG; simpl; [done|].
  apply IH. by apply network_step_inf.
Qed.

Lemma network_step_sink g tc G n :
  name n ∈ tc ->
  network_step g tc G n !! (node_in_name n, "sink") = Some Inf.
Proof.
  intros H. unfold network_step. rewrite bool_decide_eq_true_2 by done.
  apply lookup_add_edge_eq.
Qed.

Lemma network_step_source g tc G n :
  name n ∉ tc -> recomputable (target n) = false ->
  network_step g tc G n !! ("source", node_in_name n) = Some Inf.
Proof.
  intros H Hr. unfold network_step. rewrite bool_decide_eq_false_2 by done.
  rewrite Hr. simpl.
  rewrite fold_users_other
    by (unfold node_out_name; simpl; apply not_eq_sym, out_ne_source).
  rewrite lookup_add_edge_ne
    by (unfold node_in_name; intros [= H' _]; by apply in_ne_source in H').
  apply lookup_add_edge_eq.
Qed.

Lemma recomputable_spec (f : string) :
  recomputable (TOp f) = true <->
  f ∈ pointwise_ops \/ f ∈ reduction_ops \/ f ∈ norm_ops \/ f ∈ misc_ops.
Proof.
  unfold recomputable, recomputable_ops.
  rewrite bool_decide_eq_true, !elem_of_app. tauto.
Qed.

(** C2, as amended.  In the flow network, a node outside the tangent
    closure has an in->out edge whose capacity is fixed by its size
    metadata alone: infinite without metadata, the element count for a
    primal placeholder, twice the element count otherwise, whether or
    not its operator is recomputable.  A node whose target is not
    recomputable gets, in addition, an infinite edge from the source to
    its in-vertex.  A node inside the tangent closure has no in->out
    edge, only an infinite edge from its in-vertex to the sink.  The
    recomputable operators are the pointwise, reduction, normalization
    and cast lists. *)
Theorem flow_network_in_out_capacity (g : Graph V) (n : Node V) :
  NoDup (name <$> g) ->
  n ∈ g ->
  let G := flow_network g in
  let is_input :=
    is_op placeholder n && target_contains "primals" (target n) in
  (name n ∉ tangent_closure g ->
     G !! (node_in_name n, node_out_name n) = Some (node_weight is_input n)
     /\ (recomputable (target n) = false ->
         G !! ("source", node_in_name n) = Some Inf))
  /\ (name n ∈ tangent_closure g ->
     G !! (node_in_name n, node_out_name n) = None
     /\ G !! (node_in_name n, "sink") = Some Inf)
  /\ (forall f : string,
        recomputable (TOp f) = true <->
        f ∈ pointwise_ops \/ f ∈ reduction_ops \/ f ∈ norm_ops \/ f ∈ misc_ops).
Proof.
  intros Hnd Hn G is_input. unfold G, flow_network.
  apply list_elem_of_split in Hn as (pre & post & Hg).
  set (tc := tangent_closure g). clearbody tc.
  rewrite Hg in Hnd |- *. rewrite fmap_app, fmap_cons in Hnd.
  apply NoDup_app in Hnd as (_ & Hpre & Hpost).
  apply NoDup_cons in Hpost as [Hpost _].
  rewrite fold_left_app. simpl. rewrite fold_network_other by done.
  rewrite network_step_self.
  assert (Hsrc : forall x : string,
            ("source", node_in_name n) ≠ (x +:+ "_in", x +:+ "_out")).
  { intros x [= H' _]. symmetry in H'. by apply in_ne_source in H'. }
  assert (Hsnk : forall x : string,
            (node_in_name n, "sink") ≠ (x +:+ "_in", x +:+ "_out")).
  { intros x [= _ H']. symmetry in H'. by apply out_ne_sink in H'. }
  split; [|split].
  - intros Hout. rewrite bool_decide_eq_false_2 by done. split; [done|].
    intros Hr. apply fold_network_inf; [done|]. by apply network_step_source.
  - intros Hin. rewrite bool_decide_eq_true_2 by done. split.
    + rewrite fold_network_other by set_solver. apply lookup_empty.
    + apply fold_network_inf; [done|]. by apply network_step_sink.
  - apply recomputable_spec.
Qed.

End FlowNetwork.

Lemma flow_network_in_out_capacity_witness :
  flow_network mm_joint !! (node_in_name mm_node, node_out_name mm_node)
    = Some (Fin 16)
  /\ flow_network mm_joint !! ("source", node_in_name mm_node) = Some Inf.
Proof.
  assert (Hnd : NoDup (name <$> mm_joint)).
  { apply (bool_decide_unpack _). vm_compute. exact I. }
  assert (Hin : mm_node ∈ mm_joint).
  { apply list_elem_of_lookup. exists 3%nat. reflexivity. }
  destruct (flow_network_in_out_capacity mm_joint mm_node Hnd Hin)
    as (H1 & _ & _).
  assert (Hout : name mm_node ∉ tangent_closure mm_joint).
  { apply (bool_decide_unpack _). vm_compute. exact I. }
  destruct (H1 Hout) as [H2 H3]. split; [exact H2|].
  apply H3. reflexivity.
Defined.

(** The claim C2 as stated fails: [mm] is not recomputable and carries
    size metadata, and its in->out edge has the finite capacity 16, twice
    its 8 elements; the transpose [t], a shape-only view, is not among
    the recomputable operators; and [mm_1], downstream of the tangent,
    has no in->out edge at all. *)
Lemma flow_network_non_recomputable_finite :
  mm_node ∈ mm_joint
  /\ recomputable (target mm_node) = false
  /\ tensor_meta mm_node = Some [2; 4]
  /\ flow_network mm_joint !! (node_in_name mm_node, node_out_name mm_node)
       = Some (Fin 16)
  /\ flow_network mm_joint !! (node_in_name mm_node, node_out_name mm_node)
       ≠ Some Inf
  /\ "t" ∈ view_ops /\ recomputable (TOp "t") = false
  /\ flow_network mm_joint !! ("mm_1_in", "mm_1_out") = None.
Proof.
  split; [apply list_elem_of_lookup; exists 3%nat; reflexivity|].
  split; [reflexivity|]. split; [reflexivity|].
  split; [vm_compute; reflexivity|].
  split; [vm_compute; discriminate|].
  split; [apply (bool_decide_unpack _); vm_compute; exact I|].
  split; [reflexivity|]. vm_compute. reflexivity.
Qed.

(** ** Minimum cuts of the flow network *)

Section MinCut.
Context {V : Type}.
Implicit Types (g : Graph V) (n m : Node V) (G : DiGraph).

(** Every finite edge of the network is the in->out edge of a node. *)
Definition finite_edges_internal g G : Prop :=
  forall (u v : string) (c : capacity),
    G !! (u, v) = Some c ->
    c = Inf \/ exists n, n ∈ g /\ u = node_in_name n /\ v = node_out_name n.

Lemma fold_users_internal g (out : string) (us : list (Node V)) G :
  finite_edges_internal g G ->
  finite_edges_internal g
    (fold_left (fun G user => add_edge out (node_in_name user) Inf G) us G).
Proof.
  revert G. induction us as [|x us IH]; intros G HG; simpl; [done|].
  apply IH. intros u v c. rewrite lookup_add_edge.
  case_decide; [intros [= <-]; by left|apply HG].
Qed.

Lemma network_step_internal g tc G m :
  m ∈ g ->
  finite_edges_internal g G ->
  finite_edges_internal g (network_step g tc G m).
Proof.
  intros Hm HG. unfold network_step. case_bool_decide.
  { intros u v c. rewrite lookup_add_edge.
    case_decide; [intros [= <-]; by left|apply HG]. }
  apply fold_users_internal.
  intros u v c. rewrite lookup_add_edge.
  case_decide as Hk; [injection Hk as <- <-; right; by exists m|].
  destruct (negb (recomputable (target m)));
  destruct (is_op placeholder m && target_contains "primals" (target m));
    rewrite ?lookup_add_edge; repeat case_decide;
    try (intros [= <-]; by left); apply HG.
Qed.

Lemma flow_network_internal g : finite_edges_internal g (flow_network g).
Proof.
  unfold flow_network. generalize (tangent_closure g). intros tc.
  assert (H : forall l G, (forall m, m ∈ l -> m ∈ g) ->
            finite_edges_internal g G ->
            finite_edges_internal g (fold_left (network_step g tc) l G)).
  { induction l as [|m l IH]; intros G Hl HG; simpl; [done|].
    apply IH; [set_solver|]. apply network_step_internal; [set_solver|done]. }
  apply H; [done|]. intros u v c. by rewrite lookup_empty.
Qed.

Lemma cap_sum_finite (l : list capacity) (v : Z) :
  foldr cap_add (Fin 0) l = Fin v -> forall c, c ∈ l -> c ≠ Inf.
Proof.
  revert v. induction l as [|a l IH]; intros v; simpl.
  - intros _ c Hc. by apply elem_of_nil in Hc.
  - destruct a as [x|]; [|done].
    destruct (foldr cap_add (Fin 0) l) as [y|] eqn:Hl; [|done].
    intros _ c [->|Hc]%elem_of_cons; [done|]. by eapply IH.
Qed.

Lemma cutset_edge G (R NR : gset string) (e : string * string) :
  e ∈ cutset G R NR ->
  exists c, G !! e = Some c /\ c ∈ (snd <$> cut_edges G R NR).
Proof.
  unfold cutset. intros (x & -> & Hx)%list_elem_of_fmap.
  exists x.2. split.
  - unfold cut_edges in Hx. apply list_elem_of_filter in Hx as [_ Hx].
    destruct x as [k c]. by apply elem_of_map_to_list in Hx.
  - apply list_elem_of_fmap. by exists x.
Qed.

Lemma cut_nodes_loop_ok (cs : list (string * string)) (acc : list string) :
  (forall e, e ∈ cs -> exists x : string, e = (x +:+ "_in", x +:+ "_out")) ->
  exists cut_nodes, cut_nodes_loop cs acc = Ok cut_nodes.
Proof.
  revert acc. induction cs as [|e cs IH]; intros acc H; simpl; [eauto|].
  destruct (H e) as [x ->]; [set_solver|].
  rewrite cut_node_in_out. simpl. apply IH. set_solver.
Qed.

(** C5.  Whenever [nx.minimum_cut] returns a cut of the flow network
    (it returns one of finite value, and raises when the source reaches
    the sink through infinite edges), no edge of that cut touches the
    source or the sink: every cut edge is the in->out edge of one node of
    the graph, and the assertion of lines 295-296 holds for each, so the
    loop collecting the cut nodes does not raise. *)
Theorem min_cut_only_node_edges (g : Graph V)
    (nx_minimum_cut :
       DiGraph -> string -> string -> result (Z * (gset string * gset string)))
    (cut_value : Z) (reachable non_reachable : gset string) :
  (forall G s t v R NR,
     nx_minimum_cut G s t = Ok (v, (R, NR)) -> cut_capacity G R NR = Fin v) ->
  nx_minimum_cut (flow_network g) "source" "sink"
    = Ok (cut_value, (reachable, non_reachable)) ->
  let cs := cutset (flow_network g) reachable non_reachable in
  (forall e, e ∈ cs ->
     (exists n, n ∈ g /\ e = (node_in_name n, node_out_name n))
     /\ e.1 ≠ "source" /\ e.1 ≠ "sink" /\ e.2 ≠ "source" /\ e.2 ≠ "sink"
     /\ str_drop_last 3 e.1 = str_drop_last 4 e.2)
  /\ exists cut_nodes, cut_nodes_loop cs [] = Ok cut_nodes.
Proof.
  intros Hnx Hcut cs. apply Hnx in Hcut.
  assert (Hint : forall e, e ∈ cs ->
            exists n, n ∈ g /\ e = (node_in_name n, node_out_name n)).
  { intros [u v] He. apply cutset_edge in He as (c & HG & Hc).
    apply flow_network_internal in HG as [->|(n & Hn & -> & ->)].
    - exfalso. by eapply cap_sum_finite.
    - by exists n. }
  split.
  - intros e He. destruct (Hint e He) as (n & Hn & ->).
    split; [by exists n|]. unfold node_in_name, node_out_name. simpl.
    split; [apply in_ne_source|]. split; [apply in_ne_sink|].
    split; [apply out_ne_source|]. split; [apply out_ne_sink|].
    by rewrite str_drop_last_in, str_drop_last_out.
  - apply cut_nodes_loop_ok. intros e He.
    destruct (Hint e He) as (n & _ & ->). by exists (name n).
Qed.

End MinCut.

Lemma min_cut_only_node_edges_witness :
  propose_cut mul_reachable mul_non_reachable (flow_network mul_joint)
    "source" "sink" = Ok (12, (mul_reachable, mul_non_reachable))
  /\ exists cut_nodes,
       cut_nodes_loop
         (cutset (flow_network mul_joint) mul_reachable mul_non_reachable) []
       = Ok cut_nodes.
Proof.
  assert (H : propose_cut mul_reachable mul_non_reachable
                (flow_network mul_joint) "source" "sink"
              = Ok (12, (mul_reachable, mul_non_reachable))).
  { vm_compute. reflexivity. }
  split; [exact H|].
  refine (proj2 (min_cut_only_node_edges mul_joint
            (propose_cut mul_reachable mul_non_reachable) 12
            mul_reachable mul_non_reachable _ H)).
  intros G s t v R NR. unfold propose_cut.
  destruct (cut_capacity G mul_reachable mul_non_reachable) eqn:Hc;
    [|discriminate].
  intros [= <- <- <-]. exact Hc.
Defined.

(** ** Gradient routing *)

Section Routing.
Context {V : Type}.
Implicit Types (needs : list bool) (out : list (PyVal V)).





End Routing.



(** ** The extractor and the refinement pass *)

(** Case analysis on the head of a fallible computation that returned. *)
Ltac res_step :=
  match goal with
  | |- (?m ≫= _) = _ -> _ =>
      let H := fresh "Hb" in destruct m eqn:H; simpl; [|discriminate]
  | |- (if ?b then _ else _) = _ -> _ =>
      let H := fresh "Hc" in destruct b eqn:H; simpl
  | |- (match ?x with _ => _ end) = _ -> _ =>
      let H := fresh "Hm" in destruct x eqn:H; simpl; try discriminate
  end.

Section Refinement.
Context {V : Type}.
Variable interp : string -> list (Arg V V) -> list (string * Arg V V) -> V.
Implicit Types (g : Graph V) (n s : Node V) (saved : list (Node V)).




Lemma dce_sublist g n : n ∈ eliminate_dead_code g -> n ∈ g.
Proof.
  unfold eliminate_dead_code. induction g as [|m g IH]; simpl; [done|].
  unfold dce_step at 1. destruct (is_impure m || _); simpl.
  - intros [->|H]%elem_of_cons; apply elem_of_cons; auto.
  - intros H. apply elem_of_cons; auto.
Qed.


Lemma filter_ext_in {A} (P Q : A -> Prop) `{!forall x, Decision (P x)}
    `{!forall x, Decision (Q x)} (l : list A) :
  (forall x, x ∈ l -> (P x <-> Q x)) -> filter P l = filter Q l.
Proof.
  induction l as [|x l IH]; intros Hext; [done|].
  assert (Hl : filter P l = filter Q l).
  { apply IH. intros y Hy. apply Hext. apply elem_of_cons. by right. }
  assert (Hx : P x <-> Q x) by (apply Hext, elem_of_cons; by left).
  destruct (decide (P x)) as [Hp|Hp].
  - rewrite (filter_cons_True P) by done.
    rewrite (filter_cons_True Q) by tauto. by rewrite Hl.
  - rewrite (filter_cons_False P) by done.
    rewrite (filter_cons_False Q) by tauto. done.
Qed.









End Refinement.


(** ** The compilation cache and the dispatch wrapper *)

Section DispatchProperties.
Context {V Spec : Type} `{EqDecision Spec}.
Variable hasher : string -> list (PyVal V) -> Z.
Variable is_leaf_spec : Spec -> bool.
Variable tree_unflatten : list (PyVal V) -> Spec -> PyVal V.
Variable make_fx :
  bool -> (list (PyVal V) -> list (PyVal V) * Spec) ->
  list (PyVal V) -> list (PyVal V) -> GraphModule V.
Implicit Types (w : world V Spec) (cf : wrapper V Spec).

(** C10, on the code.  After [clear_compile_cache] the global cache is
    absent and [num_of_recompilations] returns 0.  A call of
    [compiled_function] then makes a fresh, empty cache; but a callable
    wrapped before the clear and invoked before any such call raises
    [AttributeError] on the absent cache and leaves it absent. *)
Theorem clear_then_call cf (args : list (PyVal V)) w :
  let w' := clear_compile_cache w in
  num_of_recompilations w' = 0%nat
  /\ compile_cache w' = None
  /\ compile_cache (compiled_function w') = Some ∅
  /\ num_of_recompilations (compiled_function w') = 0%nat
  /\ returned_function hasher is_leaf_spec tree_unflatten make_fx cf args w'
     = (Raise AttributeError, w').
Proof.
  unfold clear_compile_cache, num_of_recompilations, compiled_function,
    returned_function.
  destruct w as [[c|] us lg]; simpl; repeat split; done.
Qed.


Lemma lookup_snoc {A} (l : list A) (x : A) : (l ++ [x]) !! length l = Some x.
Proof. by apply list_lookup_middle. Qed.

Lemma alter_snoc {A} (f : A -> A) (l : list A) (x : A) :
  alter f (length l) (l ++ [x]) = l ++ [f x].
Proof. induction l as [|y l IH]; simpl; [done|]. f_equal. exact IH. Qed.

Ltac st_unfold :=
  unfold returned_function, forward, compile_unit, emit, get_unit, set_unit,
    st_lift, st_get, st_modify, st_raise, mbind, St_bind, mret, St_ret.

Ltac st_simp :=
  repeat (cbn; rewrite ?lookup_snoc, ?alter_snoc).

(** The state in which a cache miss leaves the process once the joint
    graph has been traced and the partitioner called: the entry is in
    the cache, the new unit knows its number of outputs and its output
    spec, and nothing is compiled. *)
Definition traced_world cf (args : list (PyVal V)) (c : CompileCache)
    (us : list (compiled_unit V Spec)) (lg : list event) : world V Spec :=
  let out_sp := flat_fn cf args in
  mkWorld
    (Some (cache_insert hasher c (fn_id cf) (length args) (hasher_type cf)
             (length us) args))
    (us ++ [mkUnit None None (Some (length out_sp.1))
              (mkThunk (Some out_sp.2) None
                 (if is_leaf_spec out_sp.2 then Some true else None))])
    (lg ++ [EvFn; EvTrace; EvPartition]).

Lemma miss_partition_raises cf (args : list (PyVal V)) c us lg (e : exn) :
  cache_at hasher c (fn_id cf) (length args) (hasher_type cf) args = None ->
  partition_fn cf
    (make_fx (decompose cf) (flat_fn cf) args (flat_fn cf args).1) = Raise e ->
  returned_function hasher is_leaf_spec tree_unflatten make_fx cf args
    (mkWorld (Some c) us lg)
  = (Raise e, traced_world cf args c us lg).
Proof.
  intros Hmiss Hp. unfold traced_world. st_unfold. cbn. rewrite Hmiss. st_simp.
  destruct (flat_fn cf args) as [out sp] eqn:Hf. cbn in Hp. st_simp.
  rewrite Hp. st_simp. rewrite <- !app_assoc. done.
Qed.


Lemma cache_at_insert (c : CompileCache) (id : Z) (n : nat) (ht : string)
    (v : nat) (args : list (PyVal V)) :
  cache_at hasher (cache_insert hasher c id n ht v args) id n ht args = Some v.
Proof. unfold cache_at, cache_insert. apply lookup_insert_eq. Qed.

(** C9, as amended.  Without networkx the recompute-aware partitioner
    raises [RuntimeError] whenever it is called, whatever the graph:
    it returns no graphs, those of the default partitioner included.
    It is called on the first invocation of the wrapped callable for a
    key, after the function has run and the joint graph has been
    traced; the error reaches the caller and no compiler has run. *)
Theorem missing_networkx_raises_at_partition
    (interp : string -> list (PyVal V) -> list (string * PyVal V) -> V)
    (set_iter : list string -> list string)
    (nx_minimum_cut :
       DiGraph -> string -> string -> result (Z * (gset string * gset string)))
    cf (args : list (PyVal V)) (c : CompileCache)
    (us : list (compiled_unit V Spec)) (lg : list event) :
  partition_fn cf
    = partition_with_recompute_fwd_in_bwd interp set_iter false nx_minimum_cut ->
  cache_at hasher c (fn_id cf) (length args) (hasher_type cf) args = None ->
  (forall joint_module,
     partition_with_recompute_fwd_in_bwd interp set_iter false nx_minimum_cut
       joint_module
     = Raise (RuntimeError
         "Need networkx installed to perform smart recomputation heuristics"))
  /\ exists w',
       returned_function hasher is_leaf_spec tree_unflatten make_fx cf args
         (mkWorld (Some c) us lg)
       = (Raise (RuntimeError
            "Need networkx installed to perform smart recomputation heuristics"),
          w')
       /\ log w' = lg ++ [EvFn; EvTrace; EvPartition].
Proof.
  intros Hp Hmiss. split; [done|].
  exists (traced_world cf args c us lg). split; [|done].
  apply miss_partition_raises; [done|]. by rewrite Hp.
Qed.



End DispatchProperties.

Lemma clear_then_call_example :
  (ex_call failing_fw_wrapper (clear_compile_cache (compiled_function empty_world))).1
  = Raise AttributeError.
Proof. vm_compute. reflexivity. Qed.

Lemma missing_networkx_raises_at_partition_witness :
  exists w',
    ex_call no_networkx_wrapper (mkWorld (Some ∅) [] [])
    = (Raise (RuntimeError
         "Need networkx installed to perform smart recomputation heuristics"),
       w')
    /\ log w' = [EvFn; EvTrace; EvPartition].
Proof.
  assert (Hmiss : cache_at ex_hasher (∅ : gmap cache_key nat)
            (fn_id no_networkx_wrapper) (length [@ARef Z Z 2; ARef 3])
            (hasher_type no_networkx_wrapper) [ARef 2; ARef 3] = None).
  { vm_compute. reflexivity. }
  destruct (missing_networkx_raises_at_partition ex_hasher (fun b : bool => b)
              ex_unflatten ex_make_fx z_interp id
              (propose_cut mul_reachable mul_non_reachable)
              no_networkx_wrapper [ARef 2; ARef 3] ∅ [] [] eq_refl Hmiss)
    as [_ (w' & H1 & H2)].
  exists w'. split; [exact H1|exact H2].
Defined.

(** The claim C9 as stated fails: selecting the partitioner (the call of
    [compiled_function]) raises nothing and leaves the log empty; the
    error only comes from the first call of the wrapped callable, after
    the function has run and the joint graph has been traced. *)
Lemma missing_networkx_traces_first :
  let w0 := compiled_function empty_world in
  log w0 = []
  /\ exists w',
       ex_call no_networkx_wrapper w0
       = (Raise (RuntimeError
            "Need networkx installed to perform smart recomputation heuristics"),
          w')
       /\ log w' = [EvFn; EvTrace; EvPartition]
       /\ EvTrace ∈ log w'.
Proof.
  split; [reflexivity|].
  destruct (ex_call no_networkx_wrapper (compiled_function empty_world))
    as [r w'] eqn:Hr.
  vm_compute in Hr. injection Hr as <- <-.
  eexists. split; [reflexivity|]. split; [reflexivity|].
  apply (bool_decide_unpack _). vm_compute. exact I.
Qed.



(** ** Partition correctness *)

Section Correctness.
Context {V : Type}.
Variable interp : string -> list (Arg V V) -> list (string * Arg V V) -> V.
Variable attr : string -> V.
Implicit Types (g h : Graph V) (n m : Node V) (e E : gmap string V).

Lemma mapM_ext_Forall {A B} (f1 f2 : A -> option B) (l : list A) :
  Forall (fun x => f1 x = f2 x) l -> mapM f1 l = mapM f2 l.
Proof.
  induction 1 as [|x l Hx _ IH]; [done|]. simpl. by rewrite Hx, IH.
Qed.

(** An environment that binds the references of an argument resolves it
    as any larger environment does. *)
Lemma resolve_agree e E (a : Arg V string) :
  e ⊆ E ->
  (forall x, x ∈ arg_refs a -> is_Some (e !! x)) ->
  resolve e a = resolve E a.
Proof.
  intros Hsub. induction a as [x|c|l IH] using Arg_ind'; intros Hb.
  - simpl. destruct (Hb x) as [v Hv]; [simpl; set_solver|].
    rewrite Hv. by rewrite (lookup_weaken _ _ _ _ Hv Hsub).
  - done.
  - simpl. f_equal. apply mapM_ext_Forall.
    apply Forall_forall. intros a Ha.
    rewrite Forall_forall in IH. apply IH; [done|].
    intros x Hx. apply Hb. simpl. apply list_elem_of_In, in_flat_map.
    exists a. split; by apply list_elem_of_In.
Qed.

Lemma resolve_kw_agree e E (kv : string * Arg V string) :
  e ⊆ E ->
  (forall x, x ∈ arg_refs kv.2 -> is_Some (e !! x)) ->
  resolve_kw e kv = resolve_kw E kv.
Proof.
  intros Hsub Hb. unfold resolve_kw. by rewrite (resolve_agree e E).
Qed.

Lemma elem_of_args_refs (l : list (Arg V string)) (a : Arg V string) x :
  a ∈ l -> x ∈ arg_refs a -> x ∈ args_refs l.
Proof.
  intros Ha Hx. unfold args_refs. apply list_elem_of_In, in_flat_map.
  exists a. split; by apply list_elem_of_In.
Qed.

Lemma node_value_agree e E n :
  e ⊆ E ->
  (forall x, x ∈ node_refs n -> is_Some (e !! x)) ->
  node_value interp attr e n = node_value interp attr E n.
Proof.
  intros Hsub Hb. unfold node_value.
  destruct (op n); try done. destruct (target n); try done.
  assert (Ha : mapM (resolve e) (args n) = mapM (resolve E) (args n)).
  { apply mapM_ext_Forall, Forall_forall. intros a Ha.
    apply resolve_agree; [done|]. intros x Hx. apply Hb.
    unfold node_refs. apply elem_of_app. left.
    by eapply elem_of_args_refs. }
  assert (Hk : mapM (resolve_kw e) (kwargs n) = mapM (resolve_kw E) (kwargs n)).
  { apply mapM_ext_Forall, Forall_forall. intros kv Hkv.
    apply resolve_kw_agree; [done|]. intros x Hx. apply Hb.
    unfold node_refs. apply elem_of_app. right.
    eapply elem_of_args_refs; [|done].
    apply list_elem_of_fmap. by exists kv. }
  by rewrite Ha, Hk.
Qed.

(** An argument that resolves has all its references bound. *)
Lemma mapM_Some_Forall {A B} (f : A -> option B) (l : list A) (k : list B) :
  mapM f l = Some k -> Forall (fun x => is_Some (f x)) l.
Proof.
  revert k. induction l as [|x l IH]; intros k; simpl; [constructor|].
  destruct (f x) as [y|] eqn:Hx; simpl; [|done].
  destruct (mapM f l) as [ys|] eqn:Hl; simpl; [|done].
  intros _. constructor; [by rewrite Hx|by eapply IH].
Qed.

Lemma resolve_bound e (a : Arg V string) :
  is_Some (resolve e a) -> forall x, x ∈ arg_refs a -> is_Some (e !! x).
Proof.
  induction a as [y|c|l IH] using Arg_ind'; simpl.
  - intros [r Hr] x ->%list_elem_of_singleton.
    destruct (e !! y); [eauto|done].
  - intros _ x Hx. by apply elem_of_nil in Hx.
  - intros [r Hr] x Hx.
    destruct (mapM (resolve e) l) as [rs|] eqn:Hl; simpl in Hr; [|done].
    apply mapM_Some_Forall in Hl.
    apply list_elem_of_In, in_flat_map in Hx as (a & Ha & Hx).
    apply list_elem_of_In in Ha, Hx.
    rewrite Forall_forall in IH, Hl. by eapply IH; [|apply Hl|].
Qed.

Lemma node_value_mono e E n v :
  e ⊆ E ->
  node_value interp attr e n = Some v -> node_value interp attr E n = Some v.
Proof.
  intros Hsub Hv. destruct (op n) eqn:Hop;
    try (unfold node_value in Hv; rewrite Hop in Hv; done).
  - rewrite <- Hv. symmetry. apply node_value_agree; [done|].
    intros x Hx. unfold node_value in Hv. rewrite Hop in Hv.
    destruct (target n); [done|].
    destruct (mapM (resolve e) (args n)) as [a|] eqn:Ha; simpl in Hv; [|done].
    destruct (mapM (resolve_kw e) (kwargs n)) as [k|] eqn:Hk;
      simpl in Hv; [|done].
    apply mapM_Some_Forall in Ha. apply mapM_Some_Forall in Hk.
    rewrite Forall_forall in Ha. rewrite Forall_forall in Hk.
    unfold node_refs in Hx. apply elem_of_app in Hx as [Hx|Hx].
    + apply list_elem_of_In, in_flat_map in Hx as (a0 & Ha0 & Hx).
      apply list_elem_of_In in Ha0, Hx. eapply resolve_bound; [|done].
      by apply Ha.
    + apply list_elem_of_In, in_flat_map in Hx as (a0 & Ha0 & Hx).
      apply list_elem_of_In in Ha0, Hx.
      apply list_elem_of_fmap in Ha0 as (kv & -> & Hkv).
      eapply resolve_bound; [|done].
      specialize (Hk kv Hkv). unfold resolve_kw in Hk.
      destruct (resolve e kv.2); [eauto|]. by destruct Hk.
  - unfold node_value in *. by rewrite Hop in *.
Qed.

(** *** Runs of the joint graph *)

(** An environment gives every computed node of [g] its value. *)
Definition valued E g : Prop :=
  forall n, n ∈ g -> op n ≠ placeholder -> op n ≠ output ->
    exists v, node_value interp attr E n = Some v /\ E !! name n = Some v.

(** The values an environment gives to the placeholders of [g] that
    satisfy [p], in order. *)
Definition ph_values E (p : Node V -> bool) g : option (list V) :=
  mapM (fun n => E !! name n)
       (filter (fun n => is_op placeholder n && p n = true) g).

Lemma run_step_cases (st st' : run_state) n :
  run_step interp attr st n = Some st' ->
  (op n = output /\ r_env st' = r_env st /\ r_inputs st' = r_inputs st)
  \/ (op n = placeholder /\ exists v,
        r_inputs st = v :: r_inputs st'
        /\ r_env st' = <[name n := v]> (r_env st)
        /\ r_result st' = r_result st)
  \/ (op n ≠ placeholder /\ op n ≠ output /\ exists v,
        node_value interp attr (r_env st) n = Some v
        /\ r_env st' = <[name n := v]> (r_env st)
        /\ r_inputs st' = r_inputs st
        /\ r_result st' = r_result st).
Proof.
  unfold run_step. destruct (op n) eqn:Hop.
  - destruct (r_inputs st) as [|v rest] eqn:Hin; [done|].
    intros [= <-]. right. left. split; [done|]. exists v. by simpl.
  - destruct (node_value _ _ _ n) as [v|] eqn:Hv; simpl; [|done].
    intros [= <-]. right. right. split; [done|]. split; [done|]. by exists v.
  - destruct (node_value _ _ _ n) as [v|] eqn:Hv; simpl; [|done].
    intros [= <-]. right. right. split; [done|]. split; [done|]. by exists v.
  - destruct (node_value _ _ _ n) as [v|] eqn:Hv; simpl; [|done].
    intros [= <-]. right. right. split; [done|]. split; [done|]. by exists v.
  - destruct (node_value _ _ _ n) as [v|] eqn:Hv; simpl; [|done].
    intros [= <-]. right. right. split; [done|]. split; [done|]. by exists v.
  - destruct (args n) as [|a ?]; [done|].
    destruct (resolve (r_env st) a); simpl; [|done].
    intros [= <-]. left. by simpl.
Qed.

Lemma ph_values_cons E (p : Node V -> bool) n g :
  ph_values E p (n :: g)
  = if is_op placeholder n && p n
    then v ← E !! name n; k ← ph_values E p g; Some (v :: k)
    else ph_values E p g.
Proof.
  unfold ph_values. cbn [filter list_filter].
  destruct (is_op placeholder n && p n) eqn:Hb.
  - rewrite decide_True by done. done.
  - rewrite decide_False by done. done.
Qed.

Lemma run_nodes_spec g (st st' : run_state) :
  run_nodes interp attr g st = Some st' ->
  NoDup (name <$> g) ->
  (forall n, n ∈ g -> r_env st !! name n = None) ->
  r_env st ⊆ r_env st'
  /\ valued (r_env st') g
  /\ forall p, ph_values (r_env st') p g
               = Some (select_inputs p g (r_inputs st)).
Proof.
  revert st. induction g as [|n g IH]; intros st Hrun.
  - simpl in Hrun. injection Hrun as <-. intros _ _.
    split; [done|]. split; [|done].
    intros n Hn. by apply elem_of_nil in Hn.
  - simpl in Hrun.
    destruct (run_step interp attr st n) as [st1|] eqn:Hs;
      simpl in Hrun; [|done].
    rewrite fmap_cons. intros [Hn Hnd]%NoDup_cons Hfresh.
    assert (Hfresh1 : forall m, m ∈ g -> r_env st1 !! name m = None).
    { intros m Hm.
      assert (Hne : name n ≠ name m).
      { intros Heq. apply Hn. rewrite Heq. apply list_elem_of_fmap. eauto. }
      assert (Hm0 : r_env st !! name m = None)
        by (apply Hfresh, elem_of_cons; auto).
      apply run_step_cases in Hs
        as [(_ & -> & _)|[(_ & v & _ & -> & _)|(_ & _ & v & _ & -> & _)]];
        by rewrite ?lookup_insert_ne. }
    destruct (IH st1 Hrun Hnd Hfresh1) as (Hsub & Hval & Hph).
    assert (Hn0 : r_env st !! name n = None)
      by (apply Hfresh, elem_of_cons; auto).
    apply run_step_cases in Hs
      as [(Hop & He & Hi)|[(Hop & v & Hi & He & _)|(Ho1 & Ho2 & v & Hv & He & Hi & _)]].
    + split; [by rewrite <- He|]. split.
      * intros m [->|Hm]%elem_of_cons; [done|]. by apply Hval.
      * intros p. rewrite ph_values_cons. cbn [select_inputs].
        unfold is_op. rewrite Hop, !bool_decide_eq_false_2 by done.
        cbn [andb]. rewrite <- Hi. apply Hph.
    + assert (Hsub0 : r_env st ⊆ r_env st1)
        by (rewrite He; by apply insert_subseteq).
      split; [by etrans|]. split.
      * intros m [->|Hm]%elem_of_cons; [done|]. by apply Hval.
      * intros p. rewrite ph_values_cons. cbn [select_inputs].
        unfold is_op. rewrite Hop, !bool_decide_eq_true_2 by done.
        cbn [andb]. rewrite Hi, Hph.
        destruct (p n); [|done].
        rewrite (lookup_weaken (r_env st1) _ (name n) v)
          by (done || rewrite He; apply lookup_insert_eq).
        done.
    + assert (Hsub0 : r_env st ⊆ r_env st1)
        by (rewrite He; by apply insert_subseteq).
      split; [by etrans|]. split.
      * intros m [->|Hm]%elem_of_cons; [|by apply Hval].
        intros _ _. exists v. split.
        -- eapply node_value_mono; [|done]. by etrans.
        -- eapply lookup_weaken; [|done]. rewrite He. apply lookup_insert_eq.
      * intros p. rewrite ph_values_cons. cbn [select_inputs].
        unfold is_op. rewrite !bool_decide_eq_false_2 by done.
        cbn [andb]. rewrite <- Hi. apply Hph.
Qed.

(** *** Runs of a graph cut out of the joint graph *)

(** A node that evaluates to the value [E] gives it, in every
    environment within [E] that binds its references. *)
Definition evaluable E n : Prop :=
  exists v, E !! name n = Some v
    /\ forall e, e ⊆ E -> (forall x, x ∈ node_refs n -> is_Some (e !! x)) ->
         node_value interp attr e n = Some v.

Definition body_ok E n : Prop :=
  op n ≠ output /\ (op n = placeholder \/ evaluable E n).

(** Every reference is to a name in [seen] or to an earlier node. *)
Fixpoint closed (seen : gset string) h : Prop :=
  match h with
  | [] => True
  | n :: h' =>
      (forall x, x ∈ node_refs n -> x ∈ seen) /\ closed (seen ∪ {[name n]}) h'
  end.

Lemma closed_app seen h1 h2 :
  closed seen (h1 ++ h2) <->
  closed seen h1 /\ closed (seen ∪ list_to_set (name <$> h1)) h2.
Proof.
  revert seen. induction h1 as [|n h1 IH]; intros seen; simpl.
  - rewrite (right_id_L ∅ (∪)). tauto.
  - rewrite IH. rewrite (assoc_L (∪)). tauto.
Qed.

Lemma mapM_is_Some_Forall {A B} (f : A -> option B) (l : list A) :
  Forall (fun x => is_Some (f x)) l -> is_Some (mapM f l).
Proof.
  induction 1 as [|x l [y Hy] _ [k Hk]]; simpl; [eauto|].
  rewrite Hy. simpl. rewrite Hk. simpl. eauto.
Qed.

Lemma resolve_defined e (a : Arg V string) :
  (forall x, x ∈ arg_refs a -> is_Some (e !! x)) -> is_Some (resolve e a).
Proof.
  induction a as [y|c|l IH] using Arg_ind'; simpl; intros Hb.
  - destruct (Hb y) as [v Hv]; [set_solver|]. rewrite Hv. simpl. eauto.
  - destruct c; eauto.
  - assert (Hl : is_Some (mapM (resolve e) l)).
    { apply mapM_is_Some_Forall, Forall_forall. intros a Ha.
      rewrite Forall_forall in IH. apply IH; [done|].
      intros x Hx. apply Hb. apply list_elem_of_In, in_flat_map.
      exists a. split; by apply list_elem_of_In. }
    destruct Hl as [k Hk]. rewrite Hk. simpl. eauto.
Qed.

Lemma run_nodes_app h1 h2 (st : run_state) :
  run_nodes interp attr (h1 ++ h2) st
  = run_nodes interp attr h1 st ≫= run_nodes interp attr h2.
Proof.
  revert st. induction h1 as [|n h1 IH]; intros st; simpl; [done|].
  destruct (run_step interp attr st n); simpl; [apply IH|done].
Qed.

Lemma sub_run E h (st : run_state) (ins rest : list V) :
  r_env st ⊆ E ->
  Forall (body_ok E) h ->
  closed (dom (r_env st)) h ->
  mapM (fun n => E !! name n) (filter (fun n => op n = placeholder) h)
    = Some ins ->
  r_inputs st = ins ++ rest ->
  exists st',
    run_nodes interp attr h st = Some st'
    /\ r_env st' ⊆ E
    /\ r_inputs st' = rest
    /\ r_result st' = r_result st
    /\ dom (r_env st') = dom (r_env st) ∪ list_to_set (name <$> h).
Proof.
  revert st ins. induction h as [|n h IH]; intros st ins Hsub Hok Hcl Hph Hin.
  - simpl in Hph. injection Hph as <-. exists st. simpl.
    rewrite (right_id_L ∅ (∪)). done.
  - apply Forall_cons in Hok as [[Hout Hn] Hok]. destruct Hcl as [Href Hcl].
    cbn [filter list_filter] in Hph.
    destruct (decide (op n = placeholder)) as [Hop|Hop].
    + simpl in Hph.
      destruct (E !! name n) as [v|] eqn:Hv; simpl in Hph; [|done].
      destruct (mapM _ _) as [ins'|] eqn:Hins; simpl in Hph; [|done].
      injection Hph as <-.
      set (st1 := mkRun (<[name n := v]> (r_env st)) (ins' ++ rest)
                    (r_result st)).
      destruct (IH st1 ins') as (st' & Hrun & Hs' & Hi' & Hr' & Hd'); try done.
      { simpl. by apply insert_subseteq_l. }
      { simpl. rewrite dom_insert_L. by rewrite (comm_L (∪)). }
      exists st'. simpl. unfold run_step. rewrite Hop, Hin. simpl.
      split; [exact Hrun|]. split; [done|]. split; [done|]. split; [done|].
      rewrite Hd'. simpl. rewrite dom_insert_L. set_solver.
    + cbn iota in Hph.
      destruct Hn as [Hn|(v & Hv & Hev)]; [done|].
      assert (Hnv : node_value interp attr (r_env st) n = Some v).
      { apply Hev; [done|]. intros x Hx. apply elem_of_dom. by apply Href. }
      set (st1 := mkRun (<[name n := v]> (r_env st)) (r_inputs st)
                    (r_result st)).
      destruct (IH st1 ins) as (st' & Hrun & Hs' & Hi' & Hr' & Hd'); try done.
      { simpl. by apply insert_subseteq_l. }
      { simpl. rewrite dom_insert_L. by rewrite (comm_L (∪)). }
      exists st'. simpl.
      assert (Hstep : run_step interp attr st n = Some st1).
      { unfold run_step. destruct (op n); try done; by rewrite Hnv. }
      rewrite Hstep. simpl.
      split; [exact Hrun|]. split; [done|]. split; [done|]. split; [done|].
      rewrite Hd'. simpl. rewrite dom_insert_L. set_solver.
Qed.

(** A body of evaluable nodes followed by an output node runs to the
    values [E] gives to the outputs. *)
Lemma run_body_output E h (a : Arg V string) (ins : list V) :
  Forall (body_ok E) h ->
  closed ∅ h ->
  mapM (fun n => E !! name n) (filter (fun n => op n = placeholder) h)
    = Some ins ->
  (forall x, x ∈ arg_refs a -> x ∈ name <$> h) ->
  is_Some (resolve E a)
  /\ run_graph interp attr (h ++ [mk_output a]) ins = resolve E a.
Proof.
  intros Hok Hcl Hph Ha.
  assert (H1 : r_env (mkRun ∅ ins None) ⊆ E) by apply map_empty_subseteq.
  assert (H2 : closed (dom (r_env (mkRun ∅ ins None))) h).
  { cbn [r_env]. by rewrite dom_empty_L. }
  assert (H3 : r_inputs (mkRun ∅ ins None) = ins ++ [])
    by (cbn [r_inputs]; by rewrite app_nil_r).
  destruct (sub_run E h (mkRun ∅ ins None) ins [] H1 Hok H2 Hph H3)
    as (st' & Hrun & Hs' & Hi' & Hr' & Hd').
  cbn [r_env] in Hd'. rewrite dom_empty_L, (left_id_L ∅ (∪)) in Hd'.
  assert (Hb : forall x, x ∈ arg_refs a -> is_Some (r_env st' !! x)).
  { intros x Hx. apply elem_of_dom. rewrite Hd'.
    apply elem_of_list_to_set. by apply Ha. }
  rewrite <- (resolve_agree (r_env st') E a Hs' Hb).
  destruct (resolve_defined (r_env st') a Hb) as [r Hr].
  split; [by rewrite Hr|].
  unfold run_graph. rewrite run_nodes_app, Hrun. simpl.
  unfold run_step. cbn [op mk_output args]. rewrite Hr. simpl.
  by rewrite Hi'.
Qed.

(** *** What a run of the joint graph fixes *)

Lemma single_flat_output_inv g :
  single_flat_output g = true ->
  exists body out outs,
    g = body ++ [out]
    /\ Forall (fun n => op n ≠ output) body
    /\ op out = output
    /\ args out = [ASeq outs]
    /\ forallb (fun a => negb (is_seq a)) outs = true.
Proof.
  induction g as [|n g IH]; [done|].
  destruct g as [|m g].
  - simpl. unfold is_op, flat_output.
    intros [Hop Hf]%andb_true_iff. apply bool_decide_eq_true in Hop.
    destruct (args n) as [|[x|c|outs] [|? ?]] eqn:Ha; try done.
    destruct (kwargs n); [|done].
    exists [], n, outs. by repeat split.
  - cbn [single_flat_output]. intros [Hop Hg]%andb_true_iff.
    apply negb_true_iff in Hop. unfold is_op in Hop.
    apply bool_decide_eq_false in Hop.
    destruct (IH Hg) as (body & out & outs & -> & Hb & Ho & Ha & Hf).
    exists (n :: body), out, outs. rewrite Forall_cons. by repeat split.
Qed.

(** The values of a list of output elements in [E]. *)
Definition out_values E (outs : list (Arg V string)) : option (list (PyVal V)) :=
  mapM (resolve E) outs.

Lemma joint_run_facts g (ins : list V) (rJ : PyVal V) :
  wf_graph g = true ->
  single_flat_output g = true ->
  run_graph interp attr g ins = Some rJ ->
  exists E body out outs vals,
    g = body ++ [out]
    /\ Forall (fun n => op n ≠ output) body
    /\ op out = output
    /\ args out = [ASeq outs]
    /\ forallb (fun a => negb (is_seq a)) outs = true
    /\ valued E g
    /\ (forall p, ph_values E p g = Some (select_inputs p g ins))
    /\ out_values E outs = Some vals
    /\ rJ = ASeq vals.
Proof.
  intros Hwf Hsingle Hrun.
  destruct (single_flat_output_inv g Hsingle)
    as (body & out & outs & Hg & Hb & Ho & Ha & Hf).
  unfold run_graph in Hrun.
  destruct (run_nodes interp attr g (mkRun ∅ ins None)) as [st|] eqn:Hst;
    simpl in Hrun; [|done].
  destruct (run_nodes_spec g _ _ Hst (wf_graph_NoDup g Hwf))
    as (Hsub & Hval & Hph).
  { intros n _. apply lookup_empty. }
  rewrite Hg, run_nodes_app in Hst.
  destruct (run_nodes interp attr body (mkRun ∅ ins None)) as [st0|] eqn:Hst0;
    simpl in Hst; [|done].
  unfold run_step in Hst. rewrite Ho, Ha in Hst. simpl in Hst.
  destruct (mapM (resolve (r_env st0)) outs) as [vals|] eqn:Hvals;
    simpl in Hst; [|done].
  injection Hst as <-. simpl in *.
  destruct (r_inputs st0); [|done]. injection Hrun as <-.
  exists (r_env st0), body, out, outs, vals. by rewrite <- Hg.
Qed.

(** *** The default partitioner *)

Lemma mapR_Ok_Forall2 {A B} (f : A -> result B) (l : list A) (k : list B) :
  mapR f l = Ok k -> Forall2 (fun x y => f x = Ok y) l k.
Proof.
  revert k. induction l as [|x l IH]; intros k; simpl.
  - intros [= <-]. constructor.
  - destruct (f x) as [y|] eqn:Hx; simpl; [|done].
    destruct (mapR f l) as [ys|] eqn:Hl; simpl; [|done].
    intros [= <-]. constructor; [done|]. by apply IH.
Qed.

Lemma remap_arg_id (vr : gmap string string) (a a' : Arg V string) :
  remap_id vr -> remap_arg vr a = Ok a' ->
  a' = a /\ forall x, x ∈ arg_refs a -> is_Some (vr !! x).
Proof.
  intros Hid. revert a'.
  induction a as [y|c|l IH] using Arg_ind'; intros a'; simpl.
  - destruct (vr !! y) as [z|] eqn:Hy; [|done]. intros [= <-].
    pose proof (Hid _ _ Hy) as ->. split; [done|].
    intros x ->%list_elem_of_singleton. by rewrite Hy.
  - intros [= <-]. split; [done|]. intros x Hx. by apply elem_of_nil in Hx.
  - destruct (mapR (remap_arg vr) l) as [l'|] eqn:Hl; simpl; [|done].
    intros [= <-]. apply mapR_Ok_Forall2 in Hl.
    assert (H : l' = l /\ forall a, a ∈ l ->
                  forall x, x ∈ arg_refs a -> is_Some (vr !! x)).
    { clear -IH Hl. induction Hl as [|a b l l' Hab Hl IHl].
      - split; [done|]. intros a Ha. by apply elem_of_nil in Ha.
      - apply Forall_cons in IH as [Ha IH].
        destruct (Ha _ Hab) as [-> Hb]. destruct (IHl IH) as [-> Hl'].
        split; [done|].
        intros a' [->|Ha']%elem_of_cons; [exact Hb|exact (Hl' a' Ha')]. }
    destruct H as [-> H]. split; [done|].
    intros x Hx. apply list_elem_of_In, in_flat_map in Hx as (a & Ha & Hx).
    apply list_elem_of_In in Ha, Hx. by eapply H.
Qed.

Lemma node_copy_id (vr : gmap string string) n n' :
  remap_id vr -> node_copy vr n = Ok n' ->
  n' = n /\ forall x, x ∈ node_refs n -> is_Some (vr !! x).
Proof.
  intros Hid. unfold node_copy.
  destruct (mapR (remap_arg vr) (args n)) as [a|] eqn:Ha; simpl; [|done].
  destruct (mapR (remap_kwarg vr) (kwargs n)) as [k|] eqn:Hk; simpl; [|done].
  intros [= <-]. apply mapR_Ok_Forall2 in Ha, Hk.
  assert (Ha' : a = args n /\ forall x, x ∈ args_refs (args n) -> is_Some (vr !! x)).
  { clear -Hid Ha. induction Ha as [|x y l l' Hxy Hl IH].
    - split; [done|]. intros x Hx. by apply elem_of_nil in Hx.
    - destruct (remap_arg_id vr _ _ Hid Hxy) as [-> Hb].
      destruct IH as [-> IH]. split; [done|].
      intros z Hz. unfold args_refs in Hz. simpl in Hz.
      apply elem_of_app in Hz as [Hz|Hz]; auto. }
  assert (Hk' : k = kwargs n
            /\ forall x, x ∈ args_refs (snd <$> kwargs n) -> is_Some (vr !! x)).
  { clear -Hid Hk. induction Hk as [|x y l l' Hxy Hl IH].
    - split; [done|]. intros x Hx. by apply elem_of_nil in Hx.
    - unfold remap_kwarg in Hxy.
      destruct (remap_arg vr x.2) as [b|] eqn:Hb; simpl in Hxy; [|done].
      injection Hxy as <-.
      destruct (remap_arg_id vr _ _ Hid Hb) as [-> Hbb].
      destruct IH as [-> IH]. split; [by destruct x|].
      intros z Hz. unfold args_refs in Hz. simpl in Hz.
      apply elem_of_app in Hz as [Hz|Hz]; auto. }
  destruct Ha' as [-> Ha'], Hk' as [-> Hk']. split; [by destruct n|].
  intros x [Hx|Hx]%elem_of_app; auto.
Qed.

(** The nodes of the joint graph that have a value are evaluable. *)
Lemma valued_evaluable E g n :
  valued E g -> n ∈ g -> op n ≠ placeholder -> op n ≠ output ->
  evaluable E n.
Proof.
  intros Hval Hn H1 H2. destruct (Hval n Hn H1 H2) as (v & Hv & HE).
  exists v. split; [done|]. intros e Hsub Hb.
  by rewrite (node_value_agree e E n Hsub Hb).
Qed.

(** What the copying loops keep true of [value_remap] and the graph
    being built. *)
Definition copy_inv E (st : copy_state V) : Prop :=
  remap_id st.1
  /\ dom st.1 = list_to_set (name <$> st.2)
  /\ closed ∅ st.2
  /\ Forall (body_ok E) st.2.

Lemma copy_loop_correct E (keep : Node V -> bool) (l : Graph V)
    (st st' : copy_state V) :
  copy_loop keep l st = Ok st' ->
  (forall n, n ∈ l -> keep n = true -> body_ok E n) ->
  copy_inv E st ->
  copy_inv E st'
  /\ filter (fun n => op n = placeholder) st'.2
     = filter (fun n => op n = placeholder) st.2
       ++ filter (fun n => op n = placeholder) (filter (fun n => keep n = true) l).
Proof.
  revert st. induction l as [|n l IH]; intros st Hloop Hok Hinv.
  - simpl in Hloop. injection Hloop as <-. split; [done|].
    by rewrite app_nil_r.
  - simpl in Hloop. destruct (keep n) eqn:Hk.
    + unfold copy_node in Hloop.
      destruct (node_copy st.1 n) as [n'|] eqn:Hc; simpl in Hloop; [|done].
      destruct Hinv as (Hid & Hdom & Hcl & Hbody).
      destruct (node_copy_id _ _ _ Hid Hc) as [-> Hrefs].
      destruct (IH _ Hloop) as [Hinv' Hph].
      { intros m Hm. apply Hok, elem_of_cons. by right. }
      { split; [|split; [|split]]; simpl.
        - by apply remap_id_insert.
        - rewrite dom_insert_L, Hdom, fmap_app, list_to_set_app_L. simpl.
          set_solver.
        - apply closed_app. split; [done|]. simpl. split; [|done].
          intros x Hx. rewrite (left_id_L ∅ (∪)), <- Hdom.
          apply elem_of_dom. by apply Hrefs.
        - apply Forall_app. split; [done|]. apply Forall_singleton.
          apply Hok; [apply elem_of_cons; by left|done]. }
      split; [done|]. rewrite Hph. cbn [snd].
      rewrite filter_app, <- app_assoc. f_equal.
      rewrite (filter_cons_True (fun n => keep n = true)) by done.
      change (n :: filter (fun n => keep n = true) l)
        with ([n] ++ filter (fun n => keep n = true) l).
      by rewrite filter_app.
    + destruct (IH _ Hloop) as [Hinv' Hph]; [|done|].
      { intros m Hm. apply Hok, elem_of_cons. by right. }
      split; [done|]. rewrite Hph. f_equal.
      by rewrite (filter_cons_False (fun n => keep n = true))
        by (rewrite Hk; done).
Qed.

Lemma mapR_remap_key_refs (vr : gmap string string) (l l' : list (Arg V string)) :
  mapR (remap_key vr) l = Ok l' ->
  Forall (fun a => exists x, a = ARef x /\ is_Some (vr !! x)) l.
Proof.
  revert l'. induction l as [|a l IH]; intros l'; simpl; [constructor|].
  destruct a as [x|c|xs]; simpl; try done.
  destruct (vr !! x) as [y|] eqn:Hx; simpl; [|done].
  destruct (mapR (remap_key vr) l) as [ys|] eqn:Hl; simpl; [|done].
  intros _. constructor; [exists x; by rewrite Hx|by eapply IH].
Qed.

(** Output lists that consist of node references. *)
Definition all_refs (l : list (Arg V string)) : Prop :=
  Forall (fun a => exists x, a = ARef x) l.

Definition all_leaf_values (vals : list (PyVal V)) : Prop :=
  Forall (fun v => exists w, v = ARef w) vals.

Lemma out_values_refs E (l : list (Arg V string)) (vals : list (PyVal V)) :
  all_refs l -> out_values E l = Some vals -> all_leaf_values vals.
Proof.
  intros Hl. revert vals. induction Hl as [|a l [x ->] _ IH]; intros vals.
  - unfold out_values. simpl. intros [= <-]. constructor.
  - unfold out_values. simpl.
    destruct (E !! x) as [v|]; simpl; [|done].
    destruct (mapM (resolve E) l) as [vs|] eqn:Hvs; simpl; [|done].
    intros [= <-]. constructor; [eauto|]. by apply IH.
Qed.

Lemma normalize_unwrap_single (vals : list (PyVal V)) :
  all_leaf_values vals -> normalize_as_list (unwrap_single vals) = vals.
Proof.
  intros H. destruct vals as [|v [|v' vals]]; try done.
  apply Forall_cons in H as [[w ->] _]. done.
Qed.

Lemma resolve_unwrap_single E (l : list (Arg V string)) (vals : list (PyVal V)) :
  out_values E l = Some vals ->
  resolve E (unwrap_single l) = Some (unwrap_single vals).
Proof.
  unfold out_values. intros H.
  destruct l as [|a [|a' l]].
  - simpl in *. by injection H as <-.
  - simpl in H. cbn [unwrap_single].
    destruct (resolve E a) as [v|]; simpl in H; [|done].
    by injection H as <-.
  - assert (Hlen : length vals = length (a :: a' :: l)).
    { apply length_mapM in H. done. }
    destruct vals as [|v [|v' vals]]; try done.
    change (unwrap_single (a :: a' :: l)) with (ASeq (V:=V) (a :: a' :: l)).
    cbn [resolve]. rewrite H. done.
Qed.

Lemma out_values_app E (l1 l2 : list (Arg V string)) v1 v2 :
  out_values E l1 = Some v1 -> out_values E l2 = Some v2 ->
  out_values E (l1 ++ l2) = Some (v1 ++ v2).
Proof.
  unfold out_values. rewrite !mapM_Some. apply Forall2_app.
Qed.

Lemma out_values_take E (l : list (Arg V string)) vals (k : nat) :
  out_values E l = Some vals ->
  out_values E (take k l) = Some (take k vals).
Proof. unfold out_values. rewrite !mapM_Some. apply Forall2_take. Qed.

Lemma out_values_drop E (l : list (Arg V string)) vals (k : nat) :
  out_values E l = Some vals ->
  out_values E (drop k l) = Some (drop k vals).
Proof. unfold out_values. rewrite !mapM_Some. apply Forall2_drop. Qed.

Lemma out_values_length E (l : list (Arg V string)) vals :
  out_values E l = Some vals -> length vals = length l.
Proof. unfold out_values. intros H. apply length_mapM in H. done. Qed.

(** The values of saved names, as the forward returns them and as the
    backward placeholders expect them. *)
Lemma saved_values E (S : list string) :
  (forall s, s ∈ S -> is_Some (E !! s)) ->
  exists ws,
    mapM (fun s => E !! s) S = Some ws
    /\ out_values E (ARef <$> S) = Some (ARef <$> ws)
    /\ mapM as_value (ARef (V:=V) <$> ws) = Some ws.
Proof.
  induction S as [|s S IH]; intros Hb.
  - exists []. done.
  - destruct (Hb s) as [w Hw]; [apply elem_of_cons; by left|].
    destruct IH as (ws & H1 & H2 & H3).
    { intros s' Hs'. apply Hb, elem_of_cons. by right. }
    exists (w :: ws). unfold out_values in *.
    rewrite !mapM_Some in *. rewrite !fmap_cons.
    split; [by constructor|]. split; constructor; simpl; try done.
    by rewrite Hw.
Qed.

End Correctness.

(** ** Dead-code elimination *)

Section DeadCode.
Context {V : Type}.

(** Dead-code elimination keeps the placeholders and every node whose
    name is used, and leaves no reference dangling. *)
Lemma dce_fold_spec h (U0 : gset string) (l0 : Graph V) :
  exists k,
    (foldr dce_step (U0, l0) h).2 = k ++ l0
    /\ (forall n, n ∈ k -> n ∈ h)
    /\ filter (fun n => op n = placeholder) k
       = filter (fun n => op n = placeholder) h
    /\ U0 ⊆ (foldr dce_step (U0, l0) h).1
    /\ (forall n, n ∈ h -> name n ∈ U0 -> n ∈ k)
    /\ (forall S T : gset string, closed S h ->
          (forall x, x ∈ S -> x ∈ (foldr dce_step (U0, l0) h).1 -> x ∈ T) ->
          closed T k).
Proof.
  induction h as [|n h IH].
  - exists []. simpl. repeat split; done.
  - destruct IH as (k' & Hk & Hsub & Hph & HU & Hkeep & Hcl).
    cbn [foldr]. set (r := foldr dce_step (U0, l0) h) in *.
    unfold dce_step.
    destruct (is_impure n || bool_decide (name n ∈ r.1)) eqn:Hb.
    + exists (n :: k'). cbn [fst snd]. split; [by rewrite Hk|].
      split; [|split; [|split; [|split]]].
      * intros m [->|Hm]%elem_of_cons; apply elem_of_cons; auto.
      * destruct (decide (op n = placeholder)).
        -- rewrite !filter_cons_True by done. by rewrite Hph.
        -- rewrite !filter_cons_False by done. done.
      * set_solver.
      * intros m [->|Hm]%elem_of_cons Hu; apply elem_of_cons; auto.
      * intros S T [Hrefs HclS] HT. simpl. split.
        -- intros x Hx. apply HT; [by apply Hrefs|]. set_solver.
        -- apply (Hcl (S ∪ {[name n]})); [done|].
           intros x [Hx|Hx]%elem_of_union Hr; [|set_solver].
           apply elem_of_union. left. apply HT; [done|]. set_solver.
    + apply orb_false_iff in Hb as [Himp Hu].
      apply bool_decide_eq_false in Hu.
      assert (Hnp : op n ≠ placeholder).
      { intros Hop. unfold is_impure, is_op in Himp.
        by rewrite Hop in Himp. }
      exists k'. split; [done|]. split; [|split; [|split; [|split]]].
      * intros m Hm. apply elem_of_cons. auto.
      * by rewrite filter_cons_False.
      * done.
      * intros m [->|Hm]%elem_of_cons Hu'; [|auto].
        exfalso. apply Hu. by apply HU.
      * intros S T [Hrefs HclS] HT. apply (Hcl (S ∪ {[name n]})); [done|].
        intros x [Hx|Hx]%elem_of_union Hr; [by apply HT|].
        apply elem_of_singleton in Hx as ->. done.
Qed.

Lemma dce_output gr (a : Arg V string) :
  closed ∅ gr ->
  (forall x, x ∈ arg_refs a -> x ∈ name <$> gr) ->
  exists k,
    eliminate_dead_code (gr ++ [mk_output a]) = k ++ [mk_output a]
    /\ (forall n, n ∈ k -> n ∈ gr)
    /\ filter (fun n => op n = placeholder) k
       = filter (fun n => op n = placeholder) gr
    /\ closed ∅ k
    /\ (forall x, x ∈ arg_refs a -> x ∈ name <$> k).
Proof.
  intros Hcl Hrefs. unfold eliminate_dead_code. rewrite foldr_app.
  cbn [foldr]. unfold dce_step at 2.
  replace (is_impure (mk_output a)) with true by done. cbn [orb fst snd].
  destruct (dce_fold_spec gr (∅ ∪ list_to_set (node_refs (mk_output a)))
              [mk_output a]) as (k & Hk & Hsub & Hph & HU & Hkeep & Hclk).
  exists k. split; [done|]. split; [done|]. split; [done|]. split.
  - by apply (Hclk ∅ ∅).
  - intros x Hx. destruct (proj1 (list_elem_of_fmap _ _ _) (Hrefs x Hx))
      as (n & -> & Hn).
    apply list_elem_of_fmap. exists n. split; [done|]. apply Hkeep; [done|].
    apply elem_of_union. right. apply elem_of_list_to_set.
    unfold node_refs, args_refs. simpl. rewrite !app_nil_r. done.
Qed.

End DeadCode.

(** ** Correctness of the two partitioners *)

Section PartitionCorrect.
Context {V : Type}.
Variable interp : string -> list (Arg V V) -> list (string * Arg V V) -> V.
Variable attr : string -> V.
Implicit Types (g h body : Graph V) (n m out : Node V) (E : gmap string V).

Lemma output_node_last body out :
  op out = output -> output_node (color_walk (body ++ [out])) = Some out.
Proof.
  intros Hop. rewrite color_walk_snoc. unfold color_step, _is_tangent, is_op.
  rewrite Hop. rewrite bool_decide_eq_false_2 by done.
  rewrite bool_decide_eq_true_2 by done. done.
Qed.

Lemma wf_from_ph seen g n :
  wf_from seen g = true -> n ∈ g -> op n = placeholder -> node_refs n = [].
Proof.
  revert seen. induction g as [|m g IH]; intros seen; simpl.
  - intros _ Hn. by apply elem_of_nil in Hn.
  - rewrite !andb_true_iff. intros [[_ Hp] Hg] [->|Hn]%elem_of_cons Hop.
    + apply orb_true_iff in Hp as [Hp|Hp].
      * unfold is_op in Hp. rewrite negb_true_iff, bool_decide_eq_false in Hp.
        done.
      * by apply bool_decide_eq_true in Hp.
    + by eapply IH.
Qed.

Lemma placeholder_colored g n :
  wf_graph g = true -> n ∈ g -> op n = placeholder ->
  name n ∈ bw_nodes (color_walk g) <-> _is_tangent n = true.
Proof.
  intros Hwf Hn Hop.
  pose proof (wf_from_ph [] g n Hwf Hn Hop) as Hrefs.
  apply list_elem_of_split in Hn as (pre & post & ->).
  rewrite color_walk_bw_at, should_color_spec by done.
  rewrite Hrefs. split; [|by left].
  intros [?|(_ & a & Ha & _)]; [done|]. by apply elem_of_nil in Ha.
Qed.

Lemma output_not_colored body out :
  wf_graph (body ++ [out]) = true -> op out = output ->
  name out ∉ bw_nodes (color_walk (body ++ [out])).
Proof.
  intros Hwf Hop. rewrite color_walk_bw_at, should_color_spec by done.
  unfold _is_tangent, is_op. rewrite andb_true_iff, bool_decide_eq_true.
  intros [[? _]|[? _]]; congruence.
Qed.

Lemma node_in_refs n (l : list (Arg V string)) :
  node_in n l = true -> name n ∈ args_refs l.
Proof.
  unfold node_in. rewrite existsb_exists. intros (a & Ha & Hr).
  destruct a as [x|c|xs]; simpl in Hr; try done.
  apply bool_decide_eq_true in Hr as ->.
  eapply elem_of_args_refs; [by apply list_elem_of_In|]. simpl. set_solver.
Qed.

Lemma args_refs_drop (l : list (Arg V string)) k x :
  x ∈ args_refs (drop k l) -> x ∈ args_refs l.
Proof.
  unfold args_refs. rewrite <- (take_drop k l) at 2.
  rewrite flat_map_app, elem_of_app. auto.
Qed.

Lemma args_refs_take (l : list (Arg V string)) k x :
  x ∈ args_refs (take k l) -> x ∈ args_refs l.
Proof.
  unfold args_refs. rewrite <- (take_drop k l) at 2.
  rewrite flat_map_app, elem_of_app. auto.
Qed.

(** The output node is not among its own arguments. *)
Lemma output_not_in_outputs body out (outs : list (Arg V string)) k :
  wf_graph (body ++ [out]) = true -> args out = [ASeq outs] ->
  node_in out (drop k outs) = false.
Proof.
  intros Hwf Hargs. destruct (node_in out (drop k outs)) eqn:Hin; [|done].
  exfalso. apply node_in_refs, args_refs_drop in Hin.
  apply wf_from_snoc in Hwf as (_ & Hfresh & Hrefs & _).
  apply Hfresh, Hrefs. unfold node_refs. rewrite Hargs. simpl.
  rewrite app_nil_r. apply elem_of_app. by left.
Qed.

(** The joint run binds every node that is not the output node. *)
Lemma bound_of_run E g l :
  valued interp attr E g ->
  ph_values E (fun _ => true) g = Some l ->
  forall n, n ∈ g -> op n ≠ output -> is_Some (E !! name n).
Proof.
  intros Hval Hph n Hn Hout.
  destruct (decide (op n = placeholder)) as [Hop|Hop].
  - unfold ph_values in Hph. apply mapM_Some_Forall in Hph.
    rewrite Forall_forall in Hph. apply Hph.
    apply list_elem_of_filter. split; [|done].
    unfold is_op. by rewrite bool_decide_eq_true_2.
  - destruct (Hval n Hn Hop Hout) as (v & _ & Hv). eauto.
Qed.

Lemma arg_refs_unwrap_single (l : list (Arg V string)) :
  arg_refs (unwrap_single l) = args_refs l.
Proof.
  destruct l as [|a [|a' l]]; try done. simpl. by rewrite app_nil_r.
Qed.

Lemma fold_add_saved_placeholder_dom (l : list string) (st : copy_state V) :
  dom (fold_left add_saved_placeholder l st).1 = dom st.1 ∪ list_to_set l.
Proof.
  revert st. induction l as [|s l IH]; intros st; simpl.
  - by rewrite (right_id_L ∅ (∪)).
  - rewrite IH. simpl. rewrite dom_insert_L. set_solver.
Qed.

Lemma closed_placeholders (seen : gset string) (l : list string) :
  closed seen (@mk_placeholder V <$> l).
Proof.
  revert seen. induction l as [|s l IH]; intros seen; simpl; [done|].
  split; [|apply IH]. intros x Hx. by apply elem_of_nil in Hx.
Qed.

Lemma filter_placeholders (l : list string) :
  filter (fun n : Node V => op n = placeholder) (mk_placeholder <$> l)
  = mk_placeholder <$> l.
Proof.
  induction l as [|s l IH]; [done|].
  rewrite fmap_cons, filter_cons_True by done. by rewrite IH.
Qed.

Lemma mapM_app_Some {A B} (f : A -> option B) l1 l2 k1 k2 :
  mapM f l1 = Some k1 -> mapM f l2 = Some k2 ->
  mapM f (l1 ++ l2) = Some (k1 ++ k2).
Proof. rewrite !mapM_Some. apply Forall2_app. Qed.

Lemma mapM_placeholders E (l : list string) :
  mapM (fun n : Node V => E !! name n) (mk_placeholder <$> l)
  = mapM (fun s => E !! s) l.
Proof.
  induction l as [|s l IH]; [done|]. rewrite fmap_cons. simpl.
  destruct (E !! s); simpl; [|done]. by rewrite <- IH.
Qed.


Lemma remap_key_names (vr : gmap string string) (l l' : list (Arg V string)) h :
  mapR (remap_key vr) l = Ok l' ->
  dom vr = list_to_set (name <$> h) ->
  forall x, x ∈ args_refs l -> x ∈ name <$> h.
Proof.
  intros Hl Hdom x Hx. apply mapR_remap_key_refs in Hl.
  apply list_elem_of_In, in_flat_map in Hx as (a & Ha & Hx).
  apply list_elem_of_In in Ha, Hx. rewrite Forall_forall in Hl.
  destruct (Hl a Ha) as (y & -> & Hy). simpl in Hx.
  apply list_elem_of_singleton in Hx as ->.
  apply elem_of_dom in Hy. rewrite Hdom in Hy.
  by apply elem_of_list_to_set in Hy.
Qed.

Lemma remap_key_all_refs (vr : gmap string string) (l l' : list (Arg V string)) :
  mapR (remap_key vr) l = Ok l' -> all_refs l.
Proof.
  intros Hl. apply mapR_remap_key_refs in Hl. unfold all_refs.
  eapply Forall_impl; [exact Hl|]. intros a (x & -> & _). eauto.
Qed.

Lemma primal_tangent n :
  op n = placeholder -> _is_primal n = negb (_is_tangent n).
Proof.
  intros Hop. unfold _is_primal, _is_tangent, is_op.
  rewrite bool_decide_eq_true_2 by done. done.
Qed.

Lemma fw_placeholders g :
  wf_graph g = true ->
  filter (fun n => op n = placeholder)
    (filter (fun n => negb (bool_decide (name n ∈ bw_nodes (color_walk g)))
                      && negb (is_op output n) = true) g)
  = filter (fun n => is_op placeholder n && _is_primal n = true) g.
Proof.
  intros Hwf. rewrite list_filter_filter. apply filter_ext_in. intros n Hn.
  rewrite !andb_true_iff, !negb_true_iff. unfold is_op at 2.
  rewrite !bool_decide_eq_false, bool_decide_eq_true. split.
  - intros (Hop & Hbw & _). split; [done|].
    rewrite primal_tangent by done. apply negb_true_iff.
    destruct (_is_tangent n) eqn:Ht; [|done].
    exfalso. apply Hbw. by apply placeholder_colored.
  - intros [Hop Hp]. split; [done|]. split.
    + rewrite placeholder_colored by done.
      rewrite primal_tangent in Hp by done.
      apply negb_true_iff in Hp. by rewrite Hp.
    + unfold is_op. rewrite bool_decide_eq_false. congruence.
Qed.

Lemma bw_placeholders g (outs : list (Arg V string)) :
  wf_graph g = true ->
  forallb (fun n => negb (_is_primal n && node_in n outs)) g = true ->
  filter (fun n => op n = placeholder)
    (filter (fun n => bool_decide (name n ∈ bw_nodes (color_walk g))
                      || node_in n outs = true) g)
  = filter (fun n => is_op placeholder n && _is_tangent n = true) g.
Proof.
  intros Hwf Hgnp. rewrite list_filter_filter. apply filter_ext_in. intros n Hn.
  rewrite andb_true_iff, orb_true_iff. unfold is_op at 1.
  rewrite !bool_decide_eq_true. split.
  - intros (Hop & [Hbw|Hin]); (split; [done|]).
    + by apply (proj1 (placeholder_colored g n Hwf Hn Hop)).
    + rewrite forallb_forall in Hgnp. apply list_elem_of_In in Hn.
      specialize (Hgnp n Hn). rewrite Hin, andb_true_r in Hgnp.
      rewrite primal_tangent in Hgnp by done.
      by destruct (_is_tangent n).
  - intros [Hop Ht]. split; [done|]. left. by apply placeholder_colored.
Qed.


(** Whenever [default_partition] returns on a joint graph that runs,
    the forward graph followed by the backward graph computes what the
    joint graph computes. *)
Lemma default_partition_correct set_iter (M : GraphModule V)
    (ins : list V) (rJ : PyVal V) fw bw :
  wf_joint M = true ->
  grads_not_primals M = true ->
  run_graph interp attr (graph M) ins = Some rJ ->
  default_partition set_iter M = Ok (fw, bw) ->
  threaded_run interp attr fw bw (num_fwd_leaves M)
    (select_inputs _is_primal (graph M) ins)
    (select_inputs _is_tangent (graph M) ins)
  = Some (take (num_fwd_leaves M) (normalize_as_list rJ),
          drop (num_fwd_leaves M) (normalize_as_list rJ)).
Proof.
  destruct M as [g nf nb]. unfold wf_joint, grads_not_primals.
  cbn [graph num_fwd_leaves num_bwd_leaves].
  intros Hwfj Hgnp Hrun.
  apply andb_true_iff in Hwfj as [Hwfj Hlen].
  apply andb_true_iff in Hwfj as [Hwf Hsingle].
  apply bool_decide_eq_true in Hlen.
  destruct (joint_run_facts interp attr g ins rJ Hwf Hsingle Hrun)
    as (E & body & out & outs & vals & Hg & Hbody & Hop & Hargs & Hflat
        & Hval & Hph & Hvals & ->).
  assert (HJ : joint_outputs g = outs).
  { unfold joint_outputs. by rewrite Hg, last_snoc, Hargs. }
  rewrite HJ in Hlen, Hgnp.
  pose proof (out_values_length E outs vals Hvals) as Hlv.
  assert (Hout : forall n, n ∈ g -> op n = output -> n = out).
  { intros n Hn Ho. rewrite Hg in Hn.
    apply elem_of_app in Hn as [Hn|Hn%list_elem_of_singleton]; [|done].
    rewrite Forall_forall in Hbody. by destruct (Hbody n Hn). }
  unfold default_partition. cbn [graph num_fwd_leaves num_bwd_leaves].
  assert (Hon : output_node (color_walk g) = Some out).
  { rewrite Hg. by apply output_node_last. }
  rewrite Hon. cbn [mbind result_bind]. unfold out_args0. rewrite Hargs.
  cbn [mbind result_bind].
  set (S := set_iter (saved_nodes (color_walk g))).
  bind_case stb Hb.
  case_bool_decide; simpl; [|done].
  bind_case bouts Hbo.
  bind_case stf Hf.
  bind_case fo Hfo.
  bind_case fs Hfs.
  intros [= <- <-].
  (* the forward graph *)
  destruct (copy_loop_correct interp attr E _ g (∅, []) stf Hf)
    as [(Hidf & Hdomf & Hclf & Hokf) Hphf].
  { intros n Hn Hk. apply andb_true_iff in Hk as [_ Hk].
    apply negb_true_iff in Hk. unfold is_op in Hk.
    apply bool_decide_eq_false in Hk. split; [done|].
    destruct (decide (op n = placeholder)); [by left|right].
    by eapply valued_evaluable. }
  { split; [|split; [|split]]; simpl; done. }
  cbn [fst snd] in Hphf. rewrite app_nil_l, fw_placeholders in Hphf by done.
  pose proof (remap_key_all_refs _ _ _ Hfo) as Hrfo.
  pose proof (remap_key_all_refs _ _ _ Hfs) as Hrfs.
  pose proof (remap_key_names _ _ _ _ Hfo Hdomf) as Hnfo.
  pose proof (remap_key_names _ _ _ _ Hfs Hdomf) as Hnfs.
  apply mapR_remap_key_id in Hfo, Hfs; try done. subst fo fs.
  destruct (run_body_output interp attr E stf.2
              (unwrap_single (take nf outs ++ (ARef <$> S)))
              (select_inputs _is_primal g ins)) as [HsomeF HrunF]; try done.
  { rewrite Hphf. apply Hph. }
  { intros x. rewrite arg_refs_unwrap_single. unfold args_refs.
    rewrite flat_map_app, elem_of_app. intros [Hx|Hx]; auto. }
  destruct (saved_values E S) as (ws & Hws & HoS & Hav).
  { intros s Hs. eapply resolve_bound; [exact HsomeF|].
    rewrite arg_refs_unwrap_single. unfold args_refs.
    rewrite flat_map_app, elem_of_app. right.
    apply (elem_of_args_refs _ (ARef s));
      [|apply list_elem_of_singleton; reflexivity].
    apply list_elem_of_fmap. by exists s. }
  pose proof (out_values_app _ _ _ _ _
                (out_values_take E outs vals nf Hvals) HoS) as HoF.
  rewrite (resolve_unwrap_single _ _ _ HoF) in HrunF.
  assert (HleafF : all_leaf_values (take nf vals ++ (ARef <$> ws))).
  { eapply out_values_refs; [|exact HoF]. by apply Forall_app. }
  (* the backward graph *)
  destruct (fold_add_saved_placeholder (V:=V) S (∅, [])) as [Hid0 Hgr0].
  pose proof (fold_add_saved_placeholder_dom S (∅, [])) as Hdom0.
  cbn [fst snd] in Hid0, Hgr0, Hdom0. rewrite app_nil_l in Hgr0.
  destruct (copy_loop_correct interp attr E _ g _ stb Hb)
    as [(Hidb & Hdomb & Hclb & Hokb) Hphb].
  { intros n Hn Hk. assert (Hno : op n ≠ output).
    { intros Ho. pose proof (Hout n Hn Ho) as ->.
      rewrite Hg in Hwf. apply orb_true_iff in Hk as [Hk|Hk].
      - apply bool_decide_eq_true in Hk. rewrite Hg in Hk.
        by apply (output_not_colored body out Hwf Hop).
      - by rewrite (output_not_in_outputs body out outs nf Hwf Hargs) in Hk. }
    split; [done|].
    destruct (decide (op n = placeholder)); [by left|right].
    by eapply valued_evaluable. }
  { split; [|split; [|split]].
    - apply Hid0. intros k v. by rewrite lookup_empty.
    - rewrite Hdom0, Hgr0, dom_empty_L, (left_id_L ∅ (∪)).
      f_equal. rewrite <- list_fmap_compose. symmetry. apply list_fmap_id.
    - rewrite Hgr0. apply closed_placeholders.
    - rewrite Hgr0. apply Forall_fmap, Forall_forall. intros s _.
      split; [done|by left]. }
  rewrite Hgr0, filter_placeholders, bw_placeholders in Hphb by done.
  pose proof (remap_key_all_refs _ _ _ Hbo) as Hrbo.
  pose proof (remap_key_names _ _ _ _ Hbo Hdomb) as Hnbo.
  apply mapR_remap_key_id in Hbo; [|done]. subst bouts.
  destruct (run_body_output interp attr E stb.2
              (unwrap_single (drop nf outs))
              (ws ++ select_inputs _is_tangent g ins)) as [_ HrunB]; try done.
  { rewrite Hphb. apply mapM_app_Some; [|apply Hph].
    by rewrite mapM_placeholders. }
  { intros x. rewrite arg_refs_unwrap_single. apply Hnbo. }
  pose proof (out_values_drop E outs vals nf Hvals) as HoB.
  rewrite (resolve_unwrap_single _ _ _ HoB) in HrunB.
  assert (HleafB : all_leaf_values (drop nf vals)).
  { eapply out_values_refs; [|exact HoB]. done. }
  (* threading the two runs *)
  unfold threaded_run. rewrite HrunF. cbn [mbind option_bind].
  rewrite (normalize_unwrap_single _ HleafF).
  assert (Hnf : length (take nf vals) = nf) by (rewrite length_take; lia).
  rewrite drop_app_length', take_app_length' by done.
  rewrite Hav. cbn [mbind option_bind]. rewrite HrunB. cbn [mbind option_bind].
  by rewrite (normalize_unwrap_single _ HleafB).
Qed.


(** ** Correctness of the subgraph extractor *)

(** What the loop of [_extract_graph_with_inputs_outputs] keeps true of
    [env], for the nodes named in [B] and the names [nms] of the graph
    being built: a proxy stands for the node of the same name, a value
    is the value of the node in the joint run. *)
Definition env_ok E (B nms : list string) (env : gmap string (env_val V))
  : Prop :=
  (forall x y, env !! x = Some (EProxy y) -> y = x /\ x ∈ B /\ x ∈ nms)
  /\ (forall x v, env !! x = Some (EConst v) -> E !! x = Some v).

Lemma env_ok_mono E B nms nms' env :
  (forall x, x ∈ nms -> x ∈ nms') -> env_ok E B nms env -> env_ok E B nms' env.
Proof.
  intros Hsub [H1 H2]. split; [|done].
  intros x y Hx. destruct (H1 x y Hx) as (? & ? & ?). auto.
Qed.

Lemma env_ok_invalid E B nms env x :
  env_ok E B nms env -> env_ok E B nms (<[x := EInvalid]> env).
Proof.
  intros [H1 H2]. split; intros z w; rewrite lookup_insert;
    case_decide; try done; [apply H1|apply H2].
Qed.

Lemma env_ok_proxy E B nms env x :
  env_ok E B nms env -> x ∈ B -> x ∈ nms ->
  env_ok E B nms (<[x := EProxy x]> env).
Proof.
  intros [H1 H2] HB Hn. split; intros z w; rewrite lookup_insert;
    case_decide; subst; try done; [|apply H1|apply H2].
  by intros [= <-].
Qed.

Lemma env_ok_const E B nms env x v :
  env_ok E B nms env -> E !! x = Some v ->
  env_ok E B nms (<[x := EConst v]> env).
Proof.
  intros [H1 H2] Hv. split; intros z w; rewrite lookup_insert;
    case_decide; subst; try done; [apply H1| |apply H2].
  by intros [= <-].
Qed.

(** Mapping an argument to proxies keeps its value and leaves only
    references to proxies. *)
Lemma map_arg_to_proxy_ok E B nms env (a a' : Arg V string) :
  env_ok E B nms env ->
  map_arg_to_proxy env a = Ok a' ->
  resolve E a' = resolve E a
  /\ forall x, x ∈ arg_refs a' -> x ∈ nms.
Proof.
  intros [H1 H2]. revert a'.
  induction a as [x|c|l IH] using Arg_ind'; intros a'; simpl.
  - unfold env_lookup. destruct (env !! x) as [[y|v|]|] eqn:Hx; simpl;
      try done; intros [= <-].
    + destruct (H1 _ _ Hx) as (-> & _ & Hn). split; [done|].
      intros z ->%list_elem_of_singleton. done.
    + simpl. rewrite (H2 _ _ Hx). split; [done|].
      intros z Hz. by apply elem_of_nil in Hz.
  - intros [= <-]. split; [done|]. intros z Hz. by apply elem_of_nil in Hz.
  - destruct (mapR (map_arg_to_proxy env) l) as [l'|] eqn:Hl; simpl; [|done].
    intros [= <-]. apply mapR_Ok_Forall2 in Hl.
    assert (H : mapM (resolve E) l' = mapM (resolve E) l
                /\ forall x, x ∈ flat_map arg_refs l' -> x ∈ nms).
    { clear -IH Hl. induction Hl as [|a b l l' Hab Hl IHl].
      - split; [done|]. intros x Hx. by apply elem_of_nil in Hx.
      - apply Forall_cons in IH as [Ha IH].
        destruct (Ha _ Hab) as [Hr Hb]. destruct (IHl IH) as [Hm Hl'].
        split.
        + simpl. by rewrite Hr, Hm.
        + simpl. intros x [Hx|Hx]%elem_of_app; auto. }
    destruct H as [Hm Hr]. simpl. by rewrite Hm.
Qed.


Lemma mapM_cons_congr {A A' B} (f : A -> option B) (f' : A' -> option B)
    x x' l l' :
  f x = f' x' -> mapM f l = mapM f' l' -> mapM f (x :: l) = mapM f' (x' :: l').
Proof. intros H1 H2. simpl. by rewrite H1, H2. Qed.

Lemma map_args_ok E B nms env (l l' : list (Arg V string)) :
  env_ok E B nms env ->
  mapR (map_arg_to_proxy env) l = Ok l' ->
  mapM (resolve E) l' = mapM (resolve E) l
  /\ forall x, x ∈ args_refs l' -> x ∈ nms.
Proof.
  intros Hok Hl. apply mapR_Ok_Forall2 in Hl.
  induction Hl as [|a b l l' Hab Hl IH].
  - split; [done|]. intros x Hx. by apply elem_of_nil in Hx.
  - destruct (map_arg_to_proxy_ok E B nms env a b Hok Hab) as [Hr Hb].
    destruct IH as [Hm Hl']. split.
    + simpl. by rewrite Hr, Hm.
    + unfold args_refs. simpl. intros x [Hx|Hx]%elem_of_app; auto.
Qed.

Lemma map_kwargs_ok E B nms env (k k' : list (string * Arg V string)) :
  env_ok E B nms env ->
  mapR (map_kwarg_to_proxy env) k = Ok k' ->
  mapM (resolve_kw E) k' = mapM (resolve_kw E) k
  /\ forall x, x ∈ args_refs (snd <$> k') -> x ∈ nms.
Proof.
  intros Hok Hl. apply mapR_Ok_Forall2 in Hl.
  induction Hl as [|a b l l' Hab Hl IH].
  - split; [done|]. intros x Hx. by apply elem_of_nil in Hx.
  - unfold map_kwarg_to_proxy in Hab.
    destruct (map_arg_to_proxy env a.2) as [c|] eqn:Hc; simpl in Hab; [|done].
    injection Hab as <-.
    destruct (map_arg_to_proxy_ok E B nms env _ _ Hok Hc) as [Hr Hb].
    destruct IH as [Hm Hl']. split.
    + apply mapM_cons_congr; [|done]. unfold resolve_kw. simpl.
      by rewrite Hr.
    + unfold args_refs. simpl. intros x [Hx|Hx]%elem_of_app; auto.
Qed.

Lemma mapM_resolve_mono e E (l : list (Arg V string)) r :
  e ⊆ E -> mapM (resolve e) l = Some r -> mapM (resolve E) l = Some r.
Proof.
  intros Hsub Hl. rewrite <- Hl. symmetry.
  apply mapM_ext_Forall. apply mapM_Some_Forall in Hl.
  eapply Forall_impl; [exact Hl|]. intros a Ha.
  apply (resolve_agree interp attr e E a Hsub). by apply resolve_bound.
Qed.

Lemma mapM_resolve_kw_mono e E (l : list (string * Arg V string)) r :
  e ⊆ E -> mapM (resolve_kw e) l = Some r -> mapM (resolve_kw E) l = Some r.
Proof.
  intros Hsub Hl. rewrite <- Hl. symmetry.
  apply mapM_ext_Forall. apply mapM_Some_Forall in Hl.
  eapply Forall_impl; [exact Hl|]. intros a Ha.
  apply (resolve_kw_agree interp attr e E a Hsub). apply resolve_bound.
  unfold resolve_kw in Ha. destruct (resolve e a.2); [eauto|by destruct Ha].
Qed.

(** A node of the new graph that computes what its source computes. *)
Lemma new_node_evaluable E n n' v :
  name n' = name n -> op n' = op n -> target n' = target n ->
  mapM (resolve E) (args n') = mapM (resolve E) (args n) ->
  mapM (resolve_kw E) (kwargs n') = mapM (resolve_kw E) (kwargs n) ->
  node_value interp attr E n = Some v -> E !! name n = Some v ->
  evaluable interp attr E n'.
Proof.
  intros Hname Hop Htgt Ha Hk Hv HE. exists v. split; [by rewrite Hname|].
  intros e Hsub Hb. rewrite (node_value_agree interp attr e E n' Hsub Hb).
  unfold node_value in *. by rewrite Hop, Htgt, Ha, Hk.
Qed.

Definition ext_inv E (B inputs : list string) (st : extract_state V) : Prop :=
  env_ok E B (name <$> st.2) st.1
  /\ closed ∅ st.2
  /\ Forall (body_ok interp attr E) st.2
  /\ filter (fun n => op n = placeholder) st.2 = mk_placeholder <$> inputs.

(** What the joint run says of a node that is not the output node. *)
Definition joint_ok E (B : list string) n : Prop :=
  name n ∈ B /\ op n ≠ output
  /\ (op n ≠ placeholder ->
      exists v, node_value interp attr E n = Some v /\ E !! name n = Some v).

Lemma ext_inv_snoc E B inputs (st : extract_state V) n n' v :
  ext_inv E B inputs st ->
  name n ∈ B ->
  name n' = name n -> op n' = op n -> target n' = target n ->
  op n ≠ placeholder -> op n ≠ output ->
  mapM (resolve E) (args n') = mapM (resolve E) (args n) ->
  mapM (resolve_kw E) (kwargs n') = mapM (resolve_kw E) (kwargs n) ->
  (forall x, x ∈ node_refs n' -> x ∈ name <$> st.2) ->
  node_value interp attr E n = Some v -> E !! name n = Some v ->
  ext_inv E B inputs (<[name n := EProxy (name n)]> st.1, st.2 ++ [n']).
Proof.
  intros (Henv & Hcl & Hok & Hph) HB Hname Hop Htgt Hnp Hno Ha Hk Hrefs Hv HE.
  split; [|split; [|split]]; cbn [fst snd].
  - apply env_ok_proxy; [|done|].
    + eapply env_ok_mono; [|done]. intros x Hx. rewrite fmap_app.
      apply elem_of_app. by left.
    + rewrite fmap_app. apply elem_of_app. right. simpl. rewrite Hname.
      by apply list_elem_of_singleton.
  - apply closed_app. split; [done|]. simpl. split; [|done].
    intros x Hx. rewrite (left_id_L ∅ (∪)). apply elem_of_list_to_set. auto.
  - apply Forall_app. split; [done|]. apply Forall_singleton.
    split; [congruence|]. right. by eapply new_node_evaluable.
  - rewrite filter_app, Hph, filter_cons_False, filter_nil, app_nil_r;
      [done|congruence].
Qed.


Lemma extract_step_ok E B inputs (st st' : extract_state V) n :
  ext_inv E B inputs st -> joint_ok E B n ->
  extract_step interp inputs st n = Ok st' ->
  ext_inv E B inputs st'.
Proof.
  intros Hinv (HB & Hno & Hv). pose proof Hinv as (Henv & Hcl & Hok & Hph).
  unfold extract_step. case_bool_decide as Hin.
  - intros [= <-]. split; [|done]. cbn [fst snd].
    apply env_ok_proxy; [done|done|].
    assert (Hm : mk_placeholder (name n)
                 ∈ filter (fun n => op n = placeholder) st.2).
    { rewrite Hph. apply list_elem_of_fmap. by exists (name n). }
    apply list_elem_of_filter in Hm as [_ Hm].
    apply list_elem_of_fmap. by exists (mk_placeholder (name n)).
  - destruct (op n) eqn:Hop.
    + intros [= <-]. split; [|done]. by apply env_ok_invalid.
    + destruct Hv as (v & Hnv & HE); [done|].
      bind_case vals Hvals.
      destruct (existsb is_invalid vals).
      { intros [= <-]. split; [|done]. by apply env_ok_invalid. }
      bind_case a Ha. bind_case k Hk.
      destruct (target n) as [s|f] eqn:Ht; simpl; [done|].
      destruct (map_args_ok _ _ _ _ _ _ Henv Ha) as [Har Hab].
      destruct (map_kwargs_ok _ _ _ _ _ _ Henv Hk) as [Hkr Hkb].
      destruct (existsb is_proxy vals).
      * intros [= <-]. eapply ext_inv_snoc; try done; try congruence.
        intros x [Hx|Hx]%elem_of_app; auto.
      * destruct (mapM (resolve ∅) a) as [a'|] eqn:Ha'; [|done].
        destruct (mapM (resolve_kw ∅) k) as [k'|] eqn:Hk'; [|done].
        intros [= <-]. split; [|done]. cbn [fst snd].
        apply env_ok_const; [done|]. rewrite HE. f_equal.
        unfold node_value in Hnv. rewrite Hop, Ht, <- Har, <- Hkr in Hnv.
        rewrite (mapM_resolve_mono ∅ E a a') in Hnv;
          [|apply map_empty_subseteq|done].
        rewrite (mapM_resolve_kw_mono ∅ E k k') in Hnv;
          [|apply map_empty_subseteq|done].
        simpl in Hnv. by injection Hnv.
    + by intros [= <-].
    + by intros [= <-].
    + destruct Hv as (v & Hnv & HE); [done|].
      bind_case a Ha. bind_case k Hk.
      destruct (map_args_ok _ _ _ _ _ _ Henv Ha) as [Har Hab].
      destruct (map_kwargs_ok _ _ _ _ _ _ Henv Hk) as [Hkr Hkb].
      intros [= <-]. eapply ext_inv_snoc; try done; try congruence.
      intros x [Hx|Hx]%elem_of_app; auto.
    + done.
Qed.

Lemma extract_loop_ok E B inputs h (st st' : extract_state V) :
  ext_inv E B inputs st -> Forall (joint_ok E B) h ->
  extract_loop interp inputs h st = Ok st' ->
  ext_inv E B inputs st'.
Proof.
  revert st. induction h as [|n h IH]; intros st Hinv Hh; simpl.
  - by intros [= <-].
  - apply Forall_cons in Hh as [Hn Hh]. bind_case st1 Hs.
    apply IH; [|done]. by eapply extract_step_ok.
Qed.

Lemma extract_loop_app inputs h1 h2 (st : extract_state V) :
  extract_loop interp inputs (h1 ++ h2) st
  = extract_loop interp inputs h1 st ≫= extract_loop interp inputs h2.
Proof.
  revert st. induction h1 as [|n h1 IH]; intros st; simpl; [done|].
  destruct (extract_step interp inputs st n); simpl; [apply IH|done].
Qed.


Lemma env_node_ok E B nms env (l l' : list (Arg V string)) :
  env_ok E B nms env -> mapR (env_node env) l = Ok l' ->
  l' = l /\ all_refs l /\ forall x, x ∈ args_refs l -> x ∈ B /\ x ∈ nms.
Proof.
  intros [H1 _]. revert l'. induction l as [|a l IH]; intros l'; simpl.
  - intros [= <-]. split; [done|]. split; [constructor|].
    intros x Hx. by apply elem_of_nil in Hx.
  - destruct a as [x|c|xs]; simpl; try done. unfold env_lookup.
    destruct (env !! x) as [[y|v|]|] eqn:Hx; simpl; try done.
    destruct (mapR (env_node env) l) as [ys|] eqn:Hl; simpl; [|done].
    intros [= <-]. destruct (IH ys eq_refl) as (-> & Hr & Hn).
    destruct (H1 _ _ Hx) as (-> & HB & Hnm).
    split; [done|]. split; [constructor; eauto|].
    unfold args_refs. simpl. intros z [->|Hz]%elem_of_cons; auto.
Qed.

Lemma mapM_names E (l : list (Node V)) :
  mapM (fun s => E !! s) (name <$> l) = mapM (fun n => E !! name n) l.
Proof.
  induction l as [|n l IH]; [done|]. rewrite fmap_cons. simpl.
  destruct (E !! name n); simpl; [|done]. by rewrite IH.
Qed.

(** The graph cut out of a joint graph that ran computes, from the
    values of its inputs in that run, the values of its outputs in that
    run. *)
Lemma extract_graph_run E B body out (inputs : list (Node V))
    (outputs : list (Arg V string)) G (ins : list V) :
  op out = output -> name out ∉ name <$> inputs ->
  Forall (joint_ok E B) body ->
  (forall x, x ∈ B -> is_Some (E !! x)) ->
  _extract_graph_with_inputs_outputs interp (body ++ [out]) inputs outputs
    = Ok G ->
  mapM (fun n => E !! name n) inputs = Some ins ->
  exists vals,
    out_values E outputs = Some vals
    /\ all_refs outputs
    /\ (forall x, x ∈ args_refs outputs -> x ∈ B)
    /\ run_graph interp attr G ins = Some (ASeq vals).
Proof.
  intros Hop Hfresh Hbody HB. unfold _extract_graph_with_inputs_outputs.
  rewrite extract_loop_app.
  destruct (extract_loop interp (name <$> inputs) body
              (∅, mk_placeholder <$> (name <$> inputs))) as [st1|] eqn:H1;
    [|done].
  assert (Hinv : ext_inv E B (name <$> inputs) st1).
  { eapply extract_loop_ok; [|exact Hbody|exact H1].
    split; [|split; [|split]]; cbn [fst snd].
    - split; intros x y; by rewrite lookup_empty.
    - apply closed_placeholders.
    - apply Forall_fmap, Forall_forall. intros s _. split; [done|by left].
    - apply filter_placeholders. }
  cbn [mbind result_bind extract_loop]. unfold extract_step.
  rewrite bool_decide_eq_false_2 by done. rewrite Hop.
  cbn [mbind result_bind].
  bind_case outs Houts. intros [= <-] Hins.
  destruct Hinv as (Henv & Hcl & Hok & Hph).
  destruct (env_node_ok _ _ _ _ _ _ Henv Houts) as (-> & Hrefs & Hnames).
  destruct (dce_output st1.2 (ASeq outputs) Hcl)
    as (k & -> & Hsub & Hphk & Hclk & Hrk).
  { intros x Hx. by apply Hnames. }
  destruct (run_body_output interp attr E k (ASeq outputs) ins)
    as [[r Hr] Hrun]; try done.
  { rewrite Forall_forall in Hok. apply Forall_forall. auto. }
  { by rewrite Hphk, Hph, mapM_placeholders, mapM_names. }
  rewrite Hrun. simpl in Hr.
  destruct (mapM (resolve E) outputs) as [vals|] eqn:Hv; [|done].
  exists vals. split; [done|]. split; [done|].
  split; [|simpl; by rewrite Hv].
  intros x Hx. by apply Hnames.
Qed.


Lemma filter_none {A} (P : A -> Prop) `{!forall x, Decision (P x)} (l : list A) :
  Forall (fun x => ~ P x) l -> filter P l = [].
Proof.
  induction 1 as [|x l Hx _ IH]; [done|]. by rewrite filter_cons_False.
Qed.

Lemma flat_leaves (outs : list (Arg V string)) :
  forallb (fun a => negb (is_seq a)) outs = true ->
  flat_map arg_leaves outs = outs.
Proof.
  induction outs as [|a outs IH]; [done|]. simpl.
  intros [Ha Ho]%andb_true_iff. rewrite IH by done.
  by destruct a.
Qed.

Lemma joint_leaves body out (outs : list (Arg V string)) :
  Forall (fun n => op n ≠ output) body -> op out = output ->
  args out = [ASeq outs] ->
  forallb (fun a => negb (is_seq a)) outs = true ->
  flat_map (fun n => flat_map arg_leaves (args n))
    (filter (fun n => op n = output) (body ++ [out])) = outs.
Proof.
  intros Hbody Hop Hargs Hflat.
  rewrite filter_app, (filter_none _ body), filter_cons_True by done.
  simpl. rewrite Hargs. simpl. rewrite !app_nil_r. by apply flat_leaves.
Qed.

Lemma name_out_fresh body out (p : Node V -> bool) :
  wf_graph (body ++ [out]) = true -> op out = output ->
  (forall n, p n = true -> op n = placeholder) ->
  name out ∉ name <$> filter (fun n => p n = true) (body ++ [out]).
Proof.
  intros Hwf Hop Hp. apply wf_from_snoc in Hwf as (_ & Hfresh & _).
  simpl in Hfresh.
  intros (n & Hname & Hn)%list_elem_of_fmap.
  apply list_elem_of_filter in Hn as [Hpn Hn].
  apply elem_of_app in Hn as [Hn|Hn%list_elem_of_singleton].
  - apply Hfresh. rewrite Hname. apply list_elem_of_fmap. eauto.
  - subst n. apply Hp in Hpn. congruence.
Qed.

Lemma is_primal_placeholder n : _is_primal n = true -> op n = placeholder.
Proof.
  unfold _is_primal, is_op. intros [H _]%andb_true_iff.
  by apply bool_decide_eq_true in H.
Qed.

Lemma is_tangent_placeholder n : _is_tangent n = true -> op n = placeholder.
Proof.
  unfold _is_tangent, is_op. intros [H _]%andb_true_iff.
  by apply bool_decide_eq_true in H.
Qed.

Lemma ph_values_primal E g :
  ph_values E _is_primal g
  = mapM (fun n => E !! name n) (filter (fun n => _is_primal n = true) g).
Proof.
  unfold ph_values. f_equal. apply list_filter_iff. intros n.
  rewrite andb_true_iff. split; [tauto|]. intros Hp. split; [|done].
  apply is_primal_placeholder in Hp. unfold is_op.
  by apply bool_decide_eq_true.
Qed.

Lemma ph_values_tangent E g :
  ph_values E _is_tangent g
  = mapM (fun n => E !! name n) (filter (fun n => _is_tangent n = true) g).
Proof.
  unfold ph_values. f_equal. apply list_filter_iff. intros n.
  rewrite andb_true_iff. split; [tauto|]. intros Hp. split; [|done].
  apply is_tangent_placeholder in Hp. unfold is_op.
  by apply bool_decide_eq_true.
Qed.

(** Whenever [_extract_fwd_bwd_modules] returns on a joint graph that
    runs, whatever the saved values it was given, the forward graph
    followed by the backward graph computes what the joint graph
    computes. *)
Lemma extract_fwd_bwd_modules_correct (M : GraphModule V)
    (saved : list (Node V)) (ins : list V) (rJ : PyVal V) fw bw :
  wf_joint M = true ->
  run_graph interp attr (graph M) ins = Some rJ ->
  _extract_fwd_bwd_modules interp M saved = Ok (fw, bw) ->
  threaded_run interp attr fw bw (num_fwd_leaves M)
    (select_inputs _is_primal (graph M) ins)
    (select_inputs _is_tangent (graph M) ins)
  = Some (take (num_fwd_leaves M) (normalize_as_list rJ),
          drop (num_fwd_leaves M) (normalize_as_list rJ)).
Proof.
  destruct M as [g nf nb]. unfold wf_joint.
  cbn [graph num_fwd_leaves num_bwd_leaves].
  intros Hwfj Hrun.
  apply andb_true_iff in Hwfj as [Hwfj Hlen].
  apply andb_true_iff in Hwfj as [Hwf Hsingle].
  apply bool_decide_eq_true in Hlen.
  destruct (joint_run_facts interp attr g ins rJ Hwf Hsingle Hrun)
    as (E & body & out & outs & vals & Hg & Hbody & Hop & Hargs & Hflat
        & Hval & Hph & Hvals & ->).
  assert (HJ : joint_outputs g = outs).
  { unfold joint_outputs. by rewrite Hg, last_snoc, Hargs. }
  rewrite HJ in Hlen.
  pose proof (out_values_length E outs vals Hvals) as Hlv.
  assert (HB : forall x, x ∈ name <$> body -> is_Some (E !! x)).
  { intros x (n & -> & Hn)%list_elem_of_fmap.
    eapply bound_of_run; [exact Hval|apply Hph| |].
    - rewrite Hg. apply elem_of_app. by left.
    - rewrite Forall_forall in Hbody. by apply Hbody. }
  assert (Hjok : Forall (joint_ok E (name <$> body)) body).
  { apply Forall_forall. intros n Hn. split; [|split].
    - apply list_elem_of_fmap. eauto.
    - rewrite Forall_forall in Hbody. by apply Hbody.
    - intros Hnp. apply Hval; [rewrite Hg; apply elem_of_app; by left|done|].
      rewrite Forall_forall in Hbody. by apply Hbody. }
  pose proof (Hph _is_primal) as Hpp. rewrite ph_values_primal in Hpp.
  pose proof (Hph _is_tangent) as Hpt. rewrite ph_values_tangent in Hpt.
  subst g.
  unfold _extract_fwd_bwd_modules, _extract_fwd_bwd_outputs.
  cbn [graph num_fwd_leaves num_bwd_leaves].
  rewrite (joint_leaves body out outs) by done.
  bind_case fw0 H1. bind_case bw0 H2.
  set (saved' := filter_unused bw0 saved).
  bind_case fw1 H3. bind_case bw1 H4. intros [= <- <-].
  (* the forward graph *)
  destruct (extract_graph_run E (name <$> body) body out _ _ fw1 _ Hop
              (name_out_fresh body out _is_primal Hwf Hop is_primal_placeholder)
              Hjok HB H3 Hpp) as (valsF & HoF & HrF & HnF & HrunF).
  destruct (saved_values E (name <$> saved')) as (ws & Hws & HoS & Hav).
  { intros s Hs. apply HB, HnF. unfold args_refs.
    rewrite flat_map_app, elem_of_app. right.
    apply list_elem_of_fmap in Hs as (n & -> & Hn).
    apply (elem_of_args_refs _ (ARef (name n)));
      [|apply list_elem_of_singleton; reflexivity].
    unfold as_refs. apply list_elem_of_fmap. eauto. }
  assert (Has : as_refs saved' = ARef <$> (name <$> saved')).
  { unfold as_refs. by rewrite <- list_fmap_compose. }
  rewrite Has in HoF, HnF.
  pose proof (out_values_app _ _ _ _ _
                (out_values_take E outs vals nf Hvals) HoS) as HoF'.
  rewrite HoF in HoF'. injection HoF' as ->.
  (* the backward graph *)
  destruct (extract_graph_run E (name <$> body) body out
              (saved' ++ filter (fun n => _is_tangent n = true) (body ++ [out]))
              (drop nf outs) bw1
              (ws ++ select_inputs _is_tangent (body ++ [out]) ins) Hop)
    as (valsB & HoB & HrB & HnB & HrunB); try done.
  { rewrite fmap_app. intros [Hin|Hin]%elem_of_app.
    - apply wf_from_snoc in Hwf as (_ & Hfresh & _). apply Hfresh. simpl.
      apply HnF. unfold args_refs. rewrite flat_map_app, elem_of_app. right.
      apply (elem_of_args_refs _ (ARef (name out)));
        [|apply list_elem_of_singleton; reflexivity].
      apply list_elem_of_fmap. eauto.
    - by apply (name_out_fresh body out _is_tangent Hwf Hop
                  is_tangent_placeholder). }
  { apply mapM_app_Some; [|done]. by rewrite <- mapM_names. }
  rewrite (out_values_drop E outs vals nf Hvals) in HoB. injection HoB as <-.
  (* threading the two runs *)
  unfold threaded_run. rewrite HrunF. cbn [mbind option_bind normalize_as_list].
  assert (Hnf : length (take nf vals) = nf) by (rewrite length_take; lia).
  rewrite drop_app_length', take_app_length' by done.
  rewrite Hav. cbn [mbind option_bind]. rewrite HrunB. done.
Qed.


(** X1.  Partition correctness away from the defect shown below.  Let a
    joint module be well formed (unique names,
    arguments defined before use, one output node, at the end, holding a
    flat list whose length is the sum of the two leaf counts), and let
    its graph run on some inputs.  If [default_partition] returns a
    forward and a backward graph, and no primal placeholder is itself
    one of the gradients, then running the forward graph on the primal
    inputs and the backward graph on the saved values followed by the
    tangent inputs yields the forward outputs and the gradients of the
    joint run.  If [partition_with_recompute_fwd_in_bwd] returns a
    forward and a backward graph, whatever minimum cut it was given, the
    same holds. *)
Theorem partition_correctness
    (set_iter : list string -> list string) (has_networkx : bool)
    (nx_minimum_cut :
       DiGraph -> string -> string -> result (Z * (gset string * gset string)))
    (M : GraphModule V) (ins : list V) (rJ : PyVal V) :
  wf_joint M = true ->
  run_graph interp attr (graph M) ins = Some rJ ->
  let nf := num_fwd_leaves M in
  let primals := select_inputs _is_primal (graph M) ins in
  let tangents := select_inputs _is_tangent (graph M) ins in
  let joint :=
    Some (take nf (normalize_as_list rJ), drop nf (normalize_as_list rJ)) in
  (forall fw bw,
     default_partition set_iter M = Ok (fw, bw) ->
     grads_not_primals M = true ->
     threaded_run interp attr fw bw nf primals tangents = joint)
  /\ (forall fw bw,
        partition_with_recompute_fwd_in_bwd interp set_iter has_networkx
          nx_minimum_cut M = Ok (fw, bw) ->
        threaded_run interp attr fw bw nf primals tangents = joint).
Proof.
  intros Hwf Hrun nf primals tangents joint. split.
  - intros fw bw Hp Hg. by eapply default_partition_correct.
  - intros fw bw. unfold partition_with_recompute_fwd_in_bwd.
    destruct (negb has_networkx); [done|].
    bind_case saved Hs. intros Hp.
    by eapply extract_fwd_bwd_modules_correct.
Qed.

End PartitionCorrect.

Lemma partition_correctness_witness :
  exists fw bw fw' bw',
    default_partition id mul_joint_module = Ok (fw, bw)
    /\ partition_with_recompute_fwd_in_bwd z_interp id true
         (propose_cut mul_reachable mul_non_reachable) mul_joint_module
       = Ok (fw', bw')
    /\ threaded_run z_interp (fun _ => 0) fw bw 1 [2; 3] [5]
       = Some ([ARef 6], [ARef 15; ARef 10])
    /\ threaded_run z_interp (fun _ => 0) fw' bw' 1 [2; 3] [5]
       = Some ([ARef 6], [ARef 15; ARef 10]).
Proof.
  destruct (default_partition id mul_joint_module) as [[fw bw]|] eqn:Hd;
    [|vm_compute in Hd; discriminate Hd].
  destruct (partition_with_recompute_fwd_in_bwd z_interp id true
              (propose_cut mul_reachable mul_non_reachable) mul_joint_module)
    as [[fw' bw']|] eqn:Hr; [|vm_compute in Hr; discriminate Hr].
  assert (Hwf : wf_joint mul_joint_module = true) by (vm_compute; reflexivity).
  assert (Hrun : run_graph z_interp (fun _ => 0) (graph mul_joint_module)
                   [2; 3; 5] = Some (ASeq [ARef 6; ARef 15; ARef 10]))
    by (vm_compute; reflexivity).
  assert (Hg : grads_not_primals mul_joint_module = true)
    by (vm_compute; reflexivity).
  destruct (partition_correctness z_interp (fun _ => 0) id true
              (propose_cut mul_reachable mul_non_reachable)
              mul_joint_module [2; 3; 5] _ Hwf Hrun) as [H1 H2].
  exists fw, bw, fw', bw'. split; [reflexivity|]. split; [reflexivity|].
  split; [exact (H1 fw bw Hd Hg)|exact (H2 fw' bw' Hr)].
Defined.

(** C1, on the code.  On a joint graph one of whose gradients is a
    primal input itself, [default_partition] copies that primal
    placeholder into the backward graph, because the node is in
    [bw_outputs]; the backward graph then expects one input more than
    the saved values and the tangents it is called on, and the call
    fails where the joint graph returns the forward output and the
    gradient. *)
Lemma default_partition_primal_gradient :
  let M := mkModule primal_grad_joint 1 1 in
  wf_joint M = true
  /\ run_graph z_interp (fun _ => 0) primal_grad_joint [2; 5]
     = Some (ASeq [ARef 2; ARef 2])
  /\ select_inputs _is_primal primal_grad_joint [2; 5] = [2]
  /\ select_inputs _is_tangent primal_grad_joint [2; 5] = [5]
  /\ exists fw bw,
       default_partition id M = Ok (fw, bw)
       /\ filter (fun n => op n = placeholder) bw
          = [mkNode "primals_1" placeholder (TName "primals_1") [] []
               (Some [2;3]);
             mkNode "tangents_1" placeholder (TName "tangents_1") [] []
               (Some [2;3])]
       /\ threaded_run z_interp (fun _ => 0) fw bw 1 [2] [5] = None.
Proof.
  split; [vm_compute; reflexivity|]. split; [vm_compute; reflexivity|].
  split; [vm_compute; reflexivity|]. split; [vm_compute; reflexivity|].
  destruct (default_partition id (mkModule primal_grad_joint 1 1))
    as [[fw bw]|] eqn:Hp; [|vm_compute in Hp; discriminate Hp].
  exists fw, bw. split; [reflexivity|].
  vm_compute in Hp. injection Hp as <- <-.
  split; vm_compute; reflexivity.
Qed.

(** * Further properties of the code *)

(** ** The default partitioner: errors and the shape of its graphs *)

Section DefaultPartitionMore.
Context {V : Type}.
Implicit Types (g : Graph V) (n : Node V) (M : GraphModule V).

Lemma output_node_none g :
  existsb (is_op output) g = false -> output_node (color_walk g) = None.
Proof.
  induction g as [|n g IH] using rev_ind; [done|].
  rewrite existsb_app, orb_false_iff. simpl. rewrite orb_false_r.
  intros [Hg Hn]. rewrite color_walk_snoc. unfold color_step.
  rewrite Hn. destruct (_is_tangent n); simpl; [by apply IH|].
  destruct (existsb (is_colored (color_walk g)) (node_refs n)); simpl;
    by apply IH.
Qed.

(** X2.  On a graph without an output node [default_partition] raises
    [AttributeError]: [output_node] is still [None] when its [args] are
    read. *)
Theorem default_partition_requires_output_node
    (set_iter : list string -> list string) M :
  existsb (is_op output) (graph M) = false ->
  default_partition set_iter M = Raise AttributeError.
Proof.
  intros H. unfold default_partition. by rewrite (output_node_none _ H).
Qed.




(** X4.  [default_partition] returns only when every entry of the
    output list is a node, and the two leaf counts add up to the length
    of the list: a gradient that is [None] makes it raise. *)
Theorem default_partition_returns_only_on_nodes
    (set_iter : list string -> list string) M (fw bw : Graph V) :
  default_partition set_iter M = Ok (fw, bw) ->
  exists out outs,
    output_node (color_walk (graph M)) = Some out
    /\ out_args0 out = Ok outs
    /\ (num_fwd_leaves M + num_bwd_leaves M)%nat = length outs
    /\ forall a, a ∈ outs -> exists x, a = ARef x.
Proof.
  unfold default_partition.
  destruct (output_node (color_walk (graph M))) as [out|]; simpl; [|done].
  destruct (out_args0 out) as [outs|] eqn:Houts; simpl; [|done].
  bind_case stb Hb.
  case_bool_decide as Hlen; simpl; [|done].
  bind_case bouts Hbo.
  bind_case stf Hf.
  bind_case fo Hfo.
  bind_case fs Hfs.
  intros _. exists out, outs. split; [done|]. split; [done|].
  split; [done|]. intros a Ha.
  apply mapR_remap_key_refs in Hfo, Hbo.
  rewrite <- (take_drop (num_fwd_leaves M) outs) in Ha.
  rewrite Forall_forall in Hfo, Hbo.
  apply elem_of_app in Ha as [Ha|Ha];
    [destruct (Hfo a Ha) as (x & -> & _)|destruct (Hbo a Ha) as (x & -> & _)];
    eauto.
Qed.

End DefaultPartitionMore.

Lemma default_partition_requires_output_node_witness :
  default_partition id (mkModule no_output_graph 1 1) = Raise AttributeError.
Proof.
  apply (default_partition_requires_output_node id
           (mkModule no_output_graph 1 1)).
  reflexivity.
Defined.


Lemma default_partition_returns_only_on_nodes_witness :
  exists out outs,
    output_node (color_walk mul_joint) = Some out
    /\ out_args0 out = Ok outs
    /\ length outs = 3%nat
    /\ forall a, a ∈ outs -> exists x, a = ARef x.
Proof.
  destruct (default_partition id mul_joint_module) as [[fw bw]|] eqn:Hp;
    [|vm_compute in Hp; discriminate Hp].
  destruct (default_partition_returns_only_on_nodes id mul_joint_module
              fw bw Hp) as (out & outs & H1 & H2 & H3 & H4).
  exists out, outs. split; [exact H1|]. split; [exact H2|].
  split; [symmetry; exact H3|exact H4].
Defined.

(** ** The subgraph extractor: what it builds and when it raises *)

Section ExtractMore.
Context {V : Type}.
Variable interp : string -> list (Arg V V) -> list (string * Arg V V) -> V.
Implicit Types (g : Graph V) (n m : Node V).






Lemma extract_step_lookup inputs (st st' : extract_state V) m x :
  name m ≠ x -> extract_step interp inputs st m = Ok st' ->
  st'.1 !! x = st.1 !! x.
Proof.
  intros Hne. unfold extract_step.
  repeat res_step; intros [= <-]; simpl; try done;
    by rewrite lookup_insert_ne.
Qed.

Lemma extract_loop_lookup inputs g (st st' : extract_state V) x :
  x ∉ name <$> g -> extract_loop interp inputs g st = Ok st' ->
  st'.1 !! x = st.1 !! x.
Proof.
  revert st. induction g as [|m g IH]; intros st Hx; simpl.
  - by intros [= <-].
  - res_step. intros H. rewrite (IH _ ltac:(set_solver) H).
    eapply extract_step_lookup; [|done]. set_solver.
Qed.

Lemma mapR_raises {A B} (f : A -> result B) (l : list A) a e :
  a ∈ l -> f a = Raise e -> exists e', mapR f l = Raise e'.
Proof.
  intros Ha Hf. induction l as [|b l IH]; [by apply elem_of_nil in Ha|].
  simpl. destruct (f b) as [y|e1] eqn:Hb; simpl; [|eauto].
  apply elem_of_cons in Ha as [->|Ha]; [congruence|].
  destruct (IH Ha) as [e' ->]. simpl. eauto.
Qed.

(** X6.  A placeholder of the joint graph that is not a permitted input
    is an invalid node: when it is requested as an output,
    [_extract_graph_with_inputs_outputs] raises. *)
Theorem extract_invalid_output_raises g (inputs : list (Node V))
    (outputs : list (Arg V string)) n :
  NoDup (name <$> g) -> n ∈ g -> op n = placeholder ->
  name n ∉ name <$> inputs -> ARef (name n) ∈ outputs ->
  exists e, _extract_graph_with_inputs_outputs interp g inputs outputs
            = Raise e.
Proof.
  intros Hnd Hn Hop Hin Hout. unfold _extract_graph_with_inputs_outputs.
  destruct (extract_loop interp (name <$> inputs) g
              (∅, mk_placeholder <$> (name <$> inputs))) as [st|e] eqn:Hl;
    simpl; [|eauto].
  assert (Hinv : st.1 !! name n = Some EInvalid).
  { apply list_elem_of_split in Hn as (pre & post & ->).
    rewrite fmap_app, fmap_cons in Hnd.
    apply NoDup_app in Hnd as (_ & _ & Hpost).
    apply NoDup_cons in Hpost as [Hpost _].
    rewrite extract_loop_app in Hl.
    destruct (extract_loop interp (name <$> inputs) pre _) as [st1|];
      simpl in Hl; [|done].
    unfold extract_step in Hl at 1.
    rewrite bool_decide_eq_false_2, Hop in Hl by done. simpl in Hl.
    rewrite (extract_loop_lookup _ _ _ _ _ Hpost Hl). simpl.
    apply lookup_insert_eq. }
  destruct (mapR_raises (env_node st.1) outputs (ARef (name n)) AttributeError)
    as [e He]; [done| |].
  { simpl. unfold env_lookup. by rewrite Hinv. }
  rewrite He. simpl. eauto.
Qed.

End ExtractMore.


Lemma extract_invalid_output_raises_witness :
  exists e,
    _extract_graph_with_inputs_outputs z_interp mul_joint
      (filter (fun n => _is_tangent n = true) mul_joint)
      [ARef "primals_1"] = Raise e.
Proof.
  apply (extract_invalid_output_raises z_interp mul_joint _ _
           (mul_node "primals_1")).
  - apply (bool_decide_unpack _). vm_compute. exact I.
  - apply list_elem_of_lookup. exists 0%nat. reflexivity.
  - reflexivity.
  - apply (bool_decide_unpack _). vm_compute. exact I.
  - apply list_elem_of_singleton. reflexivity.
Defined.

(** ** Sizes, placeholders and output lists *)

Lemma fold_mul_prod (x : list Z) (a : Z) : fold_left Z.mul x a = a * prod x.
Proof.
  unfold prod. revert a. induction x as [|i x IH]; intros a; simpl; [lia|].
  rewrite (IH (a * i)), (IH (1 * i)). lia.
Qed.

(** X7.  [prod] multiplies the entries of a shape: the product of a
    concatenation is the product of the products, and it is zero
    exactly when some dimension is zero. *)
Theorem prod_product (x y : list Z) :
  prod (x ++ y) = prod x * prod y /\ (prod x = 0 <-> 0 ∈ x).
Proof.
  split.
  - unfold prod at 1. rewrite fold_left_app, fold_mul_prod. done.
  - induction x as [|i x IH].
    + unfold prod. simpl. split; [lia|]. intros H. by apply elem_of_nil in H.
    + change (prod (i :: x)) with (fold_left Z.mul x (1 * i)).
      rewrite fold_mul_prod, elem_of_cons. split.
      * intros H. apply Z.mul_eq_0 in H as [H|H]; [left; lia|right; tauto].
      * intros [<-|H]; [lia|]. apply IH in H. rewrite H. lia.
Qed.

Section Placeholders.
Context {V : Type}.
Implicit Types (g : Graph V) (n : Node V).

(** X8.  [_is_primal] and [_is_tangent] split the placeholders: no node
    is both, and the primal inputs together with the tangent inputs are
    the placeholders of the graph. *)
Theorem primal_tangent_split g :
  (forall n, ~ (_is_primal n = true /\ _is_tangent n = true))
  /\ filter (fun n => _is_primal n = true) g
     ++ filter (fun n => _is_tangent n = true) g
     ≡ₚ filter (fun n => op n = placeholder) g.
Proof.
  split.
  - intros n. unfold _is_primal, _is_tangent.
    destruct (is_op placeholder n), (target_contains "tangents" (target n));
      simpl; intros [? ?]; done.
  - induction g as [|n g IH]; [done|].
    destruct (decide (op n = placeholder)) as [Hop|Hop].
    + rewrite (filter_cons_True (fun n => op n = placeholder)) by done.
      pose proof (primal_tangent n Hop) as Hpt.
      destruct (_is_tangent n) eqn:Ht; simpl in Hpt.
      * rewrite (filter_cons_False (fun n => _is_primal n = true))
          by (by rewrite Hpt).
        rewrite (filter_cons_True (fun n => _is_tangent n = true)) by done.
        rewrite <- Permutation_middle. by constructor.
      * rewrite (filter_cons_True (fun n => _is_primal n = true)) by done.
        rewrite (filter_cons_False (fun n => _is_tangent n = true))
          by (by rewrite Ht).
        simpl. by constructor.
    + rewrite (filter_cons_False (fun n => op n = placeholder)) by done.
      rewrite (filter_cons_False (fun n => _is_primal n = true)),
        (filter_cons_False (fun n => _is_tangent n = true)); [done| |].
      * intros Ht. by apply is_tangent_placeholder in Ht.
      * intros Hp. by apply is_primal_placeholder in Hp.
Qed.

Lemma not_own_singleton (a : PyVal V) : a ≠ ASeq [a].
Proof.
  induction a as [x|c|l IH] using Arg_ind'; try done.
  intros Heq. injection Heq as Hl.
  rewrite Forall_forall in IH. apply (IH (ASeq l)).
  - rewrite Hl at 2. apply list_elem_of_singleton. done.
  - by rewrite <- Hl.
Qed.

(** X9.  The partitioners hand a single output over bare
    ([if len(outs) == 1: outs = outs[0]]) and the wrapper wraps the
    result of a compiled graph again with [normalize_as_list].  The
    round trip gives the output list back exactly when that list is not
    a single tuple or list. *)
Theorem normalize_unwrap_round_trip (l : list (PyVal V)) :
  normalize_as_list (unwrap_single l) = l <-> forall xs, l ≠ [ASeq xs].
Proof.
  destruct l as [|a [|a' l]]; simpl.
  - split; [intros _ xs|]; done.
  - destruct a as [x|c|xs]; simpl.
    + split; [intros _ xs|]; done.
    + split; [intros _ xs|]; done.
    + split.
      * intros Hxs. exfalso. apply (not_own_singleton (ASeq xs)).
        by rewrite Hxs at 1.
      * intros H. by destruct (H xs).
  - split; [intros _ xs|]; done.
Qed.

End Placeholders.

(** ** The output thunk *)

Section ThunkMore.
Context {V Spec : Type} `{EqDecision Spec}.
Variable is_leaf_spec : Spec -> bool.
Variable tree_unflatten : list (PyVal V) -> Spec -> PyVal V.

(** X10.  A fresh [PytreeThunk] accepts any spec.  Afterwards setting
    the same spec again changes nothing and setting another one fails
    the assertion; [unflatten] returns the first element of the flat
    output when the spec is a leaf (raising [IndexError] on an empty
    one) and otherwise calls [tree_unflatten] with the spec. *)
Theorem thunk_set_unflatten (sp : Spec) (x : list (PyVal V)) :
  exists t,
    thunk_set is_leaf_spec thunk_new sp = Ok t
    /\ spec t = Some sp
    /\ thunk_set is_leaf_spec t sp = Ok t
    /\ (forall sp', sp' ≠ sp ->
          thunk_set is_leaf_spec t sp' = Raise AssertionError)
    /\ thunk_unflatten tree_unflatten t x
       = if is_leaf_spec sp
         then match x with
              | x0 :: _ => Ok x0
              | [] => Raise IndexError
              end
         else Ok (tree_unflatten x sp).
Proof.
  eexists. split; [reflexivity|]. split; [reflexivity|]. split; [|split].
  - unfold thunk_set. simpl. rewrite bool_decide_eq_true_2 by auto.
    by destruct (is_leaf_spec sp).
  - intros sp' Hne. unfold thunk_set. simpl.
    rewrite bool_decide_eq_false_2; [done|].
    intros [?|[= ?]]; congruence.
  - unfold thunk_unflatten. simpl. by destruct (is_leaf_spec sp).
Qed.

End ThunkMore.

(** ** The tangent closure of the recompute-aware partitioner *)

Section TangentClosure.
Context {V : Type}.
Implicit Types (g l pre post : Graph V) (n m p u : Node V) (tc : gset string).

Lemma closure_step_elem g tc n (x : string) :
  x ∈ closure_step g tc n <->
  x ∈ tc
  \/ (x = name n /\ _is_tangent n = true)
  \/ ((name n ∈ tc \/ _is_tangent n = true)
      /\ exists u, u ∈ g /\ name u = x /\ name n ∈ node_refs u).
Proof.
  unfold closure_step.
  change (is_op placeholder n && target_contains "tangents" (target n))
    with (_is_tangent n).
  assert (Hu : x ∈ (list_to_set (name <$> users g n) : gset string) <->
               exists u, u ∈ g /\ name u = x /\ name n ∈ node_refs u).
  { rewrite elem_of_list_to_set, list_elem_of_fmap. unfold users.
    split.
    - intros (u & -> & [Hr Hu]%list_elem_of_filter). eauto.
    - intros (u & Hu & <- & Hr). exists u. split; [done|].
      by apply list_elem_of_filter. }
  destruct (_is_tangent n); case_bool_decide as Hin;
    rewrite ?elem_of_union, ?elem_of_singleton, ?Hu; set_solver.
Qed.

Lemma fold_closure_mono g l tc (x : string) :
  x ∈ tc -> x ∈ fold_left (closure_step g) l tc.
Proof.
  revert tc. induction l as [|n l IH]; intros tc Hx; simpl; [done|].
  apply IH, closure_step_elem. by left.
Qed.

Lemma fold_closure_elem g l tc (x : string) :
  x ∈ fold_left (closure_step g) l tc ->
  x ∈ tc
  \/ (exists m, m ∈ l /\ x = name m)
  \/ (exists m u, m ∈ l /\ u ∈ g /\ name u = x /\ name m ∈ node_refs u).
Proof.
  revert tc. induction l as [|n l IH]; intros tc; simpl; [auto|].
  intros [H|[(m & Hm & ->)|(m & u & Hm & Hu)]]%IH.
  - apply closure_step_elem in H as [H|[[-> _]|[_ (u & Hu & <- & Hr)]]].
    + by left.
    + right. left. exists n. split; [apply elem_of_cons; by left|done].
    + right. right. exists n, u. split; [apply elem_of_cons; by left|done].
  - right. left. exists m. split; [apply elem_of_cons; by right|done].
  - right. right. exists m, u. split; [apply elem_of_cons; by right|done].
Qed.

Lemma name_inj g n u :
  NoDup (name <$> g) -> n ∈ g -> u ∈ g -> name u = name n -> u = n.
Proof.
  intros Hnd Hn Hu Heq.
  apply list_elem_of_split in Hn as (pre & post & ->).
  rewrite fmap_app, fmap_cons in Hnd.
  apply NoDup_app in Hnd as (_ & Hpre & Hpost).
  apply NoDup_cons in Hpost as [Hpost _].
  apply elem_of_app in Hu as [Hu|[->|Hu]%elem_of_cons]; [|done|].
  - exfalso. apply (Hpre (name n)).
    + rewrite <- Heq. apply list_elem_of_fmap. eauto.
    + apply elem_of_cons. by left.
  - exfalso. apply Hpost. rewrite <- Heq. apply list_elem_of_fmap. eauto.
Qed.

(** Whether a node ends up in the closure is settled when the walk
    leaves it. *)
Lemma closure_settled pre n post :
  wf_graph (pre ++ n :: post) = true ->
  name n ∈ tangent_closure (pre ++ n :: post) <->
  name n ∈ fold_left (closure_step (pre ++ n :: post)) pre ∅
  \/ _is_tangent n = true.
Proof.
  intros Hwf. pose proof (wf_graph_NoDup _ Hwf) as Hnd.
  set (g := pre ++ n :: post) in *.
  assert (Hn : n ∈ g) by (unfold g; set_solver).
  assert (Hself : name n ∉ node_refs n).
  { intros Hr. apply (wf_from_refs [] pre n post _ Hwf) in Hr. simpl in Hr.
    unfold g in Hnd. rewrite fmap_app, fmap_cons in Hnd.
    apply NoDup_app in Hnd as (_ & Hpre & _). apply (Hpre _ Hr).
    apply elem_of_cons. by left. }
  unfold tangent_closure. fold g. unfold g at 2.
  rewrite fold_left_app. simpl. split.
  - intros [H|[(m & Hm & Heq)|(m & u & Hm & Hu & Heq & Hr)]]%fold_closure_elem.
    + apply closure_step_elem in H as [H|[[_ H]|[_ (u & Hu & Heq & Hr)]]];
        auto.
      apply (name_inj g n u Hnd Hn Hu) in Heq as ->. done.
    + exfalso. assert (m = n) as ->.
      { apply (name_inj g); try done. unfold g. set_solver. }
      unfold g in Hnd. rewrite fmap_app, fmap_cons in Hnd.
      apply NoDup_app in Hnd as (_ & _ & Hpost).
      apply NoDup_cons in Hpost as [Hpost _]. apply Hpost.
      apply list_elem_of_fmap. eauto.
    + exfalso. apply (name_inj g n u Hnd Hn Hu) in Heq as ->.
      apply (wf_from_refs [] pre n post _ Hwf) in Hr. simpl in Hr.
      unfold g in Hnd. rewrite fmap_app, fmap_cons in Hnd.
      apply NoDup_app in Hnd as (_ & Hpre & _). apply (Hpre _ Hr).
      apply elem_of_cons. right. apply list_elem_of_fmap. eauto.
  - intros H. apply fold_closure_mono, closure_step_elem.
    destruct H as [H|H]; [by left|right; left; done].
Qed.

(** X11.  In a well-formed joint graph the tangent closure is the set of
    nodes that depend on a tangent: a node is in it exactly when it is
    a tangent placeholder or one of its arguments is in it. *)
Theorem tangent_closure_spec g n :
  wf_graph g = true -> n ∈ g ->
  name n ∈ tangent_closure g <->
  _is_tangent n = true
  \/ exists a, a ∈ node_refs n /\ a ∈ tangent_closure g.
Proof.
  intros Hwf Hn. pose proof (wf_graph_NoDup _ Hwf) as Hnd.
  pose proof Hn as Hn'.
  apply list_elem_of_split in Hn as (pre & post & Hg).
  assert (Hwf' : wf_graph (pre ++ n :: post) = true) by (by rewrite <- Hg).
  rewrite Hg at 1. rewrite closure_settled by done.
  rewrite <- Hg. split.
  - intros [H|H]; [|by left]. right.
    assert (Hgen : forall l (x : string),
              x ∈ fold_left (closure_step g) l ∅ ->
              (exists p, p ∈ l /\ x = name p /\ _is_tangent p = true)
              \/ exists p u, p ∈ l
                   /\ name p ∈ fold_left (closure_step g) l ∅
                   /\ u ∈ g /\ name u = x /\ name p ∈ node_refs u).
    { clear. induction l as [|p l IH] using rev_ind; intros x; simpl.
      - intros Hx. by apply elem_of_empty in Hx.
      - rewrite fold_left_app. simpl. intros Hx.
        apply closure_step_elem in Hx
          as [Hx|[[-> Ht]|[Hp (u & Hu & Heq & Hr)]]].
        + apply IH in Hx as [(q & Hq & Heq & Ht)|(q & u & Hq & Hin & Hu)].
          * left. exists q. rewrite elem_of_app. auto.
          * right. exists q, u. rewrite elem_of_app. split; [auto|].
            split; [|done]. apply closure_step_elem. by left.
        + left. exists p. rewrite elem_of_app, list_elem_of_singleton. auto.
        + right. exists p, u. rewrite elem_of_app, list_elem_of_singleton.
          split; [auto|]. split; [|done].
          apply closure_step_elem.
          destruct Hp as [Hp|Hp]; [by left|right; left; done]. }
    apply Hgen in H as [(p & Hp & Heq & _)|(p & u & Hp & Hin & Hu & Heq & Hr)].
    + exfalso. rewrite Hg in Hnd. rewrite fmap_app, fmap_cons in Hnd.
      apply NoDup_app in Hnd as (_ & Hpre & _). apply (Hpre (name n)).
      * rewrite Heq. apply list_elem_of_fmap. eauto.
      * apply elem_of_cons. by left.
    + apply (name_inj g n u Hnd Hn' Hu) in Heq as ->.
      exists (name p). split; [done|].
      unfold tangent_closure. rewrite Hg at 2. rewrite fold_left_app.
      by apply fold_closure_mono.
  - intros [H|(a & Ha & Hin)]; [by right|]. left.
    pose proof (wf_from_refs [] pre n post a Hwf' Ha) as Hpre.
    simpl in Hpre. apply list_elem_of_fmap in Hpre as (p & -> & Hp).
    apply list_elem_of_split in Hp as (pre1 & pre2 & ->).
    assert (Hg2 : g = pre1 ++ p :: (pre2 ++ n :: post))
      by (rewrite Hg, <- app_assoc; done).
    assert (Hwf2 : wf_graph (pre1 ++ p :: (pre2 ++ n :: post)) = true)
      by (by rewrite <- Hg2).
    rewrite Hg2 in Hin. apply closure_settled in Hin; [|done].
    rewrite <- Hg2 in Hin.
    rewrite fold_left_app. simpl. apply fold_closure_mono.
    apply closure_step_elem. right. right. split; [done|].
    exists n. done.
Qed.

Lemma name_to_node_elem (l : Graph V) (m0 : gmap string (Node V))
    (x : string) n :
  fold_left (fun (acc : gmap string (Node V)) q => <[name q := q]> acc) l m0
    !! x = Some n ->
  m0 !! x = Some n \/ (n ∈ l /\ name n = x).
Proof.
  revert m0. induction l as [|p l IH]; intros m0; simpl; [auto|].
  intros [H|[H1 H2]]%IH.
  - rewrite lookup_insert in H. case_decide as Hx.
    + injection H as <-. right. split; [apply elem_of_cons; by left|done].
    + by left.
  - right. split; [apply elem_of_cons; by right|done].
Qed.

End TangentClosure.

Section SavedValues.
Context {V : Type}.
Variable set_iter : list string -> list string.
Variable nx_minimum_cut :
  DiGraph -> string -> string -> result (Z * (gset string * gset string)).

(** X12.  The saved values that the recompute-aware partitioner hands to
    [_extract_fwd_bwd_modules] are nodes of the joint graph: a cut edge
    that names no node makes the lookup in [name_to_node] raise. *)
Theorem min_cut_saved_values_are_nodes (M : GraphModule V)
    (saved : list (Node V)) :
  min_cut_saved_values set_iter nx_minimum_cut M = Ok saved ->
  forall s, s ∈ saved -> s ∈ graph M.
Proof.
  unfold min_cut_saved_values.
  destruct (nx_minimum_cut _ _ _) as [[v [R NR]]|]; simpl; [|done].
  destruct (cut_nodes_loop _ _) as [cut_nodes|]; simpl; [|done].
  intros Hs s Hin. apply mapR_Ok_Forall2 in Hs.
  revert Hin. clear -Hs. intros Hin.
  induction Hs as [|x y l k Hxy Hl IH]; [by apply elem_of_nil in Hin|].
  apply elem_of_cons in Hin as [->|Hin]; [|by apply IH].
  unfold lookup_node in Hxy.
  destruct (name_to_node (graph M) !! x) as [n|] eqn:Hx; [|done].
  injection Hxy as <-. unfold name_to_node in Hx.
  apply name_to_node_elem in Hx as [Hx|[Hx _]]; [|done].
  by rewrite lookup_empty in Hx.
Qed.

End SavedValues.

Lemma tangent_closure_spec_witness :
  name (mul_node "mul_1") ∈ tangent_closure mul_joint
  /\ name (mul_node "mul") ∉ tangent_closure mul_joint.
Proof.
  assert (Hwf : wf_graph mul_joint = true) by reflexivity.
  assert (H1 : mul_node "mul_1" ∈ mul_joint).
  { apply list_elem_of_lookup. exists 4%nat. reflexivity. }
  assert (H0 : mul_node "tangents_1" ∈ mul_joint).
  { apply list_elem_of_lookup. exists 2%nat. reflexivity. }
  split.
  - apply (tangent_closure_spec mul_joint (mul_node "mul_1") Hwf H1).
    right. exists "tangents_1". split.
    + apply (bool_decide_unpack _). vm_compute. exact I.
    + apply (tangent_closure_spec mul_joint (mul_node "tangents_1") Hwf H0).
      left. reflexivity.
  - apply (bool_decide_unpack _). vm_compute. exact I.
Defined.

Lemma min_cut_saved_values_are_nodes_witness :
  exists saved,
    min_cut_saved_values id (propose_cut mul_reachable mul_non_reachable)
      mul_joint_module = Ok saved
    /\ forall s, s ∈ saved -> s ∈ mul_joint.
Proof.
  destruct (min_cut_saved_values id
              (propose_cut mul_reachable mul_non_reachable) mul_joint_module)
    as [saved|] eqn:Hs; [|vm_compute in Hs; discriminate Hs].
  exists saved. split; [reflexivity|].
  exact (min_cut_saved_values_are_nodes id _ mul_joint_module saved Hs).
Defined.

(** ** The dispatch wrapper: what a call does to the cache *)

Section DispatchMore.
Context {V Spec : Type} `{EqDecision Spec}.
Variable hasher : string -> list (PyVal V) -> Z.
Variable is_leaf_spec : Spec -> bool.
Variable tree_unflatten : list (PyVal V) -> Spec -> PyVal V.
Variable make_fx :
  bool -> (list (PyVal V) -> list (PyVal V) * Spec) ->
  list (PyVal V) -> list (PyVal V) -> GraphModule V.
Implicit Types (w : world V Spec) (cf : wrapper V Spec).

Ltac st_unfold :=
  unfold returned_function, forward, compile_unit, emit, get_unit, set_unit,
    st_lift, st_get, st_modify, st_raise, mbind, St_bind, mret, St_ret.

(** A computation that leaves the cache alone and neither adds nor
    removes a compiled unit. *)
Definition keeps_cache {A} (m : St (world V Spec) A) : Prop :=
  forall w, compile_cache (m w).2 = compile_cache w
            /\ length (units (m w).2) = length (units w).

Lemma keeps_bind {A B} (m : St (world V Spec) A)
    (f : A -> St (world V Spec) B) :
  keeps_cache m -> (forall a, keeps_cache (f a)) -> keeps_cache (m ≫= f).
Proof.
  intros Hm Hf w. unfold mbind, St_bind. specialize (Hm w).
  destruct (m w) as [[a|e] w1]; simpl in *; [|done].
  destruct (Hf a w1) as [H1 H2]. rewrite H1, H2. done.
Qed.

Lemma st_bind_ok {A B} (m : St (world V Spec) A)
    (f : A -> St (world V Spec) B) w (a : A) w' :
  m w = (Ok a, w') -> (m ≫= f) w = f a w'.
Proof. intros Hm. unfold mbind, St_bind. by rewrite Hm. Qed.

Lemma keeps_ret {A} (a : A) : keeps_cache (mret a).
Proof. by intros w. Qed.

Lemma keeps_lift {A} (r : result A) : keeps_cache (st_lift r).
Proof. by intros w. Qed.

Lemma keeps_emit (e : event) : keeps_cache (emit e).
Proof. by intros w. Qed.

Lemma keeps_get_unit (uid : nat) : keeps_cache (get_unit uid).
Proof. by intros w. Qed.

Lemma keeps_set_unit (uid : nat) f : keeps_cache (set_unit uid f).
Proof. intros w. simpl. by rewrite length_alter. Qed.

Ltac keeps :=
  repeat first
    [ apply keeps_ret | apply keeps_lift | apply keeps_emit
    | apply keeps_get_unit | apply keeps_set_unit
    | apply keeps_bind; [|intros ?] ].

(** [CompiledFunction.forward] never touches the cache and neither adds
    nor removes a compiled unit. *)
Lemma forward_keeps_cache cf (uid : nat) (args : list (PyVal V)) :
  keeps_cache (forward is_leaf_spec make_fx cf uid args).
Proof.
  unfold forward. apply keeps_bind; [apply keeps_get_unit|]. intros u.
  apply keeps_bind; [|intros ?; keeps].
  destruct (compiled_fw u); [keeps|].
  unfold compile_unit. apply keeps_bind; [apply keeps_emit|]. intros _.
  destruct (flat_fn cf args) as [out sp]. keeps.
Qed.

(** X13.  A call of the wrapped function changes the number of
    recompilations by what the lookup says, whatever else happens in the
    call and whether or not it raises: a hit leaves the count and the
    compiled units as they are, a miss adds one entry and one unit. *)
Theorem call_counts_recompilations cf (args : list (PyVal V))
    (c : CompileCache) (us : list (compiled_unit V Spec)) (lg : list event) :
  let w' := (returned_function hasher is_leaf_spec tree_unflatten make_fx
               cf args (mkWorld (Some c) us lg)).2 in
  match cache_at hasher c (fn_id cf) (length args) (hasher_type cf) args with
  | Some _ =>
      compile_cache w' = Some c /\ num_of_recompilations w' = size c
      /\ length (units w') = length us
  | None =>
      num_of_recompilations w' = S (size c)
      /\ length (units w') = S (length us)
  end.
Proof.
  unfold returned_function.
  erewrite st_bind_ok by reflexivity. cbn [compile_cache].
  erewrite st_bind_ok by reflexivity.
  destruct (cache_at hasher c (fn_id cf) (length args) (hasher_type cf) args)
    as [uid|] eqn:Hat.
  - erewrite st_bind_ok by reflexivity.
    match goal with
    | |- context [(?m ≫= ?f) ?w0] =>
        assert (Hk : keeps_cache (m ≫= f))
          by (apply keeps_bind; [apply forward_keeps_cache|]; intros ?; keeps);
        destruct (Hk w0) as [H1 H2]
    end.
    unfold num_of_recompilations. rewrite H1, H2. done.
  - erewrite st_bind_ok by reflexivity.
    match goal with
    | |- context [(?m ≫= ?f) ?w0] =>
        assert (Hk : keeps_cache (m ≫= f))
          by (apply keeps_bind; [apply forward_keeps_cache|]; intros ?; keeps);
        destruct (Hk w0) as [H1 H2]
    end.
    unfold num_of_recompilations. rewrite H1, H2. cbn.
    rewrite length_app. simpl. split; [|lia].
    unfold cache_size, cache_insert. by apply map_size_insert_None.
Qed.


End DispatchMore.

